(** * ai-blood-analyzer: the response normalizer, the analysis route and the
      report renderer

    A shallow embedding of the server (the [/api/analyze] route with its
    [safeParseJSON] helper and the multer disk storage) and of the category
    loop of the [ReportPreview] component, with the properties the
    specification states about them.

    JavaScript strings are sequences of UTF-16 code units; they are modelled
    as [list N].  JavaScript values are modelled by the inductive [value]. *)

From Stdlib Require Import NArith ZArith Lia Bool List Ascii String.
From Stdlib Require Import DecimalN DecimalFacts.
From stdpp Require Import base option list gmap.
Import ListNotations.

Local Open Scope N_scope.
Local Open Scope list_scope.

(** ** Strings *)

Module JsString.

Definition jsstring := list N.

(** The code units of a literal of the development (ASCII text). *)
Fixpoint u (s : string) : jsstring :=
  match s with
  | EmptyString => []
  | String a s' => N_of_ascii a :: u s'
  end.

Definition cTAB := 9.
Definition cLF := 10.
Definition cCR := 13.
Definition cSPACE := 32.
Definition cDQUOTE := 34.
Definition cSQUOTE := 39.
Definition cCOMMA := 44.
Definition cDOT := 46.
Definition cSLASH := 47.
Definition cBACKSLASH := 92.
Definition cLBRACK := 91.
Definition cRBRACK := 93.
Definition cLBRACE := 123.
Definition cRBRACE := 125.

(** The class [\s] of a regular expression, which is also the set of code
    units [String.prototype.trim] removes: WhiteSpace and LineTerminator. *)
Definition is_space (c : N) : bool :=
  (9 <=? c) && (c <=? 13)
  || (c =? 32) || (c =? 160) || (c =? 5760)
  || (8192 <=? c) && (c <=? 8202)
  || (c =? 8232) || (c =? 8233) || (c =? 8239) || (c =? 8287)
  || (c =? 12288) || (c =? 65279).

Fixpoint skip_space (s : jsstring) : jsstring :=
  match s with
  | [] => []
  | c :: s' => if is_space c then skip_space s' else s
  end.

(** [String.prototype.trim] *)
Definition trim (s : jsstring) : jsstring :=
  rev (skip_space (rev (skip_space s))).

Definition is_digit (c : N) : bool := (48 <=? c) && (c <=? 57).

(** Decimal digits of a natural number, as [Number.prototype.toString]
    prints an integer below 2^53. *)
Fixpoint uint_units (d : Decimal.uint) : jsstring :=
  match d with
  | Decimal.Nil => []
  | Decimal.D0 d' => 48 :: uint_units d'
  | Decimal.D1 d' => 49 :: uint_units d'
  | Decimal.D2 d' => 50 :: uint_units d'
  | Decimal.D3 d' => 51 :: uint_units d'
  | Decimal.D4 d' => 52 :: uint_units d'
  | Decimal.D5 d' => 53 :: uint_units d'
  | Decimal.D6 d' => 54 :: uint_units d'
  | Decimal.D7 d' => 55 :: uint_units d'
  | Decimal.D8 d' => 56 :: uint_units d'
  | Decimal.D9 d' => 57 :: uint_units d'
  end.

Definition decimal (n : N) : jsstring := uint_units (N.to_uint n).

End JsString.
Export JsString.

(** ** Values *)

Module Js.

(** A number is kept as the decimal it was written as,
    [(-1)^neg * mant * 10^expo]; the engine rounds it to a double. *)
Record jsnum := mkNum { neg : bool; mant : N; expo : Z }.

#[warnings="-register-all"]
Inductive value :=
| VUndef
| VNull
| VBool (b : bool)
| VNum (n : jsnum)
| VStr (s : jsstring)
| VArr (elems : list value) (extra : list (jsstring * value))
    (* an array, and the named (non-index) properties set on it *)
| VObj (props : list (jsstring * value)).

(** A double is zero when the decimal is, or when it rounds to zero:
    at most 2^-1075, half the least subnormal. *)
Definition num_is_zero (n : jsnum) : bool :=
  (mant n =? 0)
  || match expo n with
     | Zneg p => (Z.of_N (mant n) * 2 ^ 1075 <=? 10 ^ Zpos p)%Z
     | _ => false
     end.

(** ToBoolean *)
Definition truthy (v : value) : bool :=
  match v with
  | VUndef | VNull => false
  | VBool b => b
  | VNum n => negb (num_is_zero n)
  | VStr s => match s with [] => false | _ => true end
  | VArr _ _ | VObj _ => true
  end.

(** [typeof v === "object"] *)
Definition typeof_object (v : value) : bool :=
  match v with
  | VNull | VArr _ _ | VObj _ => true
  | _ => false
  end.

Definition is_array (v : value) : bool :=
  match v with VArr _ _ => true | _ => false end.

Definition is_string (v : value) : bool :=
  match v with VStr _ => true | _ => false end.

(** Own named properties, in insertion order. *)
Fixpoint assoc_get (k : jsstring) (ps : list (jsstring * value)) : option value :=
  match ps with
  | [] => None
  | (k', v) :: ps' => if decide (k = k') then Some v else assoc_get k ps'
  end.

Fixpoint assoc_set (k : jsstring) (v : value) (ps : list (jsstring * value))
  : list (jsstring * value) :=
  match ps with
  | [] => [(k, v)]
  | (k', v') :: ps' =>
      if decide (k = k') then (k, v) :: ps' else (k', v') :: assoc_set k v ps'
  end.

(** What a [throw] carries.  The upstream client throws an error with a
    message.  The engine throws a [TypeError] when a property is created
    on a primitive in strict code (a module is strict code), when a value
    that is not a function is called, and when a property of [null] or
    [undefined] is read. *)
Inductive exn :=
| UpstreamError (message : value)
| CannotCreateProperty (key : jsstring) (target : value)
| NotAFunction (name : jsstring)
| CannotReadProperty (key : jsstring) (target : value).

Inductive result (A : Type) :=
| Ok (a : A)
| Throw (e : exn).
Arguments Ok {A} a.
Arguments Throw {A} e.

(** [target.k] and [target.k = x] for a name [k] that is not an array
    index, [length] or [__proto__]: on an array such a name is a named
    property next to the elements; a primitive has no such property and,
    in strict code, takes none. *)
Definition get_named (k : jsstring) (target : value) : result value :=
  match target with
  | VObj ps => Ok (default VUndef (assoc_get k ps))
  | VArr _ extra => Ok (default VUndef (assoc_get k extra))
  | VUndef | VNull => Throw (CannotReadProperty k target)
  | _ => Ok VUndef
  end.

Definition set_named (k : jsstring) (x : value) (target : value) : result value :=
  match target with
  | VObj ps => Ok (VObj (assoc_set k x ps))
  | VArr es extra => Ok (VArr es (assoc_set k x extra))
  | VUndef | VNull => Throw (CannotReadProperty k target)
  | _ => Throw (CannotCreateProperty k target)
  end.

End Js.
Export Js.

(** ** JSON.parse

    [JSON.parse] is a built-in of the engine.  It is modelled by a lexer,
    one step per code unit, that produces the tokens of the JSON grammar
    (ECMA-404), and a parser over the tokens.  [None] stands for the
    [SyntaxError] the built-in throws. *)

Module Json.

Inductive token :=
| TLBrace | TRBrace | TLBrack | TRBrack | TColon | TComma
| TStr (s : jsstring)
| TNum (n : jsnum)
| TTrue | TFalse | TNull.

(** Where the lexer stands inside a number: an optional minus sign, then
    a single zero or a digit run that starts with a non-zero digit, then an
    optional dot with at least one digit, then an optional exponent mark
    with an optional sign and at least one digit. *)
Inductive numpos :=
| NMinus | NZero | NInt | NDot | NFrac | NExp | NExpSign | NExpDigits.

Record numacc :=
  mkAcc { aneg : bool; amant : N; afrac : N; aeneg : bool; aexp : N }.

Definition acc_value (a : numacc) : jsnum :=
  mkNum (aneg a) (amant a)
        ((if aeneg a then - Z.of_N (aexp a) else Z.of_N (aexp a)) - Z.of_N (afrac a))%Z.

Inductive mode :=
| LStart                                  (* between two tokens *)
| LStr (acc : jsstring)                   (* in a string; units so far, reversed *)
| LEsc (acc : jsstring)                   (* after a backslash *)
| LHex (acc : jsstring) (todo : nat) (code : N)   (* in \uXXXX *)
| LNum (p : numpos) (a : numacc)
| LLit (rest : jsstring) (t : token).     (* in true, false or null *)

Definition is_json_space (c : N) : bool :=
  (c =? cSPACE) || (c =? cTAB) || (c =? cLF) || (c =? cCR).

Definition hex_digit (c : N) : option N :=
  if (48 <=? c) && (c <=? 57) then Some (c - 48)
  else if (65 <=? c) && (c <=? 70) then Some (c - 55)
  else if (97 <=? c) && (c <=? 102) then Some (c - 87)
  else None.

Definition step_start (c : N) : option (mode * list token) :=
  if is_json_space c then Some (LStart, [])
  else if c =? cLBRACE then Some (LStart, [TLBrace])
  else if c =? cRBRACE then Some (LStart, [TRBrace])
  else if c =? cLBRACK then Some (LStart, [TLBrack])
  else if c =? cRBRACK then Some (LStart, [TRBrack])
  else if c =? 58 then Some (LStart, [TColon])
  else if c =? cCOMMA then Some (LStart, [TComma])
  else if c =? cDQUOTE then Some (LStr [], [])
  else if c =? 45 then Some (LNum NMinus (mkAcc true 0 0 false 0), [])
  else if c =? 48 then Some (LNum NZero (mkAcc false 0 0 false 0), [])
  else if is_digit c then Some (LNum NInt (mkAcc false (c - 48) 0 false 0), [])
  else if c =? 116 then Some (LLit (u "rue") TTrue, [])
  else if c =? 102 then Some (LLit (u "alse") TFalse, [])
  else if c =? 110 then Some (LLit (u "ull") TNull, [])
  else None.

(** A number ends at the first unit that cannot continue it; that unit is
    then read as the start of what follows. *)
Definition end_number (a : numacc) (c : N) : option (mode * list token) :=
  match step_start c with
  | Some (m, out) => Some (m, TNum (acc_value a) :: out)
  | None => None
  end.

Definition is_e (c : N) : bool := (c =? 101) || (c =? 69).

Definition push_int (a : numacc) (c : N) : numacc :=
  mkAcc (aneg a) (amant a * 10 + (c - 48)) (afrac a) (aeneg a) (aexp a).
Definition push_frac (a : numacc) (c : N) : numacc :=
  mkAcc (aneg a) (amant a * 10 + (c - 48)) (afrac a + 1) (aeneg a) (aexp a).
Definition push_exp (a : numacc) (c : N) : numacc :=
  mkAcc (aneg a) (amant a) (afrac a) (aeneg a) (aexp a * 10 + (c - 48)).
Definition set_eneg (a : numacc) (b : bool) : numacc :=
  mkAcc (aneg a) (amant a) (afrac a) b (aexp a).

Definition step_number (p : numpos) (a : numacc) (c : N) : option (mode * list token) :=
  match p with
  | NMinus =>
      if c =? 48 then Some (LNum NZero a, [])
      else if is_digit c then Some (LNum NInt (push_int a c), [])
      else None
  | NZero =>
      if c =? cDOT then Some (LNum NDot a, [])
      else if is_e c then Some (LNum NExp a, [])
      else end_number a c
  | NInt =>
      if is_digit c then Some (LNum NInt (push_int a c), [])
      else if c =? cDOT then Some (LNum NDot a, [])
      else if is_e c then Some (LNum NExp a, [])
      else end_number a c
  | NDot =>
      if is_digit c then Some (LNum NFrac (push_frac a c), []) else None
  | NFrac =>
      if is_digit c then Some (LNum NFrac (push_frac a c), [])
      else if is_e c then Some (LNum NExp a, [])
      else end_number a c
  | NExp =>
      if c =? 43 then Some (LNum NExpSign a, [])
      else if c =? 45 then Some (LNum NExpSign (set_eneg a true), [])
      else if is_digit c then Some (LNum NExpDigits (push_exp a c), [])
      else None
  | NExpSign =>
      if is_digit c then Some (LNum NExpDigits (push_exp a c), []) else None
  | NExpDigits =>
      if is_digit c then Some (LNum NExpDigits (push_exp a c), [])
      else end_number a c
  end.

Definition step_escape (acc : jsstring) (c : N) : option (mode * list token) :=
  if (c =? cDQUOTE) || (c =? cBACKSLASH) || (c =? cSLASH) then Some (LStr (c :: acc), [])
  else if c =? 98 then Some (LStr (8 :: acc), [])
  else if c =? 102 then Some (LStr (12 :: acc), [])
  else if c =? 110 then Some (LStr (10 :: acc), [])
  else if c =? 114 then Some (LStr (13 :: acc), [])
  else if c =? 116 then Some (LStr (9 :: acc), [])
  else if c =? 117 then Some (LHex acc 4 0, [])
  else None.

Definition step (m : mode) (c : N) : option (mode * list token) :=
  match m with
  | LStart => step_start c
  | LStr acc =>
      if c =? cDQUOTE then Some (LStart, [TStr (rev acc)])
      else if c =? cBACKSLASH then Some (LEsc acc, [])
      else if c <? 32 then None
      else Some (LStr (c :: acc), [])
  | LEsc acc => step_escape acc c
  | LHex acc todo code =>
      match todo, hex_digit c with
      | S O, Some d => Some (LStr (code * 16 + d :: acc), [])
      | S k, Some d => Some (LHex acc k (code * 16 + d), [])
      | _, _ => None
      end
  | LNum p a => step_number p a c
  | LLit rest t =>
      match rest with
      | x :: [] => if c =? x then Some (LStart, [t]) else None
      | x :: rest' => if c =? x then Some (LLit rest' t, []) else None
      | [] => None
      end
  end.

Definition finish (m : mode) : option (list token) :=
  match m with
  | LStart => Some []
  | LNum (NZero | NInt | NFrac | NExpDigits) a => Some [TNum (acc_value a)]
  | _ => None
  end.

Fixpoint lex (m : mode) (s : jsstring) : option (list token) :=
  match s with
  | [] => finish m
  | c :: s' =>
      match step m c with
      | Some (m', out) =>
          match lex m' s' with
          | Some ts => Some (out ++ ts)
          | None => None
          end
      | None => None
      end
  end.

(** The grammar over tokens.  [fuel] bounds the number of calls; a call
    that succeeds needs no more fuel than the tokens it reads
    ([parse_fuel] below). *)
Fixpoint parse_value (fuel : nat) (ts : list token) : option (value * list token) :=
  match fuel with
  | O => None
  | S f =>
      match ts with
      | TNull :: r => Some (VNull, r)
      | TTrue :: r => Some (VBool true, r)
      | TFalse :: r => Some (VBool false, r)
      | TNum n :: r => Some (VNum n, r)
      | TStr s :: r => Some (VStr s, r)
      | TLBrack :: TRBrack :: r => Some (VArr [] [], r)
      | TLBrack :: r => parse_elements f r []
      | TLBrace :: TRBrace :: r => Some (VObj [], r)
      | TLBrace :: r => parse_members f r []
      | _ => None
      end
  end
with parse_elements (fuel : nat) (ts : list token) (acc : list value)
  : option (value * list token) :=
  match fuel with
  | O => None
  | S f =>
      match parse_value f ts with
      | Some (v, TComma :: r) => parse_elements f r (v :: acc)
      | Some (v, TRBrack :: r) => Some (VArr (rev (v :: acc)) [], r)
      | _ => None
      end
  end
with parse_members (fuel : nat) (ts : list token) (acc : list (jsstring * value))
  : option (value * list token) :=
  match fuel with
  | O => None
  | S f =>
      match ts with
      | TStr k :: TColon :: r =>
          match parse_value f r with
          | Some (v, TComma :: r') => parse_members f r' (assoc_set k v acc)
          | Some (v, TRBrace :: r') => Some (VObj (assoc_set k v acc), r')
          | _ => None
          end
      | _ => None
      end
  end.

Definition parse_tokens (ts : list token) : option value :=
  match parse_value (S (length ts)) ts with
  | Some (v, []) => Some v
  | _ => None
  end.

(** [JSON.parse(text)] for a string [text]. *)
Definition JSON_parse (text : jsstring) : option value :=
  match lex LStart text with
  | Some ts => parse_tokens ts
  | None => None
  end.

End Json.
Export Json.

(** ** The regular expressions of [safeParseJSON] *)

Module Repair.

(** The longest prefix of [s] that ends with the unit [c]. *)
Fixpoint through_last (c : N) (s : jsstring) : option jsstring :=
  match s with
  | [] => None
  | x :: s' =>
      match through_last c s' with
      | Some r => Some (x :: r)
      | None => if x =? c then Some [x] else None
      end
  end.

(** [text.match] with an opening brace, any units, a closing brace: the
    leftmost match starts at the first opening brace that has a closing
    brace after it, and the greedy star carries it to the last closing
    brace of the text. *)
Fixpoint match_span (text : jsstring) : option jsstring :=
  match text with
  | [] => None
  | c :: s' =>
      if c =? cLBRACE then
        match through_last cRBRACE s' with
        | Some r => Some (c :: r)
        | None => None
        end
      else match_span s'
  end.

(** First [replace]: every CR LF pair, LF or CR becomes one space. *)
Fixpoint collapse_breaks (s : jsstring) : jsstring :=
  match s with
  | [] => []
  | c :: s' =>
      if c =? cCR then
        cSPACE :: match s' with
                  | d :: s'' => if d =? cLF then collapse_breaks s'' else collapse_breaks s'
                  | [] => []
                  end
      else if c =? cLF then cSPACE :: collapse_breaks s'
      else c :: collapse_breaks s'
  end.

(** Second [replace]: every single quote becomes a double quote. *)
Definition double_quotes (s : jsstring) : jsstring :=
  map (fun c => if c =? cSQUOTE then cDQUOTE else c) s.

(** Does white space followed by [closer] match at the head of [s]?  If
    so, the number of units of the white space. *)
Fixpoint space_then (closer : N) (s : jsstring) : option nat :=
  match s with
  | [] => None
  | c :: s' =>
      if c =? closer then Some O
      else if is_space c then
        match space_then closer s' with Some n => Some (S n) | None => None end
      else None
  end.

(** Third and fourth [replace]: a comma, white space and [closer] become
    [closer].  Where a match starts, the replacement is written and the
    remaining units of the match are skipped; the search resumes after
    the match. *)
Fixpoint drop_commas (closer : N) (skip : nat) (s : jsstring) : jsstring :=
  match s with
  | [] => []
  | c :: s' =>
      match skip with
      | S k => drop_commas closer k s'
      | O =>
          if c =? cCOMMA then
            match space_then closer s' with
            | Some n => closer :: drop_commas closer (S n) s'
            | None => c :: drop_commas closer O s'
            end
          else c :: drop_commas closer O s'
      end
  end.

(** The four replacements, in the order of the source. *)
Definition cleaned (span : jsstring) : jsstring :=
  drop_commas cRBRACK O
    (drop_commas cRBRACE O
       (double_quotes
          (collapse_breaks span))).

End Repair.
Export Repair.

(** ** The server *)

Module Server.

Inductive logline :=
| StillInvalidAfterCleanup      (* console.error in safeParseJSON *)
| AnalysisFailed (e : exn).     (* console.error in the catch block *)

(** The state the route acts on: the files of the [uploads/] directory,
    the calls of [fs.unlink] so far, and the console. *)
Record world := mkWorld {
  scratch : gset jsstring;
  unlinked : list jsstring;
  console : list logline
}.

Definition M (A : Type) : Type := world -> result A * world.

Definition ret {A} (a : A) : M A := fun w => (Ok a, w).
Definition throw {A} (e : exn) : M A := fun w => (Throw e, w).
Definition bind {A B} (m : M A) (k : A -> M B) : M B :=
  fun w => match m w with
           | (Ok a, w') => k a w'
           | (Throw e, w') => (Throw e, w')
           end.
Definition try_catch {A} (body : M A) (handler : exn -> M A) : M A :=
  fun w => match body w with
           | (Ok a, w') => (Ok a, w')
           | (Throw e, w') => handler e w'
           end.
Definition lift {A} (r : result A) : M A := fun w => (r, w).

Notation "'let*' x ':=' m 'in' k" := (bind m (fun x => k))
  (at level 10, x name, m at level 100, k at level 200).
Notation "m ';;' k" := (bind m (fun _ => k))
  (at level 100, k at level 200, right associativity).

Definition logged (w : world) (l : logline) : world :=
  mkWorld (scratch w) (unlinked w) (console w ++ [l]).

Definition console_error (l : logline) : M unit :=
  fun w => (Ok tt, logged w l).

(** The world after [fs.unlink(path, ...)]. *)
Definition released (w : world) (path : jsstring) : world :=
  mkWorld (scratch w ∖ {[path]}) (unlinked w ++ [path]) (console w).

(** [fs.unlink(path, () => {})]: the file is removed if it is there; the
    callback drops the error of a failed removal. *)
Definition fs_unlink (path : jsstring) : M unit :=
  fun w => (Ok tt, released w path).

Definition fs_write (path : jsstring) : M unit :=
  fun w => (Ok tt, mkWorld ({[path]} ∪ scratch w) (unlinked w) (console w)).

(** *** safeParseJSON *)

(** A double is infinite when the decimal is at least 2^1024 - 2^970. *)
Definition num_is_infinite (n : jsnum) : bool :=
  match expo n with
  | Zneg p => (((2 ^ 1024 - 2 ^ 970) * 10 ^ Zpos p) <=? Z.of_N (mant n))%Z
  | e => (2 ^ 1024 - 2 ^ 970 <=? Z.of_N (mant n) * 10 ^ e)%Z
  end.

(** [JSON.parse(text)] applies ToString to [text] first.  A text that is
    not a string reaches it only as [true] or as a non-zero number, whose
    strings parse back to the same value, except for an infinite number. *)
Definition JSON_parse_any (text : value) : option value :=
  match text with
  | VStr s => JSON_parse s
  | VBool true => Some (VBool true)
  | VNum n => if num_is_infinite n then None else Some (VNum n)
  | _ => None
  end.

Definition safeParseJSON (text : value) : M value :=
  if negb (truthy text) then ret VNull
  else if typeof_object text then ret text
  else
    match JSON_parse_any text with
    | Some v => ret v
    | None =>
        match text with
        | VStr s =>
            match match_span s with
            | Some span =>
                match JSON_parse (cleaned span) with
                | Some v => ret v
                | None => console_error StillInvalidAfterCleanup ;; ret VNull
                end
            | None => ret VNull
            end
        | _ => throw (NotAFunction (u "text.match"))
        end
    end.

(** *** The disk storage of multer *)

(** [path.extname] of Node (posix): a scan from the last unit to the
    first. *)
Record ext_state := mkExt {
  startDot : Z;
  startPart : Z;
  end_ : Z;
  matchedSlash : bool;
  preDotState : Z
}.

(** One turn of the loop at index [i]; [None] is the [break]. *)
Definition ext_step (st : ext_state) (i : Z) (code : N) : option ext_state :=
  if code =? cSLASH then
    if negb (matchedSlash st) then None
    else Some st
  else
    let st1 :=
      if (end_ st =? -1)%Z
      then mkExt (startDot st) (startPart st) (i + 1) false (preDotState st)
      else st in
    if code =? cDOT then
      if (startDot st1 =? -1)%Z
      then Some (mkExt i (startPart st1) (end_ st1) (matchedSlash st1) (preDotState st1))
      else if negb (preDotState st1 =? 1)%Z
      then Some (mkExt (startDot st1) (startPart st1) (end_ st1) (matchedSlash st1) 1)
      else Some st1
    else if negb (startDot st1 =? -1)%Z
    then Some (mkExt (startDot st1) (startPart st1) (end_ st1) (matchedSlash st1) (-1))
    else Some st1.

(** [backwards] holds the units at the indices [i], [i - 1], ..., [0]. *)
Fixpoint ext_scan (backwards : jsstring) (i : Z) (st : ext_state) : ext_state :=
  match backwards with
  | [] => st
  | code :: rest =>
      match ext_step st i code with
      | Some st' => ext_scan rest (i - 1) st'
      | None => mkExt (startDot st) (i + 1) (end_ st) (matchedSlash st) (preDotState st)
      end
  end.

Definition slice (s : jsstring) (from to : Z) : jsstring :=
  firstn (Z.to_nat (to - from)) (skipn (Z.to_nat from) s).

Definition extname (path : jsstring) : jsstring :=
  let st := ext_scan (rev path) (Z.of_nat (length path) - 1) (mkExt (-1) 0 (-1) true 0) in
  if (startDot st =? -1)%Z || (end_ st =? -1)%Z || (preDotState st =? 0)%Z
     || ((preDotState st =? 1)%Z && (startDot st =? end_ st - 1)%Z
         && (startDot st =? startPart st + 1)%Z)
  then []
  else slice path (startDot st) (end_ st).

(** [path.extname(file.originalname) || ".pdf"] *)
Definition upload_ext (originalname : jsstring) : jsstring :=
  match extname originalname with
  | [] => u ".pdf"
  | e => e
  end.

(** The [filename] callback: [Date.now() + ext]. *)
Definition filename (now : N) (originalname : jsstring) : jsstring :=
  let ext := upload_ext originalname in
  decimal now ++ ext.

(** [upload.single]: the file of the request, if any, is written under
    [uploads/] with the name [filename] gives, and [req.file.path] is that
    path.  [now] is the reading of the clock. *)
Definition upload_single (now : N) (attached : option jsstring) : M (option jsstring) :=
  match attached with
  | None => ret None
  | Some originalname =>
      let path := u "uploads/" ++ filename now originalname in
      fs_write path ;; ret (Some path)
  end.

(** *** The route [POST /api/analyze] *)

(** The response of [openai.responses.create], as far as the route reads
    it. *)
Record api_response := mkApi { output_parsed : value; output_text : value }.

(** What the two awaited calls of the upstream client do in one request:
    each returns or throws. *)
Record upstream := mkUp {
  files_create : result jsstring;
  responses_create : result api_response
}.

Inductive message :=
| Literal (s : jsstring)
| MessageOf (e : exn).          (* err.message *)

Inductive body :=
| Report (report : value)       (* { report: parsed } *)
| Error (m : message).          (* { error: ... } *)

Record http_response := mkResponse { status : N; json : body }.

(** [if (!Array.isArray(parsed.k)) parsed.k = []] *)
Definition coerce_array (k : jsstring) (parsed : value) : M value :=
  let* field := lift (get_named k parsed) in
  if negb (is_array field) then lift (set_named k (VArr [] []) parsed)
  else ret parsed.

(** The two awaited calls at the head of the [try] block. *)
Definition upstream_calls (up : upstream) : M api_response :=
  let* file := lift (files_create up) in
  lift (responses_create up).

(** The rest of the [try] block, after the temporary file is unlinked. *)
Definition respond (response : api_response) : M http_response :=
  let* parsed :=
    (if truthy (output_parsed response) then ret (output_parsed response)
     else safeParseJSON (output_text response)) in
  if truthy parsed then
    let* parsed := coerce_array (u "abnormal_findings") parsed in
    let* parsed := coerce_array (u "categorized_analysis") parsed in
    ret (mkResponse 200 (Report parsed))
  else
    ret (mkResponse 500 (Error (Literal (u "AI returned invalid JSON")))).

Definition analyze (up : upstream) (file : option jsstring) : M http_response :=
  match file with
  | None => ret (mkResponse 400 (Error (Literal (u "No file uploaded"))))
  | Some filePath =>
      try_catch
        (let* response := upstream_calls up in
         fs_unlink filePath ;;
         respond response)
        (fun err =>
           fs_unlink filePath ;;
           console_error (AnalysisFailed err) ;;
           ret (mkResponse 500 (Error (MessageOf err))))
  end.

(** The middleware, then the handler. *)
Definition route (now : N) (up : upstream) (attached : option jsstring)
  : M http_response :=
  let* file := upload_single now attached in
  analyze up file.

Definition empty_world : world := mkWorld ∅ [] [].

End Server.
Export Server.


(** ** The client: the category loop of [ReportPreview] *)

Module Renderer.

Definition is_ascii (c : N) : bool := c <? 128.

Definition ascii_lower (c : N) : N :=
  if (65 <=? c) && (c <=? 90) then c + 32 else c.

Section LowerCase.

(** [String.prototype.toLowerCase] on a string with a unit outside
    ASCII follows the Unicode case tables, which are not spelled out
    here. *)
Variable unicode_lower : jsstring -> jsstring.

Definition toLowerCase (s : jsstring) : jsstring :=
  if forallb is_ascii s then map ascii_lower s else unicode_lower s.

(** The object [normalizedCategories]: its own properties and its
    prototype.  It starts as the empty object literal, whose prototype
    is [Object.prototype]. *)
Inductive prototype :=
| ObjectPrototype
| NullPrototype
| ValuePrototype (v : value).

Record categories := mkCats { own : gmap jsstring value; proto : prototype }.

Definition no_categories : categories := mkCats ∅ ObjectPrototype.

Definition has_own_named (k : jsstring) (v : value) : bool :=
  match v with
  | VObj ps => bool_decide (is_Some (assoc_get k ps))
  | VArr _ extra => bool_decide (is_Some (assoc_get k extra))
  | _ => false
  end.

(** Is the [__proto__] accessor of [Object.prototype] the first
    [__proto__] on the prototype chain? *)
Definition reaches_proto_accessor (p : prototype) : bool :=
  match p with
  | ObjectPrototype => true
  | NullPrototype => false
  | ValuePrototype v => negb (has_own_named (u "__proto__") v)
  end.

(** [normalizedCategories[key] = x].  An own property is overwritten.
    Otherwise the name [__proto__] reaches the accessor, which replaces
    the prototype when [x] is an object or [null] and does nothing for
    another [x]; every other name becomes an own property. *)
Definition cats_set (key : jsstring) (x : value) (c : categories) : categories :=
  if bool_decide (is_Some (own c !! key)) then mkCats (<[key := x]> (own c)) (proto c)
  else if bool_decide (key = u "__proto__") && reaches_proto_accessor (proto c) then
    match x with
    | VObj _ | VArr _ _ => mkCats (own c) (ValuePrototype x)
    | VNull => mkCats (own c) NullPrototype
    | _ => c
    end
  else mkCats (<[key := x]> (own c)) (proto c).

(** [normalizedCategories[key]] for a key of the render loop: no such
    key is an array index, [length] or the name of a member of a
    built-in prototype. *)
Definition cats_get (key : jsstring) (c : categories) : value :=
  match own c !! key with
  | Some v => v
  | None =>
      match proto c with
      | ValuePrototype (VObj ps) => default VUndef (assoc_get key ps)
      | ValuePrototype (VArr _ extra) => default VUndef (assoc_get key extra)
      | _ => VUndef
      end
  end.

(** The callback of [forEach]. *)
Definition add_category (c : value) (cats : categories) : result categories :=
  match get_named (u "category") c with
  | Throw e => Throw e
  | Ok category =>
      if negb (truthy category) then Ok cats
      else
        match category with
        | VStr s =>
            let key := toLowerCase (trim s) in
            match get_named (u "summary") c with
            | Ok summary => Ok (cats_set key summary cats)
            | Throw e => Throw e
            end
        | _ => Throw (NotAFunction (u "c.category.trim"))
        end
  end.

Fixpoint add_categories (entries : list value) (cats : categories) : result categories :=
  match entries with
  | [] => Ok cats
  | c :: rest =>
      match add_category c cats with
      | Ok cats' => add_categories rest cats'
      | Throw e => Throw e
      end
  end.

(** [(content.categorized_analysis || []).forEach(...)] *)
Definition normalizedCategories (content : value) : result categories :=
  match get_named (u "categorized_analysis") content with
  | Throw e => Throw e
  | Ok field =>
      if negb (truthy field) then Ok no_categories
      else
        match field with
        | VArr entries _ => add_categories entries no_categories
        | _ => Throw (NotAFunction (u "forEach"))
        end
  end.

Definition categoryOrder : list jsstring :=
  [ u "Haematology";
    u "Iron Status";
    u "Renal Function & Metabolic";
    u "Liver Function";
    u "Lipids & Cardiovascular Risk";
    u "Inflammatory Marker & CVD Risk";
    u "Diabetes & Pancreatic";
    u "Infectious Disease Serology";
    u "Thyroid Function";
    u "Tumour Markers";
    u "Immunoserology";
    u "Urinalysis";
    u "Other" ].

(** One turn of [categoryOrder.map]: [null], or the section with the
    heading [cat] and the paragraph [normalizedCategories[key]]. *)
Definition category_section (cats : categories) (cat : jsstring)
  : option (jsstring * value) :=
  let key := toLowerCase cat in
  if negb (truthy (cats_get key cats)) then None
  else Some (cat, cats_get key cats).

(** The sections under the heading Lab Category Summaries, in the order
    they are rendered. *)
Definition category_sections (content : value) : result (list (jsstring * value)) :=
  match normalizedCategories content with
  | Ok cats => Ok (omap (category_section cats) categoryOrder)
  | Throw e => Throw e
  end.

(** [ReportPreview]: nothing for a missing report; else the document,
    of which the category sections are kept. *)
Definition ReportPreview (content : value) : result (option (list (jsstring * value))) :=
  if negb (truthy content) then Ok None
  else match category_sections content with
       | Ok secs => Ok (Some secs)
       | Throw e => Throw e
       end.

End LowerCase.

End Renderer.
Export Renderer.

(** ** The other routes of the server files *)

Module Variants.

Section ArrayString.

(** [String(array)] of an array that has the [toString] and the [join] of
    [Array.prototype]: the elements joined with commas, or nothing when the
    conversion of an element throws.  It is not spelled out here. *)
Variable array_string : list value -> option jsstring.

(** [JSON.parse(text)] in the [safeParseJSON] that has no test for an
    object: ToString is applied to an array or an object too, inside the
    [try].  The string of an object is not JSON, or its conversion throws;
    so it is for an array with a property named [toString] or [join] of its
    own, which no value of a response can call. *)
Definition JSON_parse_coerced (text : value) : option value :=
  match text with
  | VArr es xs =>
      match assoc_get (u "toString") xs, assoc_get (u "join") xs with
      | None, None =>
          match array_string es with
          | Some s => JSON_parse s
          | None => None
          end
      | _, _ => None
      end
  | VObj _ => None
  | _ => JSON_parse_any text
  end.

(** [safeParseJSON] of the routes that read [output_text] only. *)
Definition safeParseJSON_text (text : value) : M value :=
  if negb (truthy text) then ret VNull
  else
    match JSON_parse_coerced text with
    | Some v => ret v
    | None =>
        match text with
        | VStr s =>
            match match_span s with
            | Some span =>
                match JSON_parse (cleaned span) with
                | Some v => ret v
                | None => console_error StillInvalidAfterCleanup ;; ret VNull
                end
            | None => ret VNull
            end
        | _ => throw (NotAFunction (u "text.match"))
        end
    end.

(** The [catch] block, the same in every route. *)
Definition on_error (filePath : jsstring) (err : exn) : M http_response :=
  fs_unlink filePath ;;
  console_error (AnalysisFailed err) ;;
  ret (mkResponse 500 (Error (MessageOf err))).

(** The route that normalizes [output_text] and fills in both arrays. *)
Definition respond_text (response : api_response) : M http_response :=
  let* parsed := safeParseJSON_text (output_text response) in
  if truthy parsed then
    let* parsed := coerce_array (u "abnormal_findings") parsed in
    let* parsed := coerce_array (u "categorized_analysis") parsed in
    ret (mkResponse 200 (Report parsed))
  else
    ret (mkResponse 500 (Error (Literal (u "AI returned invalid JSON")))).

Definition analyze_text (up : upstream) (file : option jsstring) : M http_response :=
  match file with
  | None => ret (mkResponse 400 (Error (Literal (u "No file uploaded"))))
  | Some filePath =>
      try_catch
        (let* response := upstream_calls up in
         fs_unlink filePath ;;
         respond_text response)
        (on_error filePath)
  end.



End ArrayString.

(** The route that takes the structured output only. *)
Definition respond_structured (response : api_response) : M http_response :=
  if truthy (output_parsed response)
  then ret (mkResponse 200 (Report (output_parsed response)))
  else ret (mkResponse 500 (Error (Literal (u "AI returned no structured JSON")))).

Definition analyze_structured (up : upstream) (file : option jsstring)
  : M http_response :=
  match file with
  | None => ret (mkResponse 400 (Error (Literal (u "No file uploaded"))))
  | Some filePath =>
      try_catch
        (let* response := upstream_calls up in
         fs_unlink filePath ;;
         respond_structured response)
        (on_error filePath)
  end.

End Variants.
Export Variants.

(** ** The route that extracts the object without repair *)

Module Extract.

Inductive logline :=
| JSONParseFailed               (* console.error in extractJSON *)
| AnalysisFailed (e : exn).     (* console.error in the catch block *)

Record world := mkWorld {
  scratch : gset jsstring;
  unlinked : list jsstring;
  console : list logline
}.

Definition M (A : Type) : Type := world -> result A * world.

Definition ret {A} (a : A) : M A := fun w => (Ok a, w).
Definition throw {A} (e : exn) : M A := fun w => (Throw e, w).
Definition bind {A B} (m : M A) (k : A -> M B) : M B :=
  fun w => match m w with
           | (Ok a, w') => k a w'
           | (Throw e, w') => (Throw e, w')
           end.
Definition try_catch {A} (body : M A) (handler : exn -> M A) : M A :=
  fun w => match body w with
           | (Ok a, w') => (Ok a, w')
           | (Throw e, w') => handler e w'
           end.
Definition lift {A} (r : result A) : M A := fun w => (r, w).

Notation "'let+' x ':=' m 'in' k" := (bind m (fun x => k))
  (at level 10, x name, m at level 100, k at level 200).
Notation "m ';+' k" := (bind m (fun _ => k))
  (at level 100, k at level 200, right associativity).

Definition console_error (l : logline) : M unit :=
  fun w => (Ok tt, mkWorld (scratch w) (unlinked w) (console w ++ [l])).

Definition fs_unlink (path : jsstring) : M unit :=
  fun w => (Ok tt, mkWorld (scratch w ∖ {[path]}) (unlinked w ++ [path]) (console w)).

(** [extractJSON]: the span between the first opening brace and the last
    closing brace is parsed as it is. *)
Definition extractJSON (text : value) : M value :=
  match text with
  | VStr s =>
      match match_span s with
      | Some span =>
          match JSON_parse span with
          | Some v => ret v
          | None => console_error JSONParseFailed ;+ ret VNull
          end
      | None => ret VNull
      end
  | VUndef | VNull => throw (CannotReadProperty (u "match") text)
  | _ => throw (NotAFunction (u "text.match"))
  end.

(** The response, as far as this route reads it. *)
Record api_response := mkApi { output_text : value; choices : value }.

Record upstream := mkUp {
  files_create : result jsstring;
  responses_create : result api_response
}.

(** [x?.[0]] *)
Definition first_of (x : value) : value :=
  match x with
  | VArr es _ => default VUndef (head es)
  | VStr s => match s with c :: _ => VStr [c] | [] => VUndef end
  | VObj ps => default VUndef (assoc_get (u "0") ps)
  | _ => VUndef
  end.

(** [x?.k] for a name [k] as in [get_named] *)
Definition get_optional (k : jsstring) (x : value) : value :=
  match get_named k x with
  | Ok v => v
  | Throw _ => VUndef
  end.

Definition or_else (a b : value) : value := if truthy a then a else b.

(** [response.output_text || response?.choices?.[0]?.message?.content || ""] *)
Definition response_text (response : api_response) : value :=
  or_else
    (or_else (output_text response)
       (get_optional (u "content")
          (get_optional (u "message") (first_of (choices response)))))
    (VStr []).

(** [txt.trim()] *)
Definition trimmed (txt : value) : result value :=
  match txt with
  | VStr s => Ok (VStr (trim s))
  | VUndef | VNull => Throw (CannotReadProperty (u "trim") txt)
  | _ => Throw (NotAFunction (u "txt.trim"))
  end.

Definition coerce_array (k : jsstring) (parsed : value) : M value :=
  let+ field := lift (get_named k parsed) in
  if negb (is_array field) then lift (set_named k (VArr [] []) parsed)
  else ret parsed.

Definition respond (txt : value) : M http_response :=
  let+ nonblank := (if truthy txt then lift (trimmed txt) else ret txt) in
  if truthy nonblank then
    let+ parsed := extractJSON txt in
    if negb (truthy parsed) then
      ret (mkResponse 500 (Error (Literal (u "AI returned invalid JSON."))))
    else
      let+ parsed := coerce_array (u "abnormal_findings") parsed in
      ret (mkResponse 200 (Report parsed))
  else
    ret (mkResponse 500 (Error (Literal (u "AI returned empty report")))).

Definition analyze (up : upstream) (file : option jsstring) : M http_response :=
  match file with
  | None => ret (mkResponse 400 (Error (Literal (u "No file uploaded"))))
  | Some filePath =>
      try_catch
        (let+ created := lift (files_create up) in
         let+ response := lift (responses_create up) in
         let txt := response_text response in
         fs_unlink filePath ;+
         respond txt)
        (fun err =>
           fs_unlink filePath ;+
           console_error (AnalysisFailed err) ;+
           ret (mkResponse 500 (Error (MessageOf err))))
  end.

End Extract.

(** ** The client: the [Uploader] component *)

Module Client.

(** What the state [error] holds: a value (a string in the cases the
    component writes itself), the string of a value given to [new Error],
    or the message of an error of the engine. *)
Inductive error_state :=
| ErrorValue (v : value)
| StringOf (v : value)            (* String(v) *)
| MessageOfExn (e : exn)
| MessageOfSyntaxError.           (* res.json() on a body that is not JSON *)

(** The state of the component; [file] is the name of the chosen file,
    [log] the texts written by [console.log]. *)
Record ui := mkUi {
  file : option jsstring;
  loading : bool;
  report : value;
  error : error_state;
  log : list jsstring
}.

Definition initial : ui := mkUi None false VNull (ErrorValue (VStr [])) [].

(** [onFileChange]: [files] is [e.target.files]. *)
Definition onFileChange (files : list jsstring) (st : ui) : ui :=
  mkUi (head files) (loading st) VNull (ErrorValue (VStr [])) (log st).

(** What [fetch] and the reading of the body do: the promise rejects with an
    error that has a message, or there is a response with its [ok] flag and
    its body. *)
Inductive fetched :=
| Rejected (message : value)
| Responded (ok : bool) (text : jsstring).

(** The state while the request is awaited: after [setLoading(true)] and
    [setError("")]. *)
Definition pending (st : ui) : ui :=
  mkUi (file st) true (report st) (ErrorValue (VStr [])) (log st).

(** [new Error(x).message] for a truthy [x] *)
Definition error_message (x : value) : error_state :=
  match x with
  | VStr s => ErrorValue (VStr s)
  | _ => StringOf x
  end.

(** The rest of the [try] block once the body is parsed. *)
Definition settle (ok : bool) (json : value) (st : ui) : ui :=
  if negb ok then
    match get_named (u "error") json with
    | Throw e => mkUi (file st) (loading st) (report st) (MessageOfExn e) (log st)
    | Ok x =>
        let shown := if truthy x then x else VStr (u "Failed to analyze") in
        mkUi (file st) (loading st) (report st) (error_message shown) (log st)
    end
  else
    match get_named (u "report") json with
    | Throw e => mkUi (file st) (loading st) (report st) (MessageOfExn e) (log st)
    | Ok r => mkUi (file st) (loading st) r (error st) (log st)
    end.

Definition finally_done (st : ui) : ui :=
  mkUi (file st) false (report st) (error st) (log st).

(** [analyze] of the component that reads the body as text: the state when
    the function has ended. *)
Definition analyze (net : fetched) (st : ui) : ui :=
  match file st with
  | None =>
      mkUi (file st) (loading st) (report st)
           (ErrorValue (VStr (u "Please choose a PDF first."))) (log st)
  | Some _ =>
      let st1 := pending st in
      finally_done
        match net with
        | Rejected m =>
            mkUi (file st1) (loading st1) (report st1) (ErrorValue m) (log st1)
        | Responded ok text =>
            let st2 := mkUi (file st1) (loading st1) (report st1) (error st1)
                            (log st1 ++ [text]) in
            match JSON_parse text with
            | None =>
                mkUi (file st2) (loading st2) (report st2)
                     (ErrorValue (VStr (u "Backend did not return valid JSON")))
                     (log st2)
            | Some json => settle ok json st2
            end
        end
  end.

(** [analyze] of the component that reads the body with [res.json()]. *)
Definition analyze_json (net : fetched) (st : ui) : ui :=
  match file st with
  | None =>
      mkUi (file st) (loading st) (report st)
           (ErrorValue (VStr (u "Please choose a PDF first."))) (log st)
  | Some _ =>
      let st1 := pending st in
      finally_done
        match net with
        | Rejected m =>
            mkUi (file st1) (loading st1) (report st1) (ErrorValue m) (log st1)
        | Responded ok text =>
            match JSON_parse text with
            | None =>
                mkUi (file st1) (loading st1) (report st1) MessageOfSyntaxError (log st1)
            | Some json => settle ok json st1
            end
        end
  end.

(** [{report && <ReportPreview content={report} />}]: the category
    sections shown, if the preview is rendered at all. *)
Definition shown_sections (unicode_lower : jsstring -> jsstring) (st : ui)
  : result (option (list (jsstring * value))) :=
  if truthy (report st) then ReportPreview unicode_lower (report st)
  else Ok None.

End Client.

(** ** The uploader, event by event *)

(** The file input stays enabled while a request is awaited; only the
    Analyze button is disabled.  So a file can be chosen between the click
    and the arrival of the response. *)
Module Session.

(** What the arrival of the response does to the state there is then: the
    rest of the [try] block after the [await], the [catch] block and the
    [finally] block. *)
Definition arrive (net : Client.fetched) (st : Client.ui) : Client.ui :=
  Client.finally_done
    match net with
    | Client.Rejected m =>
        Client.mkUi (Client.file st) (Client.loading st) (Client.report st)
                    (Client.ErrorValue m) (Client.log st)
    | Client.Responded ok text =>
        let st2 := Client.mkUi (Client.file st) (Client.loading st) (Client.report st)
                               (Client.error st) (Client.log st ++ [text]) in
        match JSON_parse text with
        | None =>
            Client.mkUi (Client.file st2) (Client.loading st2) (Client.report st2)
                        (Client.ErrorValue (VStr (u "Backend did not return valid JSON")))
                        (Client.log st2)
        | Some json => Client.settle ok json st2
        end
    end.

Inductive event :=
| Choose (files : list jsstring)     (* onChange of the file input *)
| Click                              (* the Analyze button *)
| Arrive (net : Client.fetched).     (* the awaited response *)

(** The state of the component, and whether a request is awaited. *)
Record session := mkSession { view : Client.ui; in_flight : bool }.

Definition start : session := mkSession Client.initial false.

Definition step (s : session) (e : event) : session :=
  match e with
  | Choose files => mkSession (Client.onFileChange files (view s)) (in_flight s)
  | Click =>
      if Client.loading (view s) then s              (* the button is disabled *)
      else
        match Client.file (view s) with
        | None =>
            mkSession
              (Client.mkUi (Client.file (view s)) (Client.loading (view s))
                           (Client.report (view s))
                           (Client.ErrorValue (VStr (u "Please choose a PDF first.")))
                           (Client.log (view s)))
              (in_flight s)
        | Some _ => mkSession (Client.pending (view s)) true
        end
  | Arrive net =>
      if in_flight s then mkSession (arrive net (view s)) false else s
  end.

Definition run (events : list event) (s : session) : session :=
  fold_left step events s.

End Session.

(** ** Vocabulary of the statements *)

Module Shape.

(** The code units of a text written with a backquote for each double
    quote. *)
Definition j (s : string) : jsstring :=
  map (fun c => if c =? 96 then cDQUOTE else c) (u s).

(** A text that starts with an opening brace and ends with a closing
    brace. *)
Definition object_text (P : jsstring) : bool :=
  match P with
  | c :: rest => (c =? cLBRACE) && bool_decide (last rest = Some cRBRACE)
  | [] => false
  end.

(** Does a comma, white space and [closer] occur in [s]? *)
Fixpoint has_comma_before (closer : N) (s : jsstring) : bool :=
  match s with
  | [] => false
  | c :: s' =>
      (c =? cCOMMA) && bool_decide (is_Some (space_then closer s'))
      || has_comma_before closer s'
  end.

Definition has_unit (c : N) (s : jsstring) : bool := existsb (N.eqb c) s.

(** A text with every double quote written as a single quote. *)
Definition single_quotes (s : jsstring) : jsstring :=
  map (fun c => if c =? cDQUOTE then cSQUOTE else c) s.

(** [trailing_commas ins E T]: the text [T] is the text [E] with a comma
    and white space written before some of its closing braces and
    brackets, those [ins] allows. *)
Inductive trailing_commas (ins : N -> bool) : jsstring -> jsstring -> Prop :=
| tc_nil : trailing_commas ins [] []
| tc_keep c E T :
    trailing_commas ins E T -> trailing_commas ins (c :: E) (c :: T)
| tc_insert closer ws E T :
    closer = cRBRACE \/ closer = cRBRACK ->
    ins closer = true ->
    forallb is_space ws = true ->
    trailing_commas ins E T ->
    trailing_commas ins (closer :: E) (cCOMMA :: ws ++ closer :: T).

Definition brace_or_bracket (c : N) : bool := (c =? cRBRACE) || (c =? cRBRACK).

(** The modes of the lexer outside a string. *)
Definition mode_plain (m : mode) : bool :=
  match m with
  | LStart | LNum _ _ => true
  | LLit rest _ => forallb (fun c => (97 <=? c) && (c <=? 122)) rest
  | _ => false
  end.

(** The modes the lexer can be in: inside a literal name, only small
    letters remain to be read. *)
Definition mode_ok (m : mode) : bool :=
  match m with
  | LLit rest _ => forallb (fun c => (97 <=? c) && (c <=? 122)) rest
  | _ => true
  end.

End Shape.
Export Shape.

(** ** Vocabulary of the statements about the renderer *)

Module ReportShape.

Section LowerCase.

Variable unicode_lower : jsstring -> jsstring.

(** An entry of [categorized_analysis] as the report schema has it: an
    object whose [category] and [summary], when present, are strings. *)
Definition entry_shaped (e : value) : bool :=
  match e with
  | VObj ps =>
      match assoc_get (u "category") ps with
      | None | Some (VStr _) => true
      | _ => false
      end
      && match assoc_get (u "summary") ps with
         | None | Some (VStr _) => true
         | _ => false
         end
  | _ => false
  end.

(** The key an entry is filed under: its category, trimmed and in lower
    case; none for an entry without category or with an empty one. *)
Definition entry_key (e : value) : option jsstring :=
  match e with
  | VObj ps =>
      match assoc_get (u "category") ps with
      | Some (VStr (c :: s)) => Some (toLowerCase unicode_lower (trim (c :: s)))
      | _ => None
      end
  | _ => None
  end.

Definition entry_summary (e : value) : value :=
  match e with
  | VObj ps => default VUndef (assoc_get (u "summary") ps)
  | _ => VUndef
  end.

(** The summary of the last entry filed under [key]. *)
Fixpoint last_summary (key : jsstring) (entries : list value) : option value :=
  match entries with
  | [] => None
  | e :: rest =>
      match last_summary key rest with
      | Some v => Some v
      | None =>
          if bool_decide (entry_key e = Some key) then Some (entry_summary e)
          else None
      end
  end.

(** A report whose [categorized_analysis] is the array [entries]. *)
Definition report_with (entries : list value) (others : list (jsstring * value)) : value :=
  VObj (assoc_set (u "categorized_analysis") (VArr entries []) others).

End LowerCase.

End ReportShape.
Export ReportShape.

(** ** From the server to the client *)

Module Wire.

(** What [JSON.stringify] writes for a value and [JSON.parse] reads back
    from it; nothing is written for [undefined].  An infinite number is
    written as [null] and a zero, of either sign, as [0]; the named
    properties set on an array are not written; a property whose value is
    [undefined] is left out, and an element that is [undefined] is written
    as [null]. *)
Fixpoint written (v : value) : option value :=
  match v with
  | VUndef => None
  | VNull => Some VNull
  | VBool b => Some (VBool b)
  | VNum n =>
      Some (if num_is_infinite n then VNull
            else if num_is_zero n then VNum (mkNum false 0 0)
            else VNum n)
  | VStr s => Some (VStr s)
  | VArr es _ => Some (VArr (map (fun e => default VNull (written e)) es) [])
  | VObj ps =>
      Some (VObj ((fix props (ps : list (jsstring * value)) :=
                     match ps with
                     | [] => []
                     | (k, x) :: ps' =>
                         match written x with
                         | Some y => (k, y) :: props ps'
                         | None => props ps'
                         end
                     end) ps))
  end.

(** The properties of an object, as they are written. *)
Fixpoint written_props (ps : list (jsstring * value)) : list (jsstring * value) :=
  match ps with
  | [] => []
  | (k, x) :: ps' =>
      match written x with
      | Some y => (k, y) :: written_props ps'
      | None => written_props ps'
      end
  end.

(** [json.report] in the uploader, for the body [{ report: v }] that the
    route gives to [res.json]. *)
Definition received (v : value) : value := default VUndef (written v).

End Wire.
Export Wire.

(** ** The four repairs, as they are described *)

(** What each repair is said to do to a text, stated as a relation between
    the text before and the text after, with no reference to the functions
    of [Repair]. *)
Module Described.

(** [breaks_collapsed s t]: [t] is [s] with every line break (a CR LF
    pair, a lone LF or a lone CR) replaced by one space and every other
    unit kept. *)
Inductive breaks_collapsed : jsstring -> jsstring -> Prop :=
| bc_end : breaks_collapsed [] []
| bc_crlf s t :
    breaks_collapsed s t -> breaks_collapsed (cCR :: cLF :: s) (cSPACE :: t)
| bc_cr s t :
    head s <> Some cLF ->
    breaks_collapsed s t -> breaks_collapsed (cCR :: s) (cSPACE :: t)
| bc_lf s t :
    breaks_collapsed s t -> breaks_collapsed (cLF :: s) (cSPACE :: t)
| bc_keep c s t :
    c <> cCR -> c <> cLF ->
    breaks_collapsed s t -> breaks_collapsed (c :: s) (c :: t).

(** One unit and what stands for it once the single quotes are
    replaced. *)
Definition quote_replaced (a b : N) : Prop :=
  a = cSQUOTE /\ b = cDQUOTE \/ a <> cSQUOTE /\ b = a.

(** [quotes_replaced s t]: [t] is [s], unit by unit, with a double quote
    for every single quote. *)
Definition quotes_replaced : jsstring -> jsstring -> Prop :=
  Forall2 quote_replaced.

(** [s] starts with white space, possibly none, and then [closer]. *)
Definition before_closer (closer : N) (s : jsstring) : Prop :=
  exists ws rest, forallb is_space ws = true /\ s = ws ++ closer :: rest.

(** [commas_deleted closer s t]: [t] is [s] with every comma that stands
    before [closer], white space between them allowed, deleted together
    with that white space; every other unit is kept. *)
Inductive commas_deleted (closer : N) : jsstring -> jsstring -> Prop :=
| cd_end : commas_deleted closer [] []
| cd_delete ws s t :
    forallb is_space ws = true ->
    commas_deleted closer s t ->
    commas_deleted closer (cCOMMA :: ws ++ closer :: s) (closer :: t)
| cd_keep c s t :
    c <> cCOMMA \/ ~ before_closer closer s ->
    commas_deleted closer s t ->
    commas_deleted closer (c :: s) (c :: t).

End Described.
Export Described.

(** An entry the callback of [forEach] can read: a value that has
    properties, whose [category] is falsy or a string. *)
Module Reading.

Definition entry_readable (e : value) : bool :=
  match get_named (u "category") e with
  | Ok category => negb (truthy category) || is_string category
  | Throw _ => false
  end.

End Reading.
Export Reading.

(** * Properties *)

#[local] Arguments N.eqb : simpl never.
#[local] Arguments N.leb : simpl never.
#[local] Arguments N.ltb : simpl never.
#[local] Arguments is_space : simpl never.
#[local] Arguments u : simpl never.
#[local] Arguments j : simpl never.
#[local] Arguments coerce_array : simpl never.
#[local] Arguments safeParseJSON : simpl never.
#[local] Arguments respond : simpl never.

(** ** The regular expressions *)

Lemma has_unit_false c s : has_unit c s = false <-> (c ∉ s).
Proof.
  unfold has_unit. induction s as [|x s IH]; simpl.
  - split; [intros _ H; inversion H | done].
  - rewrite orb_false_iff, IH, not_elem_of_cons.
    destruct (N.eqb_spec c x); intuition congruence.
Qed.

Lemma through_last_absent c s : (c ∉ s) -> through_last c s = None.
Proof.
  induction s as [|x s IH]; simpl; [done|].
  intros [Hx Hs]%not_elem_of_cons. rewrite (IH Hs).
  destruct (N.eqb_spec x c); congruence.
Qed.

Lemma through_last_app c mid post :
  (c ∉ post) -> through_last c (mid ++ c :: post) = Some (mid ++ [c]).
Proof.
  intros Hpost. induction mid as [|x mid IH]; simpl.
  - rewrite (through_last_absent _ _ Hpost), N.eqb_refl. done.
  - rewrite IH. done.
Qed.

Lemma through_last_None c s : through_last c s = None -> (c ∉ s).
Proof.
  induction s as [|x s IH]; simpl; [intros _ H; inversion H|].
  destruct (through_last c s); [done|].
  destruct (N.eqb_spec x c); [done|]. intros _.
  apply not_elem_of_cons. split; [congruence | by apply IH].
Qed.

Lemma through_last_Some c s r :
  through_last c s = Some r ->
  exists mid post, r = mid ++ [c] /\ s = r ++ post /\ (c ∉ post).
Proof.
  revert r. induction s as [|x s IH]; simpl; intros r H; [done|].
  destruct (through_last c s) as [r'|] eqn:E.
  - injection H as <-. destruct (IH _ eq_refl) as (mid & post & -> & Hs & Hp).
    exists (x :: mid), post. simpl. rewrite Hs at 1. done.
  - destruct (N.eqb_spec x c) as [->|]; [|done]. injection H as <-.
    exists [], s. split; [done|]. split; [done|]. by apply through_last_None.
Qed.

(** The match of [match_span] runs from the first opening brace of the text
    to its last closing brace. *)
Lemma match_span_wrapped pre mid post :
  (cLBRACE ∉ pre) -> (cRBRACE ∉ post) ->
  match_span (pre ++ (cLBRACE :: mid ++ [cRBRACE]) ++ post)
  = Some (cLBRACE :: mid ++ [cRBRACE]).
Proof.
  intros Hpre Hpost. induction pre as [|x pre IH]; simpl.
  - rewrite <- app_assoc. simpl. rewrite (through_last_app _ _ _ Hpost). done.
  - apply not_elem_of_cons in Hpre as [Hx Hpre].
    destruct (N.eqb_spec x cLBRACE); [congruence|]. by apply IH.
Qed.

Lemma match_span_Some text span :
  match_span text = Some span ->
  exists pre mid post,
    text = pre ++ span ++ post /\ span = cLBRACE :: mid ++ [cRBRACE]
    /\ (cLBRACE ∉ pre) /\ (cRBRACE ∉ post).
Proof.
  induction text as [|x text IH]; simpl; [done|].
  destruct (N.eqb_spec x cLBRACE) as [->|Hx].
  - destruct (through_last cRBRACE text) as [r|] eqn:E; [|done].
    intros [= <-]. destruct (through_last_Some _ _ _ E) as (mid & post & -> & Ht & Hp).
    exists [], mid, post. simpl. rewrite Ht at 1. rewrite <- app_assoc.
    repeat split; try done. intros H; inversion H.
  - intros H. destruct (IH H) as (pre & mid & post & -> & Hs & Hpre & Hpost).
    exists (x :: pre), mid, post. repeat split; try done.
    apply not_elem_of_cons. done.
Qed.

Lemma object_text_shape P :
  object_text P = true -> exists mid, P = cLBRACE :: mid ++ [cRBRACE].
Proof.
  destruct P as [|c rest]; simpl; [done|].
  intros [Hc Hl]%andb_true_iff. apply N.eqb_eq in Hc as ->.
  apply bool_decide_eq_true in Hl. apply last_Some in Hl as [mid ->]. by exists mid.
Qed.

(** Induction that follows [collapse_breaks]: [P s r] for a text [s] and
    its image [r]. *)
Lemma collapse_breaks_ind (P : jsstring -> jsstring -> Prop) :
  P [] [] ->
  (forall s r, P s r -> P (cCR :: cLF :: s) (cSPACE :: r)) ->
  (forall c s r, c = cLF \/ c = cCR /\ head s <> Some cLF ->
                 P s r -> P (c :: s) (cSPACE :: r)) ->
  (forall c s r, c <> cCR -> c <> cLF -> P s r -> P (c :: s) (c :: r)) ->
  forall s, P s (collapse_breaks s).
Proof.
  intros Hnil Hcrlf Hbreak Hother s.
  assert (P s (collapse_breaks s)
          /\ (forall d s', s = d :: s' -> P s' (collapse_breaks s'))) as [H _]; [|exact H].
  induction s as [|c s [IH1 IH2]]; split; try done.
  - cbn [collapse_breaks].
    destruct (N.eqb_spec c cCR) as [->|Hcr].
    + destruct s as [|d s']; [by apply Hbreak; [right|]|].
      destruct (N.eqb_spec d cLF) as [->|Hd].
      * apply Hcrlf. by apply (IH2 _ _ eq_refl).
      * apply Hbreak; [|exact IH1]. right. split; [done|]. simpl. congruence.
    + destruct (N.eqb_spec c cLF) as [->|Hlf].
      * apply Hbreak; [by left | exact IH1].
      * by apply Hother.
  - intros d s' [= -> ->]. exact IH1.
Qed.

Lemma break_unit c s :
  c = cLF \/ c = cCR /\ head s <> Some cLF -> c = cCR \/ c = cLF.
Proof. intros [->|[-> _]]; auto. Qed.

Lemma collapse_breaks_keeps_absent c s :
  c <> cSPACE -> (c ∉ s) -> (c ∉ collapse_breaks s).
Proof.
  intros Hc. pattern s, (collapse_breaks s). apply collapse_breaks_ind; clear s.
  - done.
  - intros s r IH Hs. apply not_elem_of_cons. split; [done|].
    apply IH. apply not_elem_of_cons in Hs as [_ Hs]. by apply not_elem_of_cons in Hs as [_ ?].
  - intros x s r _ IH [_ Hs]%not_elem_of_cons. apply not_elem_of_cons. auto.
  - intros x s r _ _ IH [Hx Hs]%not_elem_of_cons. apply not_elem_of_cons. auto.
Qed.

Lemma double_quotes_id s : (cSQUOTE ∉ s) -> double_quotes s = s.
Proof.
  induction s as [|x s IH]; simpl; [done|].
  intros [Hx Hs]%not_elem_of_cons. rewrite (IH Hs).
  destruct (N.eqb_spec x cSQUOTE); congruence.
Qed.

Lemma space_then_space closer c s :
  is_space c = true -> c <> closer ->
  space_then closer (c :: s) = S <$> space_then closer s.
Proof.
  intros Hc Hne. cbn [space_then]. destruct (N.eqb_spec c closer); [done|].
  rewrite Hc. by destruct (space_then closer s).
Qed.

Lemma comma_before_collapse closer s :
  is_space closer = false ->
  (is_Some (space_then closer (collapse_breaks s)) -> is_Some (space_then closer s))
  /\ (has_comma_before closer s = false ->
      has_comma_before closer (collapse_breaks s) = false).
Proof.
  intros Hcl.
  assert (forall c, is_space c = true -> c <> closer) as Hne by (intros c Hc ->; congruence).
  pattern s, (collapse_breaks s). apply collapse_breaks_ind; clear s.
  - done.
  - intros s r [IH1 IH2]. split.
    + rewrite !space_then_space by (auto; done). rewrite !fmap_is_Some. exact IH1.
    + cbn [has_comma_before]. change (cCR =? cCOMMA) with false.
      change (cLF =? cCOMMA) with false. change (cSPACE =? cCOMMA) with false.
      simpl. exact IH2.
  - intros c s r Hc%break_unit [IH1 IH2]. split.
    + assert (is_space c = true) by (by destruct Hc as [-> | ->]).
      rewrite !space_then_space by (auto; done). rewrite !fmap_is_Some. exact IH1.
    + cbn [has_comma_before]. change (cSPACE =? cCOMMA) with false.
      assert ((c =? cCOMMA) = false) as -> by (by destruct Hc as [-> | ->]).
      simpl. exact IH2.
  - intros c s r _ _ [IH1 IH2]. split.
    + cbn [space_then].
      destruct (c =? closer); [done|]. destruct (is_space c); [|done].
      intros H. destruct (space_then closer r); [|by destruct H].
      destruct IH1 as [n' ->]; by eexists.
    + cbn [has_comma_before].
      intros [Hx Hs]%orb_false_iff. rewrite (IH2 Hs), orb_false_r.
      destruct (c =? cCOMMA); [|done]. simpl in *.
      apply bool_decide_eq_false. apply bool_decide_eq_false in Hx. auto.
Qed.

Lemma has_comma_before_collapse closer s :
  is_space closer = false ->
  has_comma_before closer s = false ->
  has_comma_before closer (collapse_breaks s) = false.
Proof. intros Hcl. by apply comma_before_collapse. Qed.

Lemma drop_commas_id closer s :
  has_comma_before closer s = false -> drop_commas closer O s = s.
Proof.
  induction s as [|x s IH]; simpl; [done|].
  intros [Hx Hs]%orb_false_iff. rewrite (IH Hs).
  destruct (N.eqb_spec x cCOMMA); [|done]. simpl in Hx.
  apply bool_decide_eq_false in Hx.
  destruct (space_then closer s); [|done]. destruct Hx. by eexists.
Qed.

(** A text without single quotes and without a comma before a closing brace
    or bracket is only changed at its line breaks. *)
Lemma cleaned_collapse P :
  (cSQUOTE ∉ P) ->
  has_comma_before cRBRACE P = false ->
  has_comma_before cRBRACK P = false ->
  cleaned P = collapse_breaks P.
Proof.
  intros Hq Hb Hk. unfold cleaned.
  rewrite double_quotes_id by (by apply collapse_breaks_keeps_absent).
  rewrite (drop_commas_id cRBRACE) by (by apply has_comma_before_collapse).
  by rewrite (drop_commas_id cRBRACK) by (by apply has_comma_before_collapse).
Qed.

(** ** The lexer *)

Lemma step_start_mode_ok c m out : step_start c = Some (m, out) -> mode_ok m = true.
Proof.
  unfold step_start. repeat case_match; intros [= <- <-]; reflexivity.
Qed.

Lemma step_mode_ok m c m' out :
  mode_ok m = true -> step m c = Some (m', out) -> mode_ok m' = true.
Proof.
  destruct m as [|acc|acc|acc todo code|p a|rest t]; cbn [step]; intros Hok.
  - apply step_start_mode_ok.
  - repeat case_match; intros [= <- <-]; reflexivity.
  - unfold step_escape. repeat case_match; intros [= <- <-]; reflexivity.
  - repeat case_match; intros [= <- <-]; reflexivity.
  - unfold step_number, end_number.
    repeat case_match; intros [= <- <-]; try reflexivity;
      eapply step_start_mode_ok; eassumption.
  - destruct rest as [|x [|y rest']]; [done| |].
    + case_match; intros [= <- <-]; reflexivity.
    + case_match; intros [= <- <-]. cbn [mode_ok forallb] in *.
      by apply andb_true_iff in Hok as [_ ?].
Qed.

(** A line break is read like a space wherever it can be read at all. *)
Lemma step_break m c m' out :
  mode_ok m = true -> c = cCR \/ c = cLF ->
  step m c = Some (m', out) -> m' = LStart /\ step m cSPACE = Some (LStart, out).
Proof.
  intros Hok Hc.
  destruct m as [|acc|acc|acc todo code|p a|rest t].
  - destruct Hc as [-> | ->]; vm_compute; intros [= <- <-]; done.
  - destruct Hc as [-> | ->]; vm_compute; done.
  - destruct Hc as [-> | ->]; vm_compute; done.
  - destruct todo as [|[|k]]; destruct Hc as [-> | ->]; vm_compute; done.
  - destruct p; destruct Hc as [-> | ->]; vm_compute; try done; intros [= <- <-]; done.
  - cbn [step]. destruct rest as [|x rest']; [done|].
    cbn [mode_ok forallb] in Hok. apply andb_true_iff in Hok as [Hx _].
    apply andb_true_iff in Hx as [Hx _]. apply N.leb_le in Hx.
    assert ((c =? x) = false) as ->.
    { apply N.eqb_neq. destruct Hc as [-> | ->]; unfold cCR, cLF; lia. }
    by destruct rest'.
Qed.

Lemma lex_collapse_breaks s :
  forall m ts, mode_ok m = true -> lex m s = Some ts ->
               lex m (collapse_breaks s) = Some ts.
Proof.
  pattern s, (collapse_breaks s). apply collapse_breaks_ind; clear s.
  - done.
  - intros s r IH m ts Hok. cbn [lex].
    destruct (step m cCR) as [[m1 out1]|] eqn:E1; [|done].
    destruct (step_break _ _ _ _ Hok (or_introl eq_refl) E1) as [-> ->].
    change (step LStart cLF) with (Some (LStart, @nil token)). cbn beta iota.
    destruct (lex LStart s) as [ts'|] eqn:E; simpl; [|done].
    intros [= <-]. by rewrite (IH LStart ts' eq_refl E).
  - intros c s r Hc%break_unit IH m ts Hok. cbn [lex].
    destruct (step m c) as [[m1 out1]|] eqn:E1; [|done].
    destruct (step_break _ _ _ _ Hok Hc E1) as [-> ->].
    destruct (lex LStart s) as [ts'|] eqn:E; [|done].
    intros [= <-]. by rewrite (IH LStart ts' eq_refl E).
  - intros c s r _ _ IH m ts Hok. cbn [lex].
    destruct (step m c) as [[m1 out1]|] eqn:E1; [|done].
    destruct (lex m1 s) as [ts'|] eqn:E; [|done].
    intros [= <-]. by rewrite (IH m1 ts' (step_mode_ok _ _ _ _ Hok E1) E).
Qed.

(** Collapsing the line breaks of a valid JSON text does not change what it
    parses to. *)
Lemma JSON_parse_collapse_breaks P v :
  JSON_parse P = Some v -> JSON_parse (collapse_breaks P) = Some v.
Proof.
  unfold JSON_parse. destruct (lex LStart P) as [ts|] eqn:E; [|done].
  by rewrite (lex_collapse_breaks P LStart ts eq_refl E).
Qed.

(** ** The parser: fuel *)

Lemma parse_value_S f ts :
  parse_value (S f) ts =
  match ts with
  | TNull :: r => Some (VNull, r)
  | TTrue :: r => Some (VBool true, r)
  | TFalse :: r => Some (VBool false, r)
  | TNum n :: r => Some (VNum n, r)
  | TStr s :: r => Some (VStr s, r)
  | TLBrack :: TRBrack :: r => Some (VArr [] [], r)
  | TLBrack :: r => parse_elements f r []
  | TLBrace :: TRBrace :: r => Some (VObj [], r)
  | TLBrace :: r => parse_members f r []
  | _ => None
  end.
Proof. reflexivity. Qed.

Lemma parse_elements_S f ts acc :
  parse_elements (S f) ts acc =
  match parse_value f ts with
  | Some (v, TComma :: r) => parse_elements f r (v :: acc)
  | Some (v, TRBrack :: r) => Some (VArr (rev (v :: acc)) [], r)
  | _ => None
  end.
Proof. reflexivity. Qed.

Lemma parse_members_S f ts acc :
  parse_members (S f) ts acc =
  match ts with
  | TStr k :: TColon :: r =>
      match parse_value f r with
      | Some (v, TComma :: r') => parse_members f r' (assoc_set k v acc)
      | Some (v, TRBrace :: r') => Some (VObj (assoc_set k v acc), r')
      | _ => None
      end
  | _ => None
  end.
Proof. reflexivity. Qed.

(** A call that succeeds reads at least one token, and succeeds with the
    same result on any fuel that is at least the number of tokens read. *)
Lemma parse_fuel f :
  (forall ts v r,
      parse_value f ts = Some (v, r) ->
      (length r < length ts)%nat
      /\ forall f', (length ts - length r <= f')%nat -> parse_value f' ts = Some (v, r))
  /\ (forall ts acc v r,
         parse_elements f ts acc = Some (v, r) ->
         (length r < length ts)%nat
         /\ forall f', (length ts - length r <= f')%nat ->
                       parse_elements f' ts acc = Some (v, r))
  /\ (forall ts acc v r,
         parse_members f ts acc = Some (v, r) ->
         (length r < length ts)%nat
         /\ forall f', (length ts - length r <= f')%nat ->
                       parse_members f' ts acc = Some (v, r)).
Proof.
  induction f as [|f (IHv & IHe & IHm)]; [done|].
  assert (forall ts v r,
             parse_elements f ts [] = Some (v, r) ->
             forall t, (length r < length (t :: ts))%nat
                  /\ forall f', (length (t :: ts) - length r <= f')%nat ->
                                exists f'', f' = S f''
                                            /\ parse_elements f'' ts [] = Some (v, r))
    as Harr.
  { intros ts v r H t. destruct (IHe _ _ _ _ H) as [Hlen Hfuel].
    split; [simpl; lia|]. intros [|f''] Hf'; [simpl in Hf'; lia|].
    exists f''. split; [done|]. apply Hfuel. simpl in Hf'. lia. }
  assert (forall ts v r,
             parse_members f ts [] = Some (v, r) ->
             forall t, (length r < length (t :: ts))%nat
                  /\ forall f', (length (t :: ts) - length r <= f')%nat ->
                                exists f'', f' = S f''
                                            /\ parse_members f'' ts [] = Some (v, r))
    as Hobj.
  { intros ts v r H t. destruct (IHm _ _ _ _ H) as [Hlen Hfuel].
    split; [simpl; lia|]. intros [|f''] Hf'; [simpl in Hf'; lia|].
    exists f''. split; [done|]. apply Hfuel. simpl in Hf'. lia. }
  split; [|split].
  - intros ts v r. rewrite parse_value_S.
    destruct ts as [|t ts]; [done|].
    destruct t; try done.
    + (* an object *)
      destruct ts as [|t2 ts2];
        [|destruct t2];
        try (intros H; destruct (Hobj _ _ _ H TLBrace) as [Hlen Hfuel];
             split; [exact Hlen|];
             intros f' Hf'; destruct (Hfuel f' Hf') as (f'' & -> & Hp);
             rewrite parse_value_S; exact Hp).
      intros [= <- <-]. split; [simpl; lia|].
      intros [|f'] Hf'; [simpl in Hf'; lia | done].
    + (* an array *)
      destruct ts as [|t2 ts2];
        [|destruct t2];
        try (intros H; destruct (Harr _ _ _ H TLBrack) as [Hlen Hfuel];
             split; [exact Hlen|];
             intros f' Hf'; destruct (Hfuel f' Hf') as (f'' & -> & Hp);
             rewrite parse_value_S; exact Hp).
      intros [= <- <-]. split; [simpl; lia|].
      intros [|f'] Hf'; [simpl in Hf'; lia | done].
    + intros [= <- <-]. split; [simpl; lia|].
      intros [|f'] Hf'; [simpl in Hf'; lia | done].
    + intros [= <- <-]. split; [simpl; lia|].
      intros [|f'] Hf'; [simpl in Hf'; lia | done].
    + intros [= <- <-]. split; [simpl; lia|].
      intros [|f'] Hf'; [simpl in Hf'; lia | done].
    + intros [= <- <-]. split; [simpl; lia|].
      intros [|f'] Hf'; [simpl in Hf'; lia | done].
    + intros [= <- <-]. split; [simpl; lia|].
      intros [|f'] Hf'; [simpl in Hf'; lia | done].
  - intros ts acc v r. rewrite parse_elements_S.
    destruct (parse_value f ts) as [[v1 r1]|] eqn:E; [|done].
    destruct (IHv _ _ _ E) as [Hlen Hfuel].
    destruct r1 as [|t r1]; [done|]. destruct t; try done.
    + intros [= <- <-]. simpl in Hlen, Hfuel. split; [lia|].
      intros [|f'] Hf'; [lia|].
      rewrite parse_elements_S, (Hfuel f') by lia. done.
    + intros H. destruct (IHe _ _ _ _ H) as [Hlen2 Hfuel2].
      simpl in Hlen, Hfuel. split; [lia|].
      intros [|f'] Hf'; [lia|].
      rewrite parse_elements_S, (Hfuel f') by lia. apply Hfuel2. lia.
  - intros ts acc v r. rewrite parse_members_S.
    destruct ts as [|t ts]; [done|]. destruct t; try done.
    destruct ts as [|t2 ts]; [done|]. destruct t2; try done.
    destruct (parse_value f ts) as [[v1 r1]|] eqn:E; [|done].
    destruct (IHv _ _ _ E) as [Hlen Hfuel].
    destruct r1 as [|t r1]; [done|]. destruct t; try done.
    + intros [= <- <-]. simpl in Hlen, Hfuel |- *. split; [lia|].
      intros [|f'] Hf'; [lia|].
      rewrite parse_members_S, (Hfuel f') by lia. done.
    + intros H. destruct (IHm _ _ _ _ H) as [Hlen2 Hfuel2].
      simpl in Hlen, Hfuel |- *. split; [lia|].
      intros [|f'] Hf'; [lia|].
      rewrite parse_members_S, (Hfuel f') by lia. apply Hfuel2. lia.
Qed.

(** The fuel [parse_tokens] gives is enough: a token list that the grammar
    accepts on some fuel is accepted by [parse_tokens], with the same
    value. *)
Lemma parse_tokens_complete f ts v :
  parse_value f ts = Some (v, []) -> parse_tokens ts = Some v.
Proof.
  intros H. destruct (parse_fuel f) as (Hv & _ & _).
  destruct (Hv _ _ _ H) as [_ Hfuel]. unfold parse_tokens.
  rewrite (Hfuel (S (length ts))); [done | simpl; lia].
Qed.

(** ** safeParseJSON *)

(** What [safeParseJSON] does with a string. *)
Lemma safeParseJSON_string s w :
  safeParseJSON (VStr s) w =
  match JSON_parse s with
  | Some v => (Ok v, w)
  | None =>
      match match_span s with
      | Some span =>
          match JSON_parse (cleaned span) with
          | Some v => (Ok v, w)
          | None => (Ok VNull, logged w StillInvalidAfterCleanup)
          end
      | None => (Ok VNull, w)
      end
  end.
Proof.
  destruct s as [|c s]; [reflexivity|].
  unfold safeParseJSON. cbn [truthy negb typeof_object JSON_parse_any].
  destruct (JSON_parse (c :: s)); [reflexivity|].
  destruct (match_span (c :: s)); [|reflexivity].
  destruct (JSON_parse (cleaned j0)); reflexivity.
Qed.

(** ** Single quotes *)

Lemma step_start_plain c m out :
  c <> cDQUOTE -> step_start c = Some (m, out) -> mode_plain m = true.
Proof.
  intros Hc. unfold step_start.
  destruct (N.eqb_spec c cDQUOTE); [done|].
  repeat case_match; intros [= <- <-]; reflexivity.
Qed.

Lemma step_plain m c m' out :
  mode_plain m = true -> c <> cDQUOTE -> step m c = Some (m', out) ->
  mode_plain m' = true.
Proof.
  destruct m as [|acc|acc|acc todo code|p a|rest t]; cbn [step]; intros Hok Hc; try done.
  - by apply step_start_plain.
  - unfold step_number, end_number.
    repeat case_match; intros [= <- <-]; try reflexivity;
      eapply step_start_plain; eassumption.
  - destruct rest as [|x [|y rest']]; [done| |].
    + case_match; intros [= <- <-]; reflexivity.
    + case_match; intros [= <- <-]. cbn [mode_plain forallb] in *.
      by apply andb_true_iff in Hok as [_ ?].
Qed.

Lemma step_single_quote m : mode_plain m = true -> step m cSQUOTE = None.
Proof.
  destruct m as [|acc|acc|acc todo code|p a|rest t]; intros Hok; try done.
  - by destruct p.
  - cbn [step]. destruct rest as [|x rest']; [done|].
    cbn [mode_plain forallb] in Hok. apply andb_true_iff in Hok as [Hx _].
    apply andb_true_iff in Hx as [Hx _]. apply N.leb_le in Hx.
    assert ((cSQUOTE =? x) = false) as -> by (apply N.eqb_neq; unfold cSQUOTE; lia).
    by destruct rest'.
Qed.

(** A text with a single quote and no double quote is not valid JSON. *)
Lemma lex_single_quote s :
  forall m, mode_plain m = true -> (cDQUOTE ∉ s) -> (cSQUOTE ∈ s) -> lex m s = None.
Proof.
  induction s as [|c s IH]; intros m Hok Hd Hq; [inversion Hq|].
  apply not_elem_of_cons in Hd as [Hc Hd]. cbn [lex].
  destruct (decide (c = cSQUOTE)) as [->|Hne].
  - by rewrite step_single_quote.
  - apply elem_of_cons in Hq as [?|Hq]; [congruence|].
    destruct (step m c) as [[m' out]|] eqn:E; [|done].
    by rewrite (IH m' (step_plain _ _ _ _ Hok (not_eq_sym Hc) E) Hd Hq).
Qed.

Lemma single_quotes_id s : (cDQUOTE ∉ s) -> single_quotes s = s.
Proof.
  induction s as [|x s IH]; simpl; [done|].
  intros [Hx Hs]%not_elem_of_cons. rewrite (IH Hs).
  destruct (N.eqb_spec x cDQUOTE); congruence.
Qed.

Lemma single_quotes_no_double s : cDQUOTE ∉ single_quotes s.
Proof.
  induction s as [|x s IH]; simpl; [intros H; inversion H|].
  apply not_elem_of_cons. split; [|done].
  destruct (N.eqb_spec x cDQUOTE); [done | congruence].
Qed.

Lemma single_quotes_has_single s : (cDQUOTE ∈ s) -> (cSQUOTE ∈ single_quotes s).
Proof.
  induction s as [|x s IH]; simpl; [intros H; inversion H|].
  intros [->|H]%elem_of_cons.
  - rewrite N.eqb_refl. by left.
  - right. by apply IH.
Qed.

Lemma single_quotes_cons c s :
  single_quotes (c :: s) = (if c =? cDQUOTE then cSQUOTE else c) :: single_quotes s.
Proof. reflexivity. Qed.

Lemma collapse_breaks_cons c s :
  collapse_breaks (c :: s) =
  if c =? cCR then
    cSPACE :: match s with
              | d :: s'' => if d =? cLF then collapse_breaks s'' else collapse_breaks s
              | [] => []
              end
  else if c =? cLF then cSPACE :: collapse_breaks s
  else c :: collapse_breaks s.
Proof. destruct s; reflexivity. Qed.

Lemma collapse_breaks_single_quotes s :
  collapse_breaks (single_quotes s) = single_quotes (collapse_breaks s).
Proof.
  pattern s, (collapse_breaks s). apply collapse_breaks_ind; clear s.
  - done.
  - intros s r IH. rewrite !single_quotes_cons, collapse_breaks_cons, <- IH.
    reflexivity.
  - intros c s r Hc IH. rewrite !single_quotes_cons, collapse_breaks_cons, <- IH.
    destruct Hc as [-> | [-> Hs]]; [reflexivity|].
    change (if cCR =? cDQUOTE then cSQUOTE else cCR) with cCR.
    change (if cSPACE =? cDQUOTE then cSQUOTE else cSPACE) with cSPACE.
    change (cCR =? cCR) with true. cbn iota.
    f_equal. destruct s as [|d s']; [done|].
    rewrite single_quotes_cons.
    assert (((if d =? cDQUOTE then cSQUOTE else d) =? cLF) = false) as ->; [|done].
    apply N.eqb_neq. destruct (N.eqb_spec d cDQUOTE); [done|]. simpl in Hs. congruence.
  - intros c s r Hcr Hlf IH.
    rewrite !single_quotes_cons, collapse_breaks_cons, <- IH.
    destruct (N.eqb_spec c cDQUOTE) as [->|Hd]; [reflexivity|].
    by rewrite (proj2 (N.eqb_neq _ _) Hcr), (proj2 (N.eqb_neq _ _) Hlf).
Qed.

Lemma double_single_quotes s : (cSQUOTE ∉ s) -> double_quotes (single_quotes s) = s.
Proof.
  induction s as [|x s IH]; simpl; [done|].
  intros [Hx Hs]%not_elem_of_cons. rewrite (IH Hs). f_equal.
  destruct (N.eqb_spec x cDQUOTE) as [->|]; [done|].
  destruct (N.eqb_spec x cSQUOTE); congruence.
Qed.

Lemma single_quotes_object_text E :
  object_text E = true -> object_text (single_quotes E) = true.
Proof.
  intros [mid ->]%object_text_shape.
  unfold single_quotes. rewrite map_cons, map_app. simpl.
  change (cLBRACE =? cDQUOTE) with false. change (cRBRACE =? cDQUOTE) with false.
  apply bool_decide_eq_true. by rewrite last_snoc.
Qed.

Lemma match_span_object_text P : object_text P = true -> match_span P = Some P.
Proof.
  intros [mid ->]%object_text_shape.
  generalize (match_span_wrapped [] mid []). simpl. rewrite app_nil_r.
  intros H. apply H; intros Hin; inversion Hin.
Qed.

(** An object text written with single quotes instead of double quotes is
    repaired to the text it stands for. *)
Lemma safeParseJSON_single_quotes E v w :
  JSON_parse E = Some v ->
  object_text E = true ->
  has_unit cSQUOTE E = false ->
  has_comma_before cRBRACE E = false ->
  has_comma_before cRBRACK E = false ->
  safeParseJSON (VStr (single_quotes E)) w = (Ok v, w).
Proof.
  intros Hv Hobj Hq%has_unit_false Hb Hk.
  destruct (decide (cDQUOTE ∈ E)) as [Hd|Hd].
  - rewrite safeParseJSON_string.
    assert (JSON_parse (single_quotes E) = None) as ->.
    { unfold JSON_parse. rewrite lex_single_quote; try done.
      - apply single_quotes_no_double.
      - by apply single_quotes_has_single. }
    rewrite (match_span_object_text _ (single_quotes_object_text _ Hobj)).
    assert (cleaned (single_quotes E) = collapse_breaks E) as ->.
    { unfold cleaned. rewrite collapse_breaks_single_quotes.
      rewrite double_single_quotes by (by apply collapse_breaks_keeps_absent).
      rewrite (drop_commas_id cRBRACE) by (by apply has_comma_before_collapse).
      by rewrite (drop_commas_id cRBRACK) by (by apply has_comma_before_collapse). }
    by rewrite (JSON_parse_collapse_breaks _ _ Hv).
  - rewrite (single_quotes_id _ Hd). by rewrite safeParseJSON_string, Hv.
Qed.

(** ** Trailing commas *)

Lemma closer_facts closer :
  closer = cRBRACE \/ closer = cRBRACK ->
  is_space closer = false /\ closer <> cCOMMA /\ closer <> cCR /\ closer <> cLF
  /\ closer <> cSQUOTE.
Proof. intros [-> | ->]; repeat split; done. Qed.

Lemma space_units ws c : forallb is_space ws = true -> is_space c = false -> c ∉ ws.
Proof.
  intros Hws Hc Hin. rewrite forallb_forall in Hws.
  apply list_elem_of_In in Hin. apply Hws in Hin. congruence.
Qed.

Lemma collapse_breaks_app_cons ws c X :
  c <> cCR -> c <> cLF ->
  collapse_breaks (ws ++ c :: X) = collapse_breaks ws ++ c :: collapse_breaks X.
Proof.
  intros Hcr Hlf. pattern ws, (collapse_breaks ws). apply collapse_breaks_ind; clear ws.
  - rewrite !app_nil_l, collapse_breaks_cons.
    by rewrite (proj2 (N.eqb_neq _ _) Hcr), (proj2 (N.eqb_neq _ _) Hlf).
  - intros s r IH. rewrite <- !app_comm_cons, collapse_breaks_cons.
    change (cCR =? cCR) with true. change (cLF =? cLF) with true. cbn iota.
    by rewrite IH.
  - intros d s r Hd IH. rewrite <- !app_comm_cons, collapse_breaks_cons, IH.
    destruct Hd as [-> | [-> Hs]]; [reflexivity|].
    change (cCR =? cCR) with true. cbn iota. f_equal.
    destruct s as [|e s'].
    + rewrite app_nil_l. by rewrite (proj2 (N.eqb_neq _ _) Hlf).
    + rewrite <- app_comm_cons.
      assert ((e =? cLF) = false) as ->; [|done].
      apply N.eqb_neq. simpl in Hs. congruence.
  - intros d s r Hd1 Hd2 IH. rewrite <- !app_comm_cons, collapse_breaks_cons, IH.
    by rewrite (proj2 (N.eqb_neq _ _) Hd1), (proj2 (N.eqb_neq _ _) Hd2).
Qed.

Lemma collapse_breaks_spaces ws :
  forallb is_space ws = true -> forallb is_space (collapse_breaks ws) = true.
Proof.
  pattern ws, (collapse_breaks ws). apply collapse_breaks_ind; clear ws.
  - done.
  - intros s r IH. cbn [forallb]. intros [_ [_ H]%andb_true_iff]%andb_true_iff. by rewrite IH.
  - intros c s r _ IH. cbn [forallb]. intros [_ H]%andb_true_iff. by rewrite IH.
  - intros c s r _ _ IH. cbn [forallb]. intros [Hc H]%andb_true_iff. by rewrite Hc, IH.
Qed.

Lemma trailing_commas_head_not ins E T c :
  trailing_commas ins E T -> c <> cCOMMA -> head E <> Some c -> head T <> Some c.
Proof.
  intros H Hc. destruct H; simpl; try done. intros _ [= ?]. congruence.
Qed.

Lemma trailing_commas_collapse ins E :
  forall T, trailing_commas ins E T ->
            trailing_commas ins (collapse_breaks E) (collapse_breaks T).
Proof.
  pattern E, (collapse_breaks E). apply collapse_breaks_ind; clear E.
  - intros T H. inversion H. constructor.
  - intros s r IH T H.
    inversion H as [|c E1 T1 H1|closer ws E1 T1 Hcl]; subst;
      [|by destruct Hcl].
    inversion H1 as [|c E2 T2 H2|closer ws E2 T2 Hcl]; subst;
      [|by destruct Hcl].
    rewrite collapse_breaks_cons. change (cCR =? cCR) with true.
    change (cLF =? cLF) with true. cbn iota. constructor. by apply IH.
  - intros c s r Hc IH T H.
    inversion H as [|c' E1 T1 H1|closer ws E1 T1 Hcl]; subst;
      [|by destruct Hcl as [-> | ->]; destruct Hc as [? | [? _]]].
    rewrite collapse_breaks_cons.
    destruct Hc as [-> | [-> Hs]]; [constructor; by apply IH|].
    change (cCR =? cCR) with true. cbn iota.
    assert (head T1 <> Some cLF) as HT by (by eapply trailing_commas_head_not).
    specialize (IH _ H1).
    destruct T1 as [|d T1']; [inversion H1; subst; by constructor|].
    assert ((d =? cLF) = false) as ->.
    { apply N.eqb_neq. simpl in HT. congruence. }
    by constructor.
  - intros c s r Hcr Hlf IH T H.
    inversion H as [|c' E1 T1 H1|closer ws E1 T1 Hcl Hins Hws H1]; subst.
    + rewrite collapse_breaks_cons.
      rewrite (proj2 (N.eqb_neq _ _) Hcr), (proj2 (N.eqb_neq _ _) Hlf).
      constructor. by apply IH.
    + rewrite collapse_breaks_cons. change (cCOMMA =? cCR) with false.
      change (cCOMMA =? cLF) with false. cbn iota.
      rewrite collapse_breaks_app_cons by done.
      constructor; try done; [by apply collapse_breaks_spaces | by apply IH].
Qed.

Lemma trailing_commas_keeps_absent ins E T c :
  trailing_commas ins E T ->
  is_space c = false -> c <> cCOMMA -> (c ∉ E) -> (c ∉ T).
Proof.
  intros H Hsp Hco. induction H as [|d E T H IH|closer ws E T Hcl Hins Hws H IH].
  - done.
  - intros [? ?]%not_elem_of_cons. apply not_elem_of_cons. auto.
  - intros [? ?]%not_elem_of_cons. apply not_elem_of_cons. split; [done|].
    apply not_elem_of_app. split; [by apply space_units|].
    apply not_elem_of_cons. auto.
Qed.

Lemma space_then_spaces k ws X :
  forallb is_space ws = true -> is_space k = false ->
  space_then k (ws ++ X) =
  (fun n => (length ws + n)%nat) <$> space_then k X.
Proof.
  intros Hws Hk. induction ws as [|c ws IH].
  - simpl. by destruct (space_then k X).
  - cbn [forallb] in Hws. apply andb_true_iff in Hws as [Hc Hws].
    rewrite <- app_comm_cons, space_then_space; [|done|intros ->; congruence].
    rewrite (IH Hws). by destruct (space_then k X).
Qed.

Lemma trailing_commas_space_then ins k E T :
  trailing_commas ins E T -> is_space k = false -> k <> cCOMMA ->
  space_then k E = None -> space_then k T = None.
Proof.
  intros H Hk Hco. induction H as [|d E T H IH|closer ws E T Hcl Hins Hws H IH].
  - done.
  - cbn [space_then]. destruct (d =? k); [done|]. destruct (is_space d); [|done].
    destruct (space_then k E); [done|]. intros _. by rewrite IH.
  - intros _. cbn [space_then].
    rewrite (proj2 (N.eqb_neq _ _) (not_eq_sym Hco)). done.
Qed.

Lemma drop_commas_skip k l n X :
  drop_commas k (length l + n) (l ++ X) = drop_commas k n X.
Proof.
  induction l as [|c l IH]; [done|]. simpl. exact IH.
Qed.

Lemma drop_commas_spaces k ws X :
  forallb is_space ws = true ->
  drop_commas k O (ws ++ X) = ws ++ drop_commas k O X.
Proof.
  induction ws as [|c ws IH]; [done|]. cbn [forallb]. intros [Hc Hws]%andb_true_iff.
  rewrite <- !app_comm_cons. cbn [drop_commas].
  assert ((c =? cCOMMA) = false) as ->.
  { apply N.eqb_neq. intros ->. done. }
  by rewrite IH.
Qed.

(** One pass of [drop_commas] removes the commas written before [k] and
    leaves the others. *)
Lemma drop_commas_trailing ins k E T :
  k = cRBRACE \/ k = cRBRACK ->
  has_comma_before k E = false ->
  trailing_commas ins E T ->
  trailing_commas (fun c => ins c && negb (c =? k)) E (drop_commas k O T).
Proof.
  intros Hk. destruct (closer_facts _ Hk) as (Hsp & Hco & _).
  intros Hfree H. induction H as [|d E T H IH|closer ws E T Hcl Hins Hws H IH].
  - constructor.
  - cbn [has_comma_before] in Hfree. apply orb_false_iff in Hfree as [Hd Hfree].
    cbn [drop_commas]. destruct (N.eqb_spec d cCOMMA) as [->|Hne].
    + simpl in Hd. apply bool_decide_eq_false in Hd.
      rewrite (trailing_commas_space_then _ _ _ _ H Hsp Hco).
      * constructor. by apply IH.
      * destruct (space_then k E); [|done]. destruct Hd. by eexists.
    + constructor. by apply IH.
  - cbn [has_comma_before] in Hfree. apply orb_false_iff in Hfree as [_ Hfree].
    destruct (closer_facts _ Hcl) as (Hsp' & Hco' & _).
    cbn [drop_commas]. change (cCOMMA =? cCOMMA) with true. cbn iota.
    rewrite (space_then_spaces _ _ _ Hws Hsp). cbn [space_then].
    destruct (N.eqb_spec closer k) as [->|Hne].
    + cbn. replace (S (length ws + 0)) with (length (ws ++ [k]) + 0)%nat
        by (rewrite length_app; simpl; lia).
      replace (ws ++ k :: T) with ((ws ++ [k]) ++ T) by (by rewrite <- app_assoc).
      rewrite drop_commas_skip. constructor. by apply IH.
    + rewrite Hsp'. cbn. rewrite (drop_commas_spaces _ _ _ Hws).
      cbn [drop_commas]. rewrite (proj2 (N.eqb_neq _ _) Hco').
      constructor; try done; [|by apply IH].
      by rewrite Hins, (proj2 (N.eqb_neq _ _) Hne).
Qed.

Lemma trailing_commas_none ins E T :
  (forall c, ins c = false) -> trailing_commas ins E T -> T = E.
Proof.
  intros Hins H. induction H; [done | by f_equal | congruence].
Qed.

(** The four replacements undo the trailing commas. *)
Lemma cleaned_trailing_commas E T :
  (cSQUOTE ∉ E) ->
  has_comma_before cRBRACE E = false ->
  has_comma_before cRBRACK E = false ->
  trailing_commas brace_or_bracket E T ->
  cleaned T = collapse_breaks E.
Proof.
  intros Hq Hb Hk H. unfold cleaned.
  rewrite double_quotes_id.
  2:{ apply collapse_breaks_keeps_absent; [done|].
      by apply (trailing_commas_keeps_absent _ _ _ _ H). }
  apply trailing_commas_collapse in H.
  apply (drop_commas_trailing _ cRBRACE) in H;
    [|by left|by apply has_comma_before_collapse].
  apply (drop_commas_trailing _ cRBRACK) in H;
    [|by right|by apply has_comma_before_collapse].
  apply (trailing_commas_none _ _ _) in H; [done|].
  intros c. unfold brace_or_bracket.
  destruct (c =? cRBRACE), (c =? cRBRACK); reflexivity.
Qed.

Lemma trailing_commas_last ins E T :
  trailing_commas ins E T -> last T = last E.
Proof.
  induction 1 as [|d E T H IH|closer ws E T Hcl Hins Hws H IH]; [done| |].
  - by rewrite !last_cons, IH.
  - replace (cCOMMA :: ws ++ closer :: T) with ((cCOMMA :: ws) ++ closer :: T) by done.
    by rewrite last_app_cons, !last_cons, IH.
Qed.

Lemma trailing_commas_object_text ins E T :
  trailing_commas ins E T -> object_text E = true -> object_text T = true.
Proof.
  intros H Hobj. destruct (object_text_shape _ Hobj) as [mid ->].
  inversion H as [|c E1 T1 H1|closer ws E1 T1 Hcl]; subst; [|by destruct Hcl].
  unfold object_text. rewrite N.eqb_refl. simpl.
  apply bool_decide_eq_true. rewrite (trailing_commas_last _ _ _ H1).
  by rewrite last_snoc.
Qed.

(** An object text with trailing commas is repaired to the text without
    them. *)
Lemma safeParseJSON_trailing_commas E T v w :
  JSON_parse E = Some v ->
  object_text E = true ->
  has_unit cSQUOTE E = false ->
  has_comma_before cRBRACE E = false ->
  has_comma_before cRBRACK E = false ->
  trailing_commas brace_or_bracket E T ->
  JSON_parse T = None ->
  safeParseJSON (VStr T) w = (Ok v, w).
Proof.
  intros Hv Hobj Hq%has_unit_false Hb Hk Hrel HT.
  rewrite safeParseJSON_string, HT.
  rewrite (match_span_object_text _ (trailing_commas_object_text _ _ _ Hrel Hobj)).
  rewrite (cleaned_trailing_commas _ _ Hq Hb Hk Hrel).
  by rewrite (JSON_parse_collapse_breaks _ _ Hv).
Qed.

Lemma cleaned_single_quotes X : (cSQUOTE ∉ X) -> cleaned (single_quotes X) = cleaned X.
Proof.
  intros Hq. unfold cleaned. rewrite collapse_breaks_single_quotes.
  assert (cSQUOTE ∉ collapse_breaks X) as Hc by (by apply collapse_breaks_keeps_absent).
  by rewrite (double_single_quotes _ Hc), (double_quotes_id _ Hc).
Qed.

(** ** The claims about the normalizer *)

(** C3, as stated, fails: a valid JSON object whose string holds an
    apostrophe, wrapped in prose without braces, is not recovered; the
    replacement of single quotes breaks the string and normalization
    fails.  Likewise a comma before a closing brace inside a string is
    deleted, and the object recovered is another one. *)
Lemma wrapped_object_counterexample :
  JSON_parse (j "{`note`:`it's fine`}") = Some (VObj [(u "note", VStr (u "it's fine"))])
  /\ object_text (j "{`note`:`it's fine`}") = true
  /\ has_unit cLBRACE (u "Result: ") = false
  /\ has_unit cRBRACE (u " Thanks.") = false
  /\ fst (safeParseJSON
            (VStr (u "Result: " ++ j "{`note`:`it's fine`}" ++ u " Thanks."))
            empty_world)
     = Ok VNull
  /\ JSON_parse (j "{`note`:`range (a, }`}") = Some (VObj [(u "note", VStr (u "range (a, }"))])
  /\ fst (safeParseJSON
            (VStr (u "Result: " ++ j "{`note`:`range (a, }`}" ++ u " Thanks."))
            empty_world)
     = Ok (VObj [(u "note", VStr (u "range (a}"))]).
Proof. repeat split; vm_compute; reflexivity. Qed.

(** C3, amended.  Let [P] be a valid JSON text that starts with an opening
    brace and ends with a closing brace, with no single quote and no comma
    followed by white space and a closing brace or bracket.  Let it stand
    between a prose without opening brace and a prose without closing brace,
    the whole not being valid JSON itself.  Then normalization of the whole
    returns the parse of [P]. *)
Theorem safeParseJSON_recovers_wrapped_object prose P prose2 v w :
  JSON_parse P = Some v ->
  object_text P = true ->
  has_unit cLBRACE prose = false ->
  has_unit cRBRACE prose2 = false ->
  JSON_parse (prose ++ P ++ prose2) = None ->
  has_unit cSQUOTE P = false ->
  has_comma_before cRBRACE P = false ->
  has_comma_before cRBRACK P = false ->
  safeParseJSON (VStr (prose ++ P ++ prose2)) w = (Ok v, w).
Proof.
  intros Hv [mid ->]%object_text_shape Hpre%has_unit_false Hpost%has_unit_false
         Hwhole Hq%has_unit_false Hb Hk.
  rewrite safeParseJSON_string, Hwhole, (match_span_wrapped _ _ _ Hpre Hpost).
  rewrite (cleaned_collapse _ Hq Hb Hk).
  by rewrite (JSON_parse_collapse_breaks _ _ Hv).
Qed.

Lemma safeParseJSON_recovers_wrapped_object_witness :
  safeParseJSON
    (VStr (u "Here is the result: "
           ++ [123; 10] ++ j "`summary`: `ok`," ++ [13; 10] ++ j "`list`: [1, 2]" ++ [10; 125]
           ++ u " Let me know."))
    empty_world
  = (Ok (VObj [(u "summary", VStr (u "ok"));
               (u "list", VArr [VNum (mkNum false 1 0); VNum (mkNum false 2 0)] [])]),
     empty_world).
Proof.
  apply (safeParseJSON_recovers_wrapped_object
           (u "Here is the result: ")
           ([123; 10] ++ j "`summary`: `ok`," ++ [13; 10] ++ j "`list`: [1, 2]" ++ [10; 125])
           (u " Let me know."));
    vm_compute; reflexivity.
Defined.

(** C4, as stated, fails: an array with a trailing comma has no span
    between braces, so it is not repaired, while the array without the
    comma parses; and a single-quoted string that holds an apostrophe is
    broken by the replacement. *)
Lemma quotes_and_commas_counterexample :
  fst (safeParseJSON (VStr (j "[`a`,]")) empty_world) = Ok VNull
  /\ fst (safeParseJSON (VStr (j "[`a`]")) empty_world) = Ok (VArr [VStr (u "a")] [])
  /\ fst (safeParseJSON (VStr (j "{'note':'it's fine'}")) empty_world) = Ok VNull
  /\ fst (safeParseJSON (VStr (j "{`note`:`it's fine`}")) empty_world)
     = Ok (VObj [(u "note", VStr (u "it's fine"))]).
Proof. repeat split; vm_compute; reflexivity. Qed.

(** C4, amended.  An input that is not valid JSON and has a span from its
    first opening brace to its last closing brace whose repaired form is
    valid JSON normalizes to the same value as that repaired form.  In
    particular, let [E] be a valid JSON text that starts with an opening
    brace and ends with a closing brace, with no single quote and no comma
    followed by white space and a closing brace or bracket: [E] written with
    single quotes normalizes to the value of [E]; and so does [E] with commas
    written before closing braces and brackets, with double or with single
    quotes, when that text is not valid JSON itself. *)
Theorem safeParseJSON_repairs_quotes_and_commas :
  (forall T span v w,
      JSON_parse T = None -> match_span T = Some span ->
      JSON_parse (cleaned span) = Some v ->
      safeParseJSON (VStr T) w = (Ok v, w)
      /\ safeParseJSON (VStr (cleaned span)) w = (Ok v, w))
  /\ (forall E v w,
        JSON_parse E = Some v -> object_text E = true ->
        has_unit cSQUOTE E = false ->
        has_comma_before cRBRACE E = false ->
        has_comma_before cRBRACK E = false ->
        safeParseJSON (VStr (single_quotes E)) w = safeParseJSON (VStr E) w
        /\ safeParseJSON (VStr E) w = (Ok v, w))
  /\ (forall E T T' v w,
        JSON_parse E = Some v -> object_text E = true ->
        has_unit cSQUOTE E = false ->
        has_comma_before cRBRACE E = false ->
        has_comma_before cRBRACK E = false ->
        trailing_commas brace_or_bracket E T ->
        T' = T \/ T' = single_quotes T ->
        JSON_parse T' = None ->
        safeParseJSON (VStr T') w = safeParseJSON (VStr E) w
        /\ safeParseJSON (VStr E) w = (Ok v, w)).
Proof.
  split; [|split].
  - intros T span v w HT Hspan Hv.
    rewrite !safeParseJSON_string, HT, Hspan, Hv. done.
  - intros E v w Hv Hobj Hq Hb Hk.
    rewrite (safeParseJSON_single_quotes E v w) by done.
    by rewrite safeParseJSON_string, Hv.
  - intros E T T' v w Hv Hobj Hq Hb Hk Hrel HT' Hfail.
    assert (safeParseJSON (VStr E) w = (Ok v, w)) as HE
        by (by rewrite safeParseJSON_string, Hv).
    split; [|done]. rewrite HE.
    destruct HT' as [-> | ->].
    + by apply (safeParseJSON_trailing_commas E).
    + rewrite safeParseJSON_string, Hfail.
      pose proof (trailing_commas_object_text _ _ _ Hrel Hobj) as HobjT.
      rewrite (match_span_object_text _ (single_quotes_object_text _ HobjT)).
      apply has_unit_false in Hq.
      rewrite cleaned_single_quotes.
      2:{ by apply (trailing_commas_keeps_absent _ _ _ _ Hrel). }
      rewrite (cleaned_trailing_commas _ _ Hq Hb Hk Hrel).
      by rewrite (JSON_parse_collapse_breaks _ _ Hv).
Qed.

Lemma safeParseJSON_repairs_quotes_and_commas_witness :
  safeParseJSON (VStr (j "Sure! {'a': ['x', 'y',], } Done")) empty_world
  = (Ok (VObj [(u "a", VArr [VStr (u "x"); VStr (u "y")] [])]), empty_world)
  /\ safeParseJSON (VStr (j "{'a': ['x', 'y']}")) empty_world
     = safeParseJSON (VStr (j "{`a`: [`x`, `y`]}")) empty_world
  /\ safeParseJSON (VStr (j "{'a': ['x', 'y', ],}")) empty_world
     = safeParseJSON (VStr (j "{`a`: [`x`, `y`]}")) empty_world.
Proof.
  destruct safeParseJSON_repairs_quotes_and_commas as (H1 & H2 & H3).
  split; [|split].
  - apply (H1 (j "Sure! {'a': ['x', 'y',], } Done") (j "{'a': ['x', 'y',], }"));
      vm_compute; reflexivity.
  - apply (H2 (j "{`a`: [`x`, `y`]}")
              (VObj [(u "a", VArr [VStr (u "x"); VStr (u "y")] [])]));
      vm_compute; reflexivity.
  - apply (H3 (j "{`a`: [`x`, `y`]}") (j "{`a`: [`x`, `y`, ],}")
              (j "{'a': ['x', 'y', ],}")
              (VObj [(u "a", VArr [VStr (u "x"); VStr (u "y")] [])]));
      try (vm_compute; reflexivity).
    + change (j "{`a`: [`x`, `y`]}")
        with (j "{`a`: [`x`, `y`" ++ cRBRACK :: cRBRACE :: []).
      change (j "{`a`: [`x`, `y`, ],}")
        with (j "{`a`: [`x`, `y`" ++ cCOMMA :: [cSPACE] ++ cRBRACK :: cCOMMA :: [] ++ cRBRACE :: []).
      generalize (j "{`a`: [`x`, `y`"). intros l. induction l as [|c l IH].
      * simpl. apply (tc_insert _ cRBRACK [cSPACE]); [by right|done|done|].
        apply (tc_insert _ cRBRACE []); [by left|done|done|]. constructor.
      * simpl. constructor. exact IH.
    + by right.
Defined.

(** ** The repairs do what they are described to do *)

Lemma collapse_breaks_described s : breaks_collapsed s (collapse_breaks s).
Proof.
  pattern s, (collapse_breaks s). apply collapse_breaks_ind; clear s.
  - constructor.
  - intros s r H. by constructor.
  - intros c s r [-> | [-> Hh]] H; by constructor.
  - intros c s r Hcr Hlf H. by constructor.
Qed.

Lemma breaks_collapsed_fun s t : breaks_collapsed s t -> t = collapse_breaks s.
Proof.
  induction 1 as [|s t _ IH|s t Hh _ IH|s t _ IH|c s t Hcr Hlf _ IH];
    rewrite ?collapse_breaks_cons.
  - done.
  - change (cCR =? cCR) with true. change (cLF =? cLF) with true. cbn iota.
    by rewrite IH.
  - change (cCR =? cCR) with true. cbn iota. destruct s as [|d s'].
    + by rewrite IH.
    + destruct (N.eqb_spec d cLF) as [->|Hd]; [by destruct Hh|]. by rewrite IH.
  - change (cLF =? cCR) with false. change (cLF =? cLF) with true. cbn iota.
    by rewrite IH.
  - rewrite (proj2 (N.eqb_neq _ _) Hcr), (proj2 (N.eqb_neq _ _) Hlf). by rewrite IH.
Qed.

Lemma double_quotes_described s : quotes_replaced s (double_quotes s).
Proof.
  induction s as [|c s IH]; [constructor|].
  unfold double_quotes. rewrite map_cons. constructor; [|exact IH].
  unfold quote_replaced. destruct (N.eqb_spec c cSQUOTE); [by left | by right].
Qed.

Lemma quotes_replaced_fun s t : quotes_replaced s t -> t = double_quotes s.
Proof.
  induction 1 as [|a b s t Hab _ IH]; [done|].
  unfold double_quotes. rewrite map_cons. fold (double_quotes s). rewrite <- IH.
  destruct Hab as [[-> ->] | [Ha ->]]; [done|].
  by rewrite (proj2 (N.eqb_neq _ _) Ha).
Qed.

Lemma space_then_Some closer s n :
  space_then closer s = Some n ->
  exists ws rest, s = ws ++ closer :: rest /\ length ws = n
                  /\ forallb is_space ws = true.
Proof.
  revert n. induction s as [|c s IH]; intros n; [done|]. cbn [space_then].
  destruct (N.eqb_spec c closer) as [->|Hne].
  - intros [= <-]. by exists [], s.
  - destruct (is_space c) eqn:Hc; [|done].
    destruct (space_then closer s) as [m|]; [|done]. intros [= <-].
    destruct (IH m eq_refl) as (ws & rest & -> & <- & Hws).
    exists (c :: ws), rest. repeat split. cbn [forallb]. by rewrite Hc, Hws.
Qed.

Lemma before_closer_space_then closer s :
  is_space closer = false ->
  before_closer closer s <-> is_Some (space_then closer s).
Proof.
  intros Hcl. split.
  - intros (ws & rest & Hws & ->). rewrite (space_then_spaces _ _ _ Hws Hcl).
    cbn [space_then]. rewrite N.eqb_refl. by eexists.
  - intros [n (ws & rest & -> & _ & Hws)%space_then_Some]. by exists ws, rest.
Qed.

Lemma drop_commas_delete closer ws s :
  forallb is_space ws = true -> is_space closer = false ->
  drop_commas closer O (cCOMMA :: ws ++ closer :: s) = closer :: drop_commas closer O s.
Proof.
  intros Hws Hcl. cbn [drop_commas]. change (cCOMMA =? cCOMMA) with true. cbn iota.
  rewrite (space_then_spaces _ _ _ Hws Hcl). cbn [space_then]. rewrite N.eqb_refl.
  cbn [fmap option_fmap option_map]. f_equal.
  replace (S (length ws + 0)) with (length (ws ++ [closer]) + 0)%nat
    by (rewrite length_app; simpl; lia).
  replace (ws ++ closer :: s) with ((ws ++ [closer]) ++ s) by (by rewrite <- app_assoc).
  apply drop_commas_skip.
Qed.

Lemma drop_commas_described closer :
  is_space closer = false ->
  forall n s, (length s <= n)%nat -> commas_deleted closer s (drop_commas closer O s).
Proof.
  intros Hcl. induction n as [|n IH]; intros [|c s] Hlen; try (constructor || (simpl in Hlen; lia)).
  simpl in Hlen.
  destruct (N.eqb_spec c cCOMMA) as [->|Hc].
  - destruct (space_then closer s) as [m|] eqn:E.
    + destruct (space_then_Some _ _ _ E) as (ws & rest & -> & _ & Hws).
      rewrite (drop_commas_delete _ _ _ Hws Hcl). constructor; [done|].
      apply IH. rewrite length_app in Hlen. simpl in Hlen. lia.
    + cbn [drop_commas]. change (cCOMMA =? cCOMMA) with true. cbn iota. rewrite E.
      apply cd_keep; [|apply IH; lia]. right.
      intros H%(before_closer_space_then _ _ Hcl). rewrite E in H. by destruct H.
  - cbn [drop_commas]. rewrite (proj2 (N.eqb_neq _ _) Hc).
    apply cd_keep; [by left | apply IH; lia].
Qed.

Lemma commas_deleted_fun closer s t :
  is_space closer = false -> commas_deleted closer s t -> t = drop_commas closer O s.
Proof.
  intros Hcl. induction 1 as [|ws s t Hws _ IH|c s t Hkeep _ IH]; [done| |].
  - by rewrite (drop_commas_delete _ _ _ Hws Hcl), IH.
  - cbn [drop_commas]. destruct (N.eqb_spec c cCOMMA) as [->|Hc]; [|by rewrite IH].
    destruct Hkeep as [Hkeep|Hkeep]; [done|].
    destruct (space_then closer s) as [m|] eqn:E; [|by rewrite IH].
    destruct Hkeep. apply (before_closer_space_then _ _ Hcl). by eexists.
Qed.

(** C1. The priority chain of the normalizer: an input that is an object is
    returned as it is; a string that is valid JSON gives its direct parse,
    with no repair; otherwise the span from the first opening brace to the
    last closing brace is taken, its line breaks are collapsed to spaces,
    then its single quotes are replaced by double quotes, then its commas
    before a closing brace and then those before a closing bracket are
    deleted, and the result is parsed; when that fails too, or when there
    is no such span, normalization fails (it returns null).  Each of the
    four repairs is the one described, and each determines its result. *)
Theorem safeParseJSON_priority_chain :
  (forall text w, typeof_object text = true -> safeParseJSON text w = (Ok text, w))
  /\ (forall P v w, JSON_parse P = Some v -> safeParseJSON (VStr P) w = (Ok v, w))
  /\ (forall s span w,
        JSON_parse s = None -> match_span s = Some span ->
        (exists pre mid post,
            s = pre ++ span ++ post /\ span = cLBRACE :: mid ++ [cRBRACE]
            /\ (cLBRACE ∉ pre) /\ (cRBRACE ∉ post))
        /\ (exists t1 t2 t3 t4,
               breaks_collapsed span t1
               /\ quotes_replaced t1 t2
               /\ commas_deleted cRBRACE t2 t3
               /\ commas_deleted cRBRACK t3 t4
               /\ safeParseJSON (VStr s) w =
                  match JSON_parse t4 with
                  | Some v => (Ok v, w)
                  | None => (Ok VNull, logged w StillInvalidAfterCleanup)
                  end)
        /\ safeParseJSON (VStr s) w =
           match JSON_parse
                   (drop_commas cRBRACK O
                      (drop_commas cRBRACE O
                         (double_quotes (collapse_breaks span)))) with
           | Some v => (Ok v, w)
           | None => (Ok VNull, logged w StillInvalidAfterCleanup)
           end)
  /\ (forall s w,
        JSON_parse s = None -> match_span s = None ->
        safeParseJSON (VStr s) w = (Ok VNull, w))
  /\ (forall s t t', breaks_collapsed s t -> breaks_collapsed s t' -> t = t')
  /\ (forall s t t', quotes_replaced s t -> quotes_replaced s t' -> t = t')
  /\ (forall closer s t t',
        closer = cRBRACE \/ closer = cRBRACK ->
        commas_deleted closer s t -> commas_deleted closer s t' -> t = t').
Proof.
  split; [|split; [|split; [|split; [|split; [|split]]]]].
  - intros text w H. by destruct text.
  - intros P v w H. by rewrite safeParseJSON_string, H.
  - intros s span w Hs Hspan. split; [by apply match_span_Some|].
    assert (safeParseJSON (VStr s) w =
            match JSON_parse (cleaned span) with
            | Some v => (Ok v, w)
            | None => (Ok VNull, logged w StillInvalidAfterCleanup)
            end) as Hrun by (by rewrite safeParseJSON_string, Hs, Hspan).
    split; [|exact Hrun].
    exists (collapse_breaks span), (double_quotes (collapse_breaks span)),
      (drop_commas cRBRACE O (double_quotes (collapse_breaks span))), (cleaned span).
    split; [apply collapse_breaks_described|].
    split; [apply double_quotes_described|].
    split; [by eapply drop_commas_described|].
    split; [by eapply drop_commas_described|].
    exact Hrun.
  - intros s w H H0. by rewrite safeParseJSON_string, H, H0.
  - intros s t t' H H'. by rewrite (breaks_collapsed_fun _ _ H), (breaks_collapsed_fun _ _ H').
  - intros s t t' H H'. by rewrite (quotes_replaced_fun _ _ H), (quotes_replaced_fun _ _ H').
  - intros closer s t t' Hcl H H'.
    destruct (closer_facts _ Hcl) as [Hsp _].
    by rewrite (commas_deleted_fun _ _ _ Hsp H), (commas_deleted_fun _ _ _ Hsp H').
Qed.

Lemma safeParseJSON_priority_chain_witness :
  safeParseJSON (VObj [(u "summary", VStr (u "ok"))]) empty_world
  = (Ok (VObj [(u "summary", VStr (u "ok"))]), empty_world)
  /\ safeParseJSON (VStr (j "{`summary`:`ok`}")) empty_world
     = (Ok (VObj [(u "summary", VStr (u "ok"))]), empty_world)
  /\ (exists t1 t2 t3 t4,
         breaks_collapsed ([123; 13; 10] ++ j "'summary':'ok'," ++ [10; 125]) t1
         /\ quotes_replaced t1 t2
         /\ commas_deleted cRBRACE t2 t3
         /\ commas_deleted cRBRACK t3 t4
         /\ t1 = j "{ 'summary':'ok', }"
         /\ t2 = j "{ `summary`:`ok`, }"
         /\ t3 = j "{ `summary`:`ok`}"
         /\ t4 = j "{ `summary`:`ok`}")
  /\ safeParseJSON
       (VStr (u "Here it is: " ++ [123; 13; 10] ++ j "'summary':'ok'," ++ [10; 125]
              ++ u " Bye")) empty_world
     = (Ok (VObj [(u "summary", VStr (u "ok"))]), empty_world)
  /\ safeParseJSON (VStr (j "no report today")) empty_world
     = (Ok VNull, empty_world).
Proof.
  destruct safeParseJSON_priority_chain as (H1 & H2 & H3 & H4 & _).
  split; [by apply H1|].
  split; [by apply H2|].
  destruct (H3 (u "Here it is: " ++ [123; 13; 10] ++ j "'summary':'ok'," ++ [10; 125]
                ++ u " Bye")
               ([123; 13; 10] ++ j "'summary':'ok'," ++ [10; 125])
               empty_world eq_refl eq_refl)
    as (_ & (t1 & t2 & t3 & t4 & Hb & Hq & Hc1 & Hc2 & _) & Hrun).
  split; [|split; [|by apply H4]].
  - exists t1, t2, t3, t4.
    pose proof (breaks_collapsed_fun _ _ Hb) as E1.
    pose proof (quotes_replaced_fun _ _ Hq) as E2.
    pose proof (commas_deleted_fun cRBRACE _ _ eq_refl Hc1) as E3.
    pose proof (commas_deleted_fun cRBRACK _ _ eq_refl Hc2) as E4.
    split; [exact Hb|]. split; [exact Hq|]. split; [exact Hc1|]. split; [exact Hc2|].
    subst t1 t2 t3 t4. repeat split; vm_compute; reflexivity.
  - rewrite Hrun. vm_compute. reflexivity.
Defined.

(** [safeParseJSON] writes to the console at most; it touches no file. *)
Lemma safeParseJSON_world text w :
  scratch (snd (safeParseJSON text w)) = scratch w
  /\ unlinked (snd (safeParseJSON text w)) = unlinked w
  /\ (console (snd (safeParseJSON text w)) = console w
      \/ console (snd (safeParseJSON text w)) = console w ++ [StillInvalidAfterCleanup]).
Proof.
  destruct text as [| |b|n|s|es xs|ps]; try (by repeat split; left).
  - destruct b; by repeat split; left.
  - unfold safeParseJSON. cbn [truthy typeof_object JSON_parse_any].
    destruct (negb (negb (num_is_zero n))); [by repeat split; left|].
    destruct (num_is_infinite n); by repeat split; left.
  - rewrite safeParseJSON_string.
    destruct (JSON_parse s); [by repeat split; left|].
    destruct (match_span s); [|by repeat split; left].
    destruct (JSON_parse (cleaned j0)); [by repeat split; left|].
    repeat split. by right.
Qed.

(** A string, an object and a missing text never make it throw. *)
Lemma safeParseJSON_returns text w :
  is_string text = true \/ typeof_object text = true \/ text = VUndef ->
  exists v, fst (safeParseJSON text w) = Ok v.
Proof.
  intros [H | [H | ->]].
  - destruct text; try done. rewrite safeParseJSON_string.
    destruct (JSON_parse s); [by eexists|].
    destruct (match_span s); [|by eexists].
    destruct (JSON_parse (cleaned j0)); by eexists.
  - destruct text; try done; by eexists.
  - by eexists.
Qed.

(** C5. A text on which the direct parse fails, and on which the parse of
    the repaired span fails when there is a span, makes normalization fail:
    [safeParseJSON] returns null without throwing, the route answers with
    status 500 and the message AI returned invalid JSON; the only effect of
    normalization is at most one line on the console. *)
Theorem unrecoverable_text_is_invalid_output s w :
  JSON_parse s = None ->
  (forall span, match_span s = Some span -> JSON_parse (cleaned span) = None) ->
  fst (safeParseJSON (VStr s) w) = Ok VNull
  /\ scratch (snd (safeParseJSON (VStr s) w)) = scratch w
  /\ unlinked (snd (safeParseJSON (VStr s) w)) = unlinked w
  /\ (console (snd (safeParseJSON (VStr s) w)) = console w
      \/ console (snd (safeParseJSON (VStr s) w))
         = console w ++ [StillInvalidAfterCleanup])
  /\ (forall up filePath fid r,
        files_create up = Ok fid ->
        responses_create up = Ok r ->
        truthy (output_parsed r) = false ->
        output_text r = VStr s ->
        fst (analyze up (Some filePath) w)
        = Ok (mkResponse 500 (Error (Literal (u "AI returned invalid JSON"))))).
Proof.
  intros Hs Hspan.
  assert (fst (safeParseJSON (VStr s) w) = Ok VNull) as Hnull.
  { rewrite safeParseJSON_string, Hs.
    destruct (match_span s) as [span|] eqn:E; [|done].
    by rewrite (Hspan span eq_refl). }
  split; [done|].
  destruct (safeParseJSON_world (VStr s) w) as (H1 & H2 & H3).
  repeat split; try done.
  intros up filePath fid r Hf Hr Hp Ht.
  unfold analyze, upstream_calls, respond, try_catch, bind, lift, fs_unlink.
  rewrite Hf, Hr, Hp, Ht.
  set (w1 := released w filePath).
  assert (fst (safeParseJSON (VStr s) w1) = Ok VNull) as Hnull1.
  { rewrite safeParseJSON_string, Hs.
    destruct (match_span s) as [span|] eqn:E; [|done].
    by rewrite (Hspan span eq_refl). }
  destruct (safeParseJSON (VStr s) w1) as [[v|e] w2]; simpl in Hnull1; [|done].
  by injection Hnull1 as ->.
Qed.

Lemma unrecoverable_text_is_invalid_output_witness :
  fst (safeParseJSON (VStr (j "{`patient`: {`name`: `Jane")) empty_world) = Ok VNull
  /\ fst (analyze (mkUp (Ok (u "file-1"))
                        (Ok (mkApi VUndef (VStr (j "{`patient`: {`name`: `Jane")))))
                  (Some (u "uploads/1700000000000.pdf")) empty_world)
     = Ok (mkResponse 500 (Error (Literal (u "AI returned invalid JSON")))).
Proof.
  assert (forall span, match_span (j "{`patient`: {`name`: `Jane") = Some span ->
                       JSON_parse (cleaned span) = None) as Hspan
      by (intros span H; vm_compute in H; discriminate).
  destruct (unrecoverable_text_is_invalid_output
              (j "{`patient`: {`name`: `Jane") empty_world eq_refl Hspan)
    as (H1 & _ & _ & _ & H2).
  split; [exact H1|]. by eapply H2.
Defined.

(** ** The route *)

Lemma assoc_get_set k v ps : assoc_get k (assoc_set k v ps) = Some v.
Proof.
  induction ps as [|[k' v'] ps IH]; simpl.
  - by rewrite decide_True.
  - destruct (decide (k = k')); simpl.
    + by rewrite decide_True.
    + by rewrite decide_False.
Qed.

Lemma assoc_get_set_ne k k' v ps :
  k <> k' -> assoc_get k (assoc_set k' v ps) = assoc_get k ps.
Proof.
  intros Hne. induction ps as [|[k'' v''] ps IH]; simpl.
  - by rewrite decide_False.
  - destruct (decide (k' = k'')) as [<-|]; simpl.
    + by rewrite !decide_False.
    + by rewrite IH.
Qed.

(** The coercion of one field: when it returns, the field is an array, the
    one that was there or an empty one, and the other fields are as they
    were. *)
Lemma coerce_array_field k parsed w parsed' :
  fst (coerce_array k parsed w) = Ok parsed' ->
  (exists a, get_named k parsed' = Ok a /\ is_array a = true
             /\ forall old, get_named k parsed = Ok old ->
                            a = if is_array old then old else VArr [] [])
  /\ forall k', k' <> k -> get_named k' parsed' = get_named k' parsed.
Proof.
  unfold coerce_array, bind, lift, ret.
  destruct parsed as [| |b|n|s|es xs|ps]; try done.
  - cbn [get_named set_named].
    destruct (is_array (default VUndef (assoc_get k xs))) eqn:Ha; cbn [negb fst].
    + intros [= <-]. split; [|done]. eexists. repeat split; [done|].
      intros old [= <-]. by rewrite Ha.
    + intros [= <-]. split.
      * exists (VArr [] []). cbn [get_named]. rewrite assoc_get_set.
        repeat split. intros old [= <-]. by rewrite Ha.
      * intros k' Hne. cbn [get_named]. by rewrite assoc_get_set_ne.
  - cbn [get_named set_named].
    destruct (is_array (default VUndef (assoc_get k ps))) eqn:Ha; cbn [negb fst].
    + intros [= <-]. split; [|done]. eexists. repeat split; [done|].
      intros old [= <-]. by rewrite Ha.
    + intros [= <-]. split.
      * exists (VArr [] []). cbn [get_named]. rewrite assoc_get_set.
        repeat split. intros old [= <-]. by rewrite Ha.
      * intros k' Hne. cbn [get_named]. by rewrite assoc_get_set_ne.
Qed.

(** Every report the handler answers with has both fields as arrays. *)
Lemma report_fields_are_arrays up file w st report :
  fst (analyze up file w) = Ok (mkResponse st (Report report)) ->
  st = 200
  /\ (exists a, get_named (u "abnormal_findings") report = Ok a /\ is_array a = true)
  /\ (exists a, get_named (u "categorized_analysis") report = Ok a /\ is_array a = true).
Proof.
  destruct file as [filePath|]; [|done].
  unfold analyze, try_catch, bind, fs_unlink, console_error, ret.
  destruct (upstream_calls up w) as [[r|e] w0]; [|done].
  destruct (respond r (released w0 filePath)) as [[res|e] w4] eqn:Er; [|done].
  cbn [fst]. intros [= ->]. revert Er. unfold respond, bind, ret.
  set (norm := if truthy (output_parsed r) then _ else _).
  destruct (norm (released w0 filePath)) as [[parsed|e] w1]; [|done].
  destruct (truthy parsed); [|done].
  destruct (coerce_array (u "abnormal_findings") parsed w1) as [[p1|e1] w2] eqn:E1; [|done].
  destruct (coerce_array (u "categorized_analysis") p1 w2) as [[p2|e2] w3] eqn:E2; [|done].
  intros [= <- <- _]. split; [done|].
  pose proof (coerce_array_field _ _ _ p1 (f_equal fst E1)) as [(a1 & Ha1 & Hi1 & _) _].
  pose proof (coerce_array_field _ _ _ p2 (f_equal fst E2)) as [(a2 & Ha2 & Hi2 & _) Hother].
  split.
  - exists a1. split; [|done]. rewrite Hother; [done|]. discriminate.
  - by exists a2.
Qed.



(** C8. A request without a file is answered with status 400 and the error
    No file uploaded; nothing is written to the upload directory, nothing is
    unlinked and nothing is logged, whatever the clock and the upstream
    client would do. *)
Theorem route_without_file now up w :
  route now up None w
  = (Ok (mkResponse 400 (Error (Literal (u "No file uploaded")))), w)
  /\ upload_single now None w = (Ok None, w).
Proof.
  split.
  - unfold route, bind. cbn [upload_single ret]. reflexivity.
  - reflexivity.
Qed.

Lemma coerce_array_world k parsed w : snd (coerce_array k parsed w) = w.
Proof.
  unfold coerce_array, bind, lift, ret.
  destruct (get_named k parsed) as [field|e]; [|done].
  destruct (negb (is_array field)); [|done].
  by destruct (set_named k (VArr [] []) parsed).
Qed.

Lemma respond_world r w :
  scratch (snd (respond r w)) = scratch w
  /\ unlinked (snd (respond r w)) = unlinked w.
Proof.
  unfold respond, bind.
  set (norm := if truthy (output_parsed r) then _ else _).
  assert (scratch (snd (norm w)) = scratch w /\ unlinked (snd (norm w)) = unlinked w)
    as [Hs Hu].
  { subst norm. destruct (truthy (output_parsed r)); [done|].
    destruct (safeParseJSON_world (output_text r) w) as (? & ? & _). done. }
  destruct (norm w) as [[parsed|e] w1]; simpl in *; [|done].
  destruct (truthy parsed); [|done].
  pose proof (coerce_array_world (u "abnormal_findings") parsed w1) as H1.
  destruct (coerce_array (u "abnormal_findings") parsed w1) as [[p1|e1] w2];
    simpl in H1; subst w2; [|done].
  pose proof (coerce_array_world (u "categorized_analysis") p1 w1) as H2.
  destruct (coerce_array (u "categorized_analysis") p1 w1) as [[p2|e2] w3];
    simpl in H2; subst w3; done.
Qed.

Lemma upstream_calls_world up w : snd (upstream_calls up w) = w.
Proof.
  unfold upstream_calls, bind, lift.
  destruct (files_create up); [|done]. by destruct (responses_create up).
Qed.

Lemma released_gone w path : path ∉ scratch (released w path).
Proof. simpl. intros [_ H]%elem_of_difference. apply H. by apply elem_of_singleton. Qed.

Lemma released_gone' w path : path ∉ scratch w ∖ {[path]}.
Proof. apply (released_gone w path). Qed.

(** Every exit of the handler has unlinked the temporary file: once, or
    twice when the code after the first [fs.unlink] throws. *)
Lemma analyze_releases up filePath w :
  (filePath ∉ scratch (snd (analyze up (Some filePath) w)))
  /\ (unlinked (snd (analyze up (Some filePath) w)) = unlinked w ++ [filePath]
      \/ unlinked (snd (analyze up (Some filePath) w))
         = unlinked w ++ [filePath; filePath]).
Proof.
  unfold analyze, try_catch, bind, fs_unlink, console_error, ret.
  pose proof (upstream_calls_world up w) as Hw.
  destruct (upstream_calls up w) as [[r|e] w0]; simpl in Hw; subst w0.
  - destruct (respond_world r (released w filePath)) as [Hs Hu].
    destruct (respond r (released w filePath)) as [[res|e] w2]; simpl in *.
    + rewrite Hs, Hu. split; [apply released_gone' | by left].
    + split; [apply released_gone' | right; by rewrite Hu, <- app_assoc].
  - split; [apply released_gone' | by left].
Qed.

Lemma analyze_releases_once up filePath w :
  (forall r e, fst (upstream_calls up w) = Ok r ->
               fst (respond r (released w filePath)) <> Throw e) ->
  unlinked (snd (analyze up (Some filePath) w)) = unlinked w ++ [filePath].
Proof.
  intros Hok. unfold analyze, try_catch, bind, fs_unlink, console_error, ret.
  pose proof (upstream_calls_world up w) as Hw.
  destruct (upstream_calls up w) as [[r|e] w0]; simpl in Hw; subst w0; [|done].
  destruct (respond_world r (released w filePath)) as [_ Hu].
  specialize (Hok r). simpl in Hok.
  destruct (respond r (released w filePath)) as [[res|e] w2]; simpl in *; [done|].
  by destruct (Hok e eq_refl).
Qed.

Lemma analyze_releases_twice up filePath w r e :
  fst (upstream_calls up w) = Ok r ->
  fst (respond r (released w filePath)) = Throw e ->
  unlinked (snd (analyze up (Some filePath) w)) = unlinked w ++ [filePath; filePath].
Proof.
  intros Hup Hthrow. unfold analyze, try_catch, bind, fs_unlink, console_error, ret.
  pose proof (upstream_calls_world up w) as Hw.
  destruct (upstream_calls up w) as [[r'|e'] w0]; simpl in *; subst w0; [|done].
  injection Hup as ->.
  destruct (respond_world r (released w filePath)) as [_ Hu].
  destruct (respond r (released w filePath)) as [[res|e'] w2]; simpl in *; [done|].
  by rewrite Hu, <- app_assoc.
Qed.

(** C6, at the failing input.  The upstream client returns the text 5: the
    direct parse gives the number 5, the coercion of [abnormal_findings]
    throws after the file was unlinked, and the [catch] block unlinks it a
    second time. *)
Theorem late_throw_unlinks_twice :
  unlinked
    (snd (route 1700000000000
                (mkUp (Ok (u "file-1")) (Ok (mkApi VUndef (VStr (u "5")))))
                (Some (u "report.pdf")) empty_world))
  = [u "uploads/1700000000000.pdf"; u "uploads/1700000000000.pdf"].
Proof. vm_compute. reflexivity. Qed.

(** C2, at the failing input.  The same text 5 is a successful
    normalization, and the replacement of the missing field throws: the
    route answers with status 500 and the message of the [TypeError]. *)
Theorem coercion_throws_on_primitive :
  fst (safeParseJSON (VStr (u "5")) empty_world) = Ok (VNum (mkNum false 5 0))
  /\ fst (route 1700000000000
                (mkUp (Ok (u "file-1")) (Ok (mkApi VUndef (VStr (u "5")))))
                (Some (u "report.pdf")) empty_world)
     = Ok (mkResponse 500
             (Error (MessageOf (CannotCreateProperty (u "abnormal_findings")
                                                     (VNum (mkNum false 5 0)))))).
Proof. split; vm_compute; reflexivity. Qed.

(** ** The stored name *)

Lemma uint_units_inj d d' : uint_units d = uint_units d' -> d = d'.
Proof.
  revert d'. induction d; destruct d'; simpl; intros [=]; f_equal; auto.
Qed.

Lemma decimal_inj n m : decimal n = decimal m -> n = m.
Proof.
  unfold decimal. intros H%uint_units_inj.
  rewrite <- (DecimalN.Unsigned.of_to n), <- (DecimalN.Unsigned.of_to m). by rewrite H.
Qed.

Lemma uint_units_no_dot d : cDOT ∉ uint_units d.
Proof.
  induction d; simpl; [intros H; inversion H|..];
    apply not_elem_of_cons; split; done.
Qed.

Lemma app_pivot_inj (x : N) l1 l2 r1 r2 :
  (x ∉ l1) -> (x ∉ l2) -> l1 ++ x :: r1 = l2 ++ x :: r2 -> l1 = l2 /\ r1 = r2.
Proof.
  revert l2. induction l1 as [|a l1 IH]; intros [|b l2] H1 H2; simpl.
  - by intros [= ->].
  - intros [= <- _]. by apply not_elem_of_cons in H2 as [? _].
  - intros [= -> _]. by apply not_elem_of_cons in H1 as [? _].
  - intros [= -> H]. apply not_elem_of_cons in H1 as [_ H1].
    apply not_elem_of_cons in H2 as [_ H2].
    destruct (IH _ H1 H2 H) as [-> ->]. done.
Qed.

(** The scan of [extname] keeps [startDot] at a dot that lies before
    [end]. *)
Lemma ext_scan_dot path b :
  forall suf i st,
    path = rev b ++ suf ->
    i = (Z.of_nat (length b) - 1)%Z ->
    (end_ st = -1 \/ i < end_ st)%Z ->
    (startDot st = -1
     \/ (0 <= startDot st < end_ st)%Z
        /\ path !! Z.to_nat (startDot st) = Some cDOT)%Z ->
    (startDot (ext_scan b i st) = -1
     \/ (0 <= startDot (ext_scan b i st) < end_ (ext_scan b i st))%Z
        /\ path !! Z.to_nat (startDot (ext_scan b i st)) = Some cDOT)%Z.
Proof.
  induction b as [|code rest IH]; intros suf i st Hpath Hi Hend Hdot; [done|].
  assert (path !! Z.to_nat i = Some code) as Hcode.
  { subst path i. simpl rev. rewrite <- app_assoc.
    rewrite lookup_app_r by (rewrite length_rev; simpl length; lia).
    rewrite length_rev. simpl length.
    replace (Z.to_nat (Z.of_nat (S (length rest)) - 1) - length rest)%nat with O by lia.
    done. }
  assert (0 <= i)%Z as Hi0 by (subst i; simpl length; lia).
  cbn [ext_scan].
  destruct (ext_step st i code) as [st'|] eqn:E; [|exact Hdot].
  apply (IH (code :: suf) (i - 1)%Z st').
  - subst path. simpl rev. by rewrite <- app_assoc.
  - subst i. simpl length. lia.
  - revert E. unfold ext_step.
    destruct (code =? cSLASH).
    { destruct (negb (matchedSlash st)); intros [= <-]. lia. }
    destruct (Z.eqb_spec (end_ st) (-1)); cbn [end_ startDot];
      repeat case_match; intros [= <-]; cbn [end_]; lia.
  - revert E. unfold ext_step.
    destruct (code =? cSLASH).
    { destruct (negb (matchedSlash st)); intros [= <-]. exact Hdot. }
    destruct (N.eqb_spec code cDOT) as [->|Hne].
    + destruct (Z.eqb_spec (end_ st) (-1)); cbn [end_ startDot preDotState];
        repeat case_match; intros [= <-]; cbn [end_ startDot];
        try (right; split; [lia | exact Hcode]);
        (destruct Hdot as [Hd | [Hd1 Hd2]]; [by left | right; split; [lia | exact Hd2]]).
    + destruct (Z.eqb_spec (end_ st) (-1)); cbn [end_ startDot preDotState];
        repeat case_match; intros [= <-]; cbn [end_ startDot];
        (destruct Hdot as [Hd | [Hd1 Hd2]]; [by left | right; split; [lia | exact Hd2]]).
Qed.

(** [path.extname] gives the empty string or a string that starts with a
    dot. *)
Lemma extname_dot path : extname path = [] \/ exists r, extname path = cDOT :: r.
Proof.
  unfold extname.
  set (st := ext_scan _ _ _).
  destruct (ext_scan_dot path (rev path) [] (Z.of_nat (length path) - 1)
              (mkExt (-1) 0 (-1) true 0)) as [Hd | [Hd1 Hd2]].
  - by rewrite rev_involutive, app_nil_r.
  - by rewrite length_rev.
  - by left.
  - by left.
  - fold st in Hd. rewrite Hd. by left.
  - fold st in Hd1, Hd2. destruct (_ || _); [by left|]. right.
    unfold slice. rewrite (drop_S _ _ _ Hd2).
    destruct (Z.to_nat (end_ st - startDot st)) eqn:En; [lia|].
    simpl. by eexists.
Qed.

Lemma upload_ext_dot name : exists r, upload_ext name = cDOT :: r.
Proof.
  unfold upload_ext. destruct (extname_dot name) as [-> | [r ->]]; by eexists.
Qed.

(** C9, as stated, fails: two uploads whose names are made at the same
    reading of the clock, with the same extension, get the same stored
    name. *)
Lemma concurrent_uploads_counterexample :
  u "scan-A.pdf" <> u "scan-B.pdf"
  /\ filename 1700000000000 (u "scan-A.pdf") = filename 1700000000000 (u "scan-B.pdf").
Proof. split; [discriminate | reflexivity]. Qed.

(** C9, amended.  The stored name is the reading of the millisecond clock
    in decimal, followed by the extension of the original name, or by .pdf
    when the original name has no extension.  Two uploads get the same
    stored name exactly when their clock readings are equal and their
    extensions are equal. *)
Theorem stored_name_clock_and_extension :
  (forall now name,
      filename now name
      = decimal now ++ match extname name with [] => u ".pdf" | e => e end)
  /\ (forall t1 t2 name1 name2,
        filename t1 name1 = filename t2 name2
        <-> t1 = t2 /\ upload_ext name1 = upload_ext name2).
Proof.
  split; [reflexivity|].
  intros t1 t2 name1 name2. unfold filename. split.
  - destruct (upload_ext_dot name1) as [r1 ->], (upload_ext_dot name2) as [r2 ->].
    intros H. apply app_pivot_inj in H as [Ht ->]; try apply uint_units_no_dot.
    by rewrite (decimal_inj _ _ Ht).
  - by intros [-> ->].
Qed.

(** ** The category sections of the report *)

Section RendererProperties.

Variable unicode_lower : jsstring -> jsstring.

#[local] Abbreviation lower := (toLowerCase unicode_lower).
#[local] Abbreviation key_of := (entry_key unicode_lower).
#[local] Abbreviation last_of := (last_summary unicode_lower).
#[local] Abbreviation sections := (category_sections unicode_lower).

(** The section of a category, as the last entry filed under its key
    decides it. *)
#[local] Abbreviation section_of entries :=
  (fun cat =>
     if negb (truthy (default VUndef (last_of (lower cat) entries))) then None
     else Some (cat, default VUndef (last_of (lower cat) entries))).

(** What one turn of [forEach] does with an entry of the schema. *)
Lemma add_category_shaped e c :
  entry_shaped e = true ->
  proto c = ObjectPrototype ->
  own c !! u "__proto__" = None ->
  exists c',
    add_category unicode_lower e c = Ok c'
    /\ proto c' = ObjectPrototype
    /\ own c' !! u "__proto__" = None
    /\ forall k, k <> u "__proto__" ->
                 own c' !! k = if bool_decide (key_of e = Some k)
                               then Some (entry_summary e) else own c !! k.
Proof.
  intros Hshape Hproto Hown. destruct e as [| | | | | |ps]; try done.
  unfold entry_shaped in Hshape. apply andb_true_iff in Hshape as [Hcat Hsum].
  unfold add_category, get_named, entry_key, entry_summary.
  destruct (assoc_get (u "category") ps) as [[| | | |s| |]|]; try done.
  - destruct s as [|x s]; cbn [default truthy negb id].
    + exists c. repeat split; try done; intros k _; by rewrite bool_decide_eq_false_2.
    + set (key := lower (trim (x :: s))).
      set (summary := default VUndef (assoc_get (u "summary") ps)).
      assert (cats_set key summary c
              = if bool_decide (key = u "__proto__") then c
                else mkCats (<[key := summary]> (own c)) (proto c)) as Hset.
      { unfold cats_set. destruct (bool_decide_reflect (key = u "__proto__")) as [->|Hne].
        - rewrite Hown, Hproto.
          rewrite bool_decide_eq_false_2 by (by intros [? ?]).
          cbn [andb reaches_proto_accessor]. subst summary.
          destruct (assoc_get (u "summary") ps) as [[| | | |?| |]|]; done.
        - cbn [andb]. by destruct (bool_decide (is_Some (own c !! key))). }
      exists (cats_set key summary c). rewrite Hset. split; [done|].
      destruct (bool_decide_reflect (key = u "__proto__")) as [Hk|Hne].
      * repeat split; try done. intros k Hk'.
        rewrite bool_decide_eq_false_2; [done|]. intros [= ?]. congruence.
      * cbn [proto own]. repeat split; try done.
        { by rewrite lookup_insert_ne. }
        intros k _. destruct (bool_decide_reflect (Some key = Some k)) as [[= ->]|Hk].
        -- by rewrite lookup_insert_eq.
        -- rewrite lookup_insert_ne; [done|]. congruence.
  - cbn [default truthy negb id].
    exists c. repeat split; try done; intros k _; by rewrite bool_decide_eq_false_2.
Qed.

Lemma add_categories_shaped entries :
  Forall (fun e => entry_shaped e = true) entries ->
  forall c,
    proto c = ObjectPrototype ->
    own c !! u "__proto__" = None ->
    exists c',
      add_categories unicode_lower entries c = Ok c'
      /\ proto c' = ObjectPrototype
      /\ forall k, k <> u "__proto__" ->
                   own c' !! k = match last_of k entries with
                                 | Some v => Some v
                                 | None => own c !! k
                                 end.
Proof.
  induction 1 as [|e entries He _ IH]; intros c Hproto Hown.
  - exists c. done.
  - destruct (add_category_shaped e c He Hproto Hown) as (c1 & Hc1 & Hp1 & Ho1 & Hk1).
    destruct (IH c1 Hp1 Ho1) as (c' & Hc' & Hp' & Hk').
    exists c'. cbn [add_categories]. rewrite Hc1. repeat split; try done.
    intros k Hk. rewrite (Hk' k Hk). cbn [last_summary].
    destruct (last_of k entries); [done|]. rewrite (Hk1 k Hk).
    by destruct (bool_decide (key_of e = Some k)).
Qed.

Lemma taxonomy_keys_plain :
  Forall (fun cat => lower cat <> u "__proto__") categoryOrder.
Proof. repeat constructor; vm_compute; discriminate. Qed.

Lemma omap_ext_Forall {A B} (f g : A -> option B) l :
  Forall (fun x => f x = g x) l -> omap f l = omap g l.
Proof.
  induction 1 as [|x l Hx _ IH]; [done|].
  change (omap f (x :: l))
    with (match f x with Some y => y :: omap f l | None => omap f l end).
  change (omap g (x :: l))
    with (match g x with Some y => y :: omap g l | None => omap g l end).
  by rewrite Hx, IH.
Qed.

(** The sections of a report whose entries are of the schema. *)
Lemma category_sections_shaped entries others :
  Forall (fun e => entry_shaped e = true) entries ->
  sections (report_with entries others)
  = Ok (omap (section_of entries) categoryOrder).
Proof.
  intros Hshape. unfold category_sections, normalizedCategories, report_with, get_named.
  rewrite assoc_get_set. cbn [default truthy negb id].
  destruct (add_categories_shaped entries Hshape no_categories eq_refl)
    as (c & -> & Hp & Hk); [done|].
  f_equal. apply omap_ext_Forall.
  eapply Forall_impl; [apply taxonomy_keys_plain|].
  intros cat Hcat. unfold category_section, cats_get.
  rewrite (Hk _ Hcat), Hp. cbn [own no_categories]. rewrite lookup_empty.
  by destruct (last_of (lower cat) entries).
Qed.

Lemma sections_sublist {A B} (f : A -> option (A * B)) l :
  (forall x y, f x = Some y -> fst y = x) ->
  sublist (map fst (omap f l)) l.
Proof.
  intros Hf. induction l as [|x l IH]; [constructor|].
  change (omap f (x :: l))
    with (match f x with Some y => y :: omap f l | None => omap f l end).
  destruct (f x) as [y|] eqn:E.
  - rewrite map_cons, (Hf _ _ E). by constructor.
  - by constructor.
Qed.

Lemma last_summary_app k l1 l2 :
  last_of k (l1 ++ l2)
  = match last_of k l2 with Some v => Some v | None => last_of k l1 end.
Proof.
  induction l1 as [|e l1 IH]; simpl.
  - by destruct (last_of k l2).
  - rewrite IH. by destruct (last_of k l2).
Qed.

Lemma last_summary_other k l1 e l2 :
  key_of e <> Some k -> last_of k (l1 ++ e :: l2) = last_of k (l1 ++ l2).
Proof.
  intros Hne. rewrite !last_summary_app. cbn [last_summary].
  destruct (last_of k l2); [done|]. by rewrite bool_decide_eq_false_2.
Qed.

Lemma last_summary_none k l :
  Forall (fun e => key_of e <> Some k) l -> last_of k l = None.
Proof.
  induction 1 as [|e l He _ IH]; [done|]. cbn [last_summary].
  by rewrite IH, bool_decide_eq_false_2.
Qed.

Lemma last_summary_from k l v :
  last_of k l = Some v -> exists e, e ∈ l /\ key_of e = Some k /\ entry_summary e = v.
Proof.
  induction l as [|e l IH]; [done|]. cbn [last_summary].
  destruct (last_of k l) as [v'|].
  - intros [= ->]. destruct (IH eq_refl) as (e' & ? & ? & ?).
    exists e'. split; [by right | done].
  - destruct (bool_decide_reflect (key_of e = Some k)); [|done].
    intros [= <-]. exists e. split; [by left | done].
Qed.

Lemma entry_key_category e k :
  key_of e = Some k ->
  exists s, get_named (u "category") e = Ok (VStr s) /\ lower (trim s) = k.
Proof.
  destruct e as [| | | | | |ps]; try done. cbn [entry_key get_named].
  destruct (assoc_get (u "category") ps) as [[| | | |[|c s]| |]|]; try done.
  intros [= <-]. by eexists.
Qed.

Lemma section_in entries cat v :
  (cat, v) ∈ omap (section_of entries) categoryOrder
  <-> (cat ∈ categoryOrder) /\ truthy v = true
      /\ last_of (lower cat) entries = Some v.
Proof.
  rewrite list_elem_of_omap. split.
  - intros (x & Hx & Hsec).
    destruct (last_of (lower x) entries) as [v'|] eqn:E; cbn [default id] in Hsec.
    + destruct (truthy v') eqn:Ht; cbn [negb] in Hsec; [|done].
      injection Hsec as -> ->. by rewrite E.
    + done.
  - intros (Hcat & Ht & Hlast). exists cat. split; [done|].
    rewrite Hlast. cbn [default id]. by rewrite Ht.
Qed.

(** C7. For a report whose [categorized_analysis] entries are of the
    schema, in any order and with any category names: the category
    sections are rendered in the order of the taxonomy; a section is
    rendered only for a category that an entry names, up to surrounding
    white space and letter case, and shows the summary of such an entry;
    an entry whose name matches no category of the taxonomy leaves the
    rendered sections as they are without it. *)
Theorem categories_in_taxonomy_order entries others :
  Forall (fun e => entry_shaped e = true) entries ->
  exists secs,
    sections (report_with entries others) = Ok secs
    /\ sublist (map fst secs) categoryOrder
    /\ (forall cat v,
           (cat, v) ∈ secs ->
           (cat ∈ categoryOrder) /\ truthy v = true
           /\ exists e s,
               (e ∈ entries)
               /\ get_named (u "category") e = Ok (VStr s)
               /\ lower (trim s) = lower cat
               /\ entry_summary e = v)
    /\ (forall cat v,
           (cat ∈ categoryOrder) ->
           last_of (lower cat) entries = Some v -> truthy v = true ->
           (cat, v) ∈ secs)
    /\ (forall l1 e l2,
           entries = l1 ++ e :: l2 ->
           (forall cat, (cat ∈ categoryOrder) -> key_of e <> Some (lower cat)) ->
           sections (report_with (l1 ++ l2) others) = Ok secs).
Proof.
  intros Hshape. eexists. split; [by apply category_sections_shaped|].
  split; [|split; [|split]].
  - apply sections_sublist. intros x y.
    destruct (negb _); [done|]. by intros [= <-].
  - intros cat v (Hcat & Ht & Hlast)%section_in.
    repeat split; try done.
    destruct (last_summary_from _ _ _ Hlast) as (e & He & Hkey & Hsum).
    destruct (entry_key_category _ _ Hkey) as (s & Hs & Hk).
    by exists e, s.
  - intros cat v Hcat Hlast Ht. by apply section_in.
  - intros l1 e l2 -> Hunknown.
    rewrite category_sections_shaped.
    2:{ apply Forall_app in Hshape as [H1 H2]. apply Forall_app. split; [done|].
        by inversion H2. }
    f_equal. apply omap_ext_Forall. apply Forall_forall. intros cat Hcat.
    by rewrite (last_summary_other _ _ _ _ (Hunknown cat Hcat)).
Qed.

(** C10. Among the entries whose names trim and fold to the same category
    of the taxonomy, the last one decides: the section shows its summary
    and no other, and is rendered when that summary is not empty.  An
    entry whose category is absent or the empty string changes nothing in
    what is rendered. *)
Theorem last_entry_of_a_category_wins entries others :
  Forall (fun e => entry_shaped e = true) entries ->
  (forall l1 e l2 cat secs,
      entries = l1 ++ e :: l2 ->
      (cat ∈ categoryOrder) ->
      key_of e = Some (lower cat) ->
      Forall (fun e' => key_of e' <> Some (lower cat)) l2 ->
      sections (report_with entries others) = Ok secs ->
      (forall v, (cat, v) ∈ secs -> v = entry_summary e)
      /\ (truthy (entry_summary e) = true -> (cat, entry_summary e) ∈ secs))
  /\ (forall l1 e l2,
         entries = l1 ++ e :: l2 ->
         get_named (u "category") e = Ok VUndef
         \/ get_named (u "category") e = Ok (VStr []) ->
         sections (report_with entries others)
         = sections (report_with (l1 ++ l2) others)).
Proof.
  intros Hshape. split.
  - intros l1 e l2 cat secs -> Hcat Hkey Hafter.
    rewrite (category_sections_shaped _ _ Hshape). intros [= <-].
    assert (last_of (lower cat) (l1 ++ e :: l2) = Some (entry_summary e)) as Hlast.
    { rewrite last_summary_app. cbn [last_summary].
      rewrite (last_summary_none _ _ Hafter). by rewrite bool_decide_eq_true_2. }
    split.
    + intros v (_ & _ & Hv)%section_in. congruence.
    + intros Ht. by apply section_in.
  - intros l1 e l2 -> Hcat.
    assert (key_of e = None) as Hnone.
    { destruct e as [| | | | | |ps]; try done. cbn [entry_key get_named] in *.
      destruct (assoc_get (u "category") ps) as [[| | | |[|c s]| |]|]; try done;
        destruct Hcat as [[=] | [=]]. }
    rewrite !category_sections_shaped; try done.
    2:{ apply Forall_app in Hshape as [H1 H2]. apply Forall_app. split; [done|].
        by inversion H2. }
    f_equal. apply omap_ext_Forall. apply Forall_forall. intros cat _.
    rewrite last_summary_other; [done|]. by rewrite Hnone.
Qed.

End RendererProperties.

Lemma categories_in_taxonomy_order_witness :
  exists secs,
    category_sections (fun s => s)
      (report_with
         [ VObj [(u "category", VStr (u " OTHER ")); (u "summary", VStr (u "o"))];
           VObj [(u "category", VStr (u "Astrology")); (u "summary", VStr (u "a"))];
           VObj [(u "category", VStr (u "liver function")); (u "summary", VStr (u "l"))] ]
         [])
    = Ok secs
    /\ map fst secs = [u "Liver Function"; u "Other"].
Proof.
  destruct (categories_in_taxonomy_order (fun s => s)
              [ VObj [(u "category", VStr (u " OTHER ")); (u "summary", VStr (u "o"))];
                VObj [(u "category", VStr (u "Astrology")); (u "summary", VStr (u "a"))];
                VObj [(u "category", VStr (u "liver function")); (u "summary", VStr (u "l"))] ]
              [])
    as (secs & Hsecs & _).
  - repeat constructor.
  - exists secs. split; [exact Hsecs|].
    vm_compute in Hsecs. injection Hsecs as <-. reflexivity.
Defined.

Lemma last_entry_of_a_category_wins_witness :
  category_sections (fun s => s)
    (report_with
       [ VObj [(u "category", VStr (u "Haematology")); (u "summary", VStr (u "first"))];
         VObj [(u "summary", VStr (u "stray"))];
         VObj [(u "category", VStr (u " HAEMATOLOGY")); (u "summary", VStr (u "second"))] ]
       [])
  = Ok [(u "Haematology", VStr (u "second"))]
  /\ ((u "Haematology", VStr (u "second")) ∈ [(u "Haematology", VStr (u "second"))]).
Proof.
  assert (category_sections (fun s => s)
            (report_with
               [ VObj [(u "category", VStr (u "Haematology")); (u "summary", VStr (u "first"))];
                 VObj [(u "summary", VStr (u "stray"))];
                 VObj [(u "category", VStr (u " HAEMATOLOGY")); (u "summary", VStr (u "second"))] ]
               [])
          = Ok [(u "Haematology", VStr (u "second"))]) as Hsecs
      by (vm_compute; reflexivity).
  split; [exact Hsecs|].
  destruct (last_entry_of_a_category_wins (fun s => s)
              [ VObj [(u "category", VStr (u "Haematology")); (u "summary", VStr (u "first"))];
                VObj [(u "summary", VStr (u "stray"))];
                VObj [(u "category", VStr (u " HAEMATOLOGY")); (u "summary", VStr (u "second"))] ]
              []) as [Hlast _].
  - repeat constructor.
  - destruct (Hlast
                [ VObj [(u "category", VStr (u "Haematology")); (u "summary", VStr (u "first"))];
                  VObj [(u "summary", VStr (u "stray"))] ]
                (VObj [(u "category", VStr (u " HAEMATOLOGY")); (u "summary", VStr (u "second"))])
                [] (u "Haematology") [(u "Haematology", VStr (u "second"))] eq_refl)
      as [_ H2]; try done.
    + by left.
    + by apply H2.
Defined.

(** ** Examples *)

Example JSON_parse_accepts :
  JSON_parse (j "{`a`: [1, -2.5e3, true, null], `b`: {}, `a`: `A\n`}")
  = Some (VObj [(u "a", VStr [65; 10]); (u "b", VObj [])]).
Proof. reflexivity. Qed.

Example JSON_parse_rejects :
  map JSON_parse
      [[]; u "[1,]"; u "01"; u "1."; u "-"; u "tru"; u "[1 2]"; j "{'a':1}";
       j "{`a`:1,}"; j "`a"; [34; 10; 34]; [160; 49]]
  = [None; None; None; None; None; None; None; None; None; None; None; None].
Proof. reflexivity. Qed.

Example match_span_is_greedy :
  match_span (u "a {x{y}z} q} r{") = Some (u "{x{y}z} q}")
  /\ match_span (u "}{") = None.
Proof. split; reflexivity. Qed.

Example drop_commas_resumes_after_match :
  drop_commas cRBRACE O (u "{a, ,  }, }x,]") = u "{a, }}x,]".
Proof. reflexivity. Qed.

Example extname_examples :
  map extname
      [u "a.pdf"; u "a"; u ".bashrc"; u "a.b.c"; u "file."; u ".."; u "x/y.z/";
       u "a.b/c"; u "..a"]
  = [u ".pdf"; []; []; u ".c"; u "."; []; u ".z"; []; u ".a"].
Proof. reflexivity. Qed.

(** The second scenario of the specification: the object comes after a line
    of prose; the two arrays are filled in; no category section is
    rendered. *)
Example prose_then_object :
  fst (route 1700000000000
         (mkUp (Ok (u "file-1"))
               (Ok (mkApi VUndef
                      (VStr (u "Here is the result:" ++ [cLF]
                             ++ j "{`patient`:{`name`:`Jane Doe`},`summary`:`ok`}")))))
         (Some (u "blood.pdf")) empty_world)
  = Ok (mkResponse 200
          (Report (VObj [(u "patient", VObj [(u "name", VStr (u "Jane Doe"))]);
                         (u "summary", VStr (u "ok"));
                         (u "abnormal_findings", VArr [] []);
                         (u "categorized_analysis", VArr [] [])])))
  /\ category_sections (fun s => s)
       (VObj [(u "patient", VObj [(u "name", VStr (u "Jane Doe"))]);
              (u "summary", VStr (u "ok"));
              (u "abnormal_findings", VArr [] []);
              (u "categorized_analysis", VArr [] [])])
     = Ok [].
Proof. split; vm_compute; reflexivity. Qed.

(** Why the statements about the renderer ask for entries of the schema: a
    summary that is an object, filed under the name [__proto__], becomes
    the prototype of [normalizedCategories], and its members are found by
    the lookups of the render loop. *)
Example summary_object_under_proto :
  category_sections (fun s => s)
    (report_with
       [VObj [(u "category", VStr (u "__proto__"));
              (u "summary", VObj [(u "other", VStr (u "x"))])]]
       [])
  = Ok [(u "Other", VStr (u "x"))].
Proof. vm_compute. reflexivity. Qed.

(** * Further properties of the code *)

#[local] Arguments safeParseJSON_text : simpl never.

(** ** What the repair can return *)

Lemma parse_members_object f :
  forall ts acc v r, parse_members f ts acc = Some (v, r) -> exists ps, v = VObj ps.
Proof.
  induction f as [|f IH]; [done|]. intros ts acc v r. rewrite parse_members_S.
  destruct ts as [|t ts]; [done|]. destruct t; try done.
  destruct ts as [|t2 ts]; [done|]. destruct t2; try done.
  destruct (parse_value f ts) as [[v1 r1]|]; [|done].
  destruct r1 as [|t r1]; [done|]. destruct t; try done.
  - intros [= <- _]. by eexists.
  - apply IH.
Qed.

(** A JSON text that starts with an opening brace is the text of an
    object. *)
Lemma JSON_parse_brace rest v :
  JSON_parse (cLBRACE :: rest) = Some v -> exists ps, v = VObj ps.
Proof.
  unfold JSON_parse. cbn [lex]. change (step LStart cLBRACE) with (Some (LStart, [TLBrace])).
  cbn beta iota. destruct (lex LStart rest) as [ts|]; [|done].
  change ([TLBrace] ++ ts) with (TLBrace :: ts).
  unfold parse_tokens. rewrite parse_value_S.
  destruct ts as [|t ts]; [done|].
  destruct t;
    try (destruct (parse_members _ _ _) as [[v' r']|] eqn:E; [|done];
         destruct r'; [|done]; intros [= <-]; by eapply parse_members_object).
  destruct ts; [|done]. intros [= <-]. by eexists.
Qed.

Lemma cleaned_brace mid : exists rest, cleaned (cLBRACE :: mid) = cLBRACE :: rest.
Proof.
  unfold cleaned. rewrite collapse_breaks_cons.
  change (cLBRACE =? cCR) with false. change (cLBRACE =? cLF) with false. cbn iota.
  unfold double_quotes. rewrite map_cons. change (cLBRACE =? cSQUOTE) with false.
  cbn iota. cbn [drop_commas]. change (cLBRACE =? cCOMMA) with false. cbn iota.
  by eexists.
Qed.

Lemma match_span_brace text span :
  match_span text = Some span -> exists mid, span = cLBRACE :: mid.
Proof.
  intros (pre & mid & post & _ & -> & _)%match_span_Some. by eexists.
Qed.

(** X1. When the text is not valid JSON as it is, [safeParseJSON] returns
    null or an object: a number, a string, a boolean or an array comes out
    of the direct parse only. *)
Theorem safeParseJSON_repair_gives_object s w v :
  JSON_parse s = None ->
  fst (safeParseJSON (VStr s) w) = Ok v ->
  v = VNull \/ exists ps, v = VObj ps.
Proof.
  intros Hs. rewrite safeParseJSON_string, Hs.
  destruct (match_span s) as [span|] eqn:E; [|intros [= <-]; by left].
  destruct (match_span_brace _ _ E) as [mid ->].
  destruct (cleaned_brace mid) as [rest ->].
  destruct (JSON_parse (cLBRACE :: rest)) as [v'|] eqn:Ev; [|intros [= <-]; by left].
  intros [= <-]. right. by eapply JSON_parse_brace.
Qed.

Lemma safeParseJSON_repair_gives_object_witness :
  VObj [(u "a", VArr [VNum (mkNum false 1 0)] [])] = VNull
  \/ exists ps, VObj [(u "a", VArr [VNum (mkNum false 1 0)] [])] = VObj ps.
Proof.
  apply (safeParseJSON_repair_gives_object (j "[1, {'a': [1,]}, 2]") empty_world);
    vm_compute; reflexivity.
Defined.

(** ** The cleaned text *)

Lemma collapse_breaks_no_break s : (cCR ∉ collapse_breaks s) /\ (cLF ∉ collapse_breaks s).
Proof.
  pattern s, (collapse_breaks s). apply collapse_breaks_ind; clear s.
  - split; intros H; inversion H.
  - intros s r [H1 H2]. split; apply not_elem_of_cons; done.
  - intros c s r _ [H1 H2]. split; apply not_elem_of_cons; done.
  - intros c s r Hcr Hlf [H1 H2]. split; apply not_elem_of_cons; done.
Qed.

Lemma collapse_breaks_length s : (length (collapse_breaks s) <= length s)%nat.
Proof.
  pattern s, (collapse_breaks s). apply collapse_breaks_ind; clear s; simpl; intros; lia.
Qed.

Lemma double_quotes_keeps_absent c s :
  c <> cDQUOTE -> (c ∉ s) -> (c ∉ double_quotes s).
Proof.
  intros Hc. induction s as [|x s IH]; [done|].
  intros [Hx Hs]%not_elem_of_cons. unfold double_quotes. rewrite map_cons.
  apply not_elem_of_cons. split; [|by apply IH].
  destruct (x =? cSQUOTE); congruence.
Qed.

Lemma double_quotes_no_single s : cSQUOTE ∉ double_quotes s.
Proof.
  induction s as [|x s IH]; [intros H; inversion H|].
  unfold double_quotes. rewrite map_cons. apply not_elem_of_cons. split; [|done].
  destruct (N.eqb_spec x cSQUOTE); [done | congruence].
Qed.

Lemma space_then_closer closer s n : space_then closer s = Some n -> (closer ∈ s).
Proof.
  revert n. induction s as [|c s IH]; [done|]. intros n. cbn [space_then].
  destruct (N.eqb_spec c closer) as [->|]; [intros _; by left|].
  destruct (is_space c); [|done].
  destruct (space_then closer s) as [m|]; [|done]. intros _. right. by eapply IH.
Qed.

Lemma drop_commas_subset closer s :
  forall skip x, (x ∈ drop_commas closer skip s) -> (x ∈ s).
Proof.
  induction s as [|c s IH]; intros skip x; [done|]. cbn [drop_commas].
  destruct skip as [|k]; [|intros H; right; by eapply IH].
  destruct (c =? cCOMMA).
  - destruct (space_then closer s) as [n|] eqn:E.
    + intros [->|H]%elem_of_cons; right; [by eapply space_then_closer | by eapply IH].
    + intros [->|H]%elem_of_cons; [by left | right; by eapply IH].
  - intros [->|H]%elem_of_cons; [by left | right; by eapply IH].
Qed.

Lemma drop_commas_length closer s :
  forall skip, (length (drop_commas closer skip s) <= length s)%nat.
Proof.
  induction s as [|c s IH]; intros skip; [done|]. cbn [drop_commas].
  destruct skip as [|k]; [|specialize (IH k); simpl; lia].
  destruct (c =? cCOMMA); [destruct (space_then closer s)|];
    simpl; match goal with |- (S (length (drop_commas _ ?k _)) <= _)%nat =>
                             specialize (IH k); lia end.
Qed.

(** X2. After the four replacements the text holds no line break (CR or
    LF) and no single quote, and it is not longer than the span it was made
    from. *)
Theorem cleaned_has_no_break_no_single_quote span :
  (cCR ∉ cleaned span) /\ (cLF ∉ cleaned span) /\ (cSQUOTE ∉ cleaned span)
  /\ (length (cleaned span) <= length span)%nat.
Proof.
  destruct (collapse_breaks_no_break span) as [Hcr Hlf].
  unfold cleaned. repeat split.
  - intros H. do 2 apply drop_commas_subset in H.
    revert H. by apply double_quotes_keeps_absent.
  - intros H. do 2 apply drop_commas_subset in H.
    revert H. by apply double_quotes_keeps_absent.
  - intros H. do 2 apply drop_commas_subset in H.
    revert H. apply double_quotes_no_single.
  - etrans; [apply drop_commas_length|]. etrans; [apply drop_commas_length|].
    unfold double_quotes. rewrite length_map. apply collapse_breaks_length.
Qed.

(** ** The stored file stays in the upload directory *)

Lemma uint_units_no_slash d : cSLASH ∉ uint_units d.
Proof.
  induction d; simpl; [intros H; inversion H|..];
    apply not_elem_of_cons; split; done.
Qed.

(** The scan of [extname] never lets a slash in between [startDot] and
    [end]: a slash stops it as soon as [end] is set. *)
Lemma ext_scan_no_slash path b :
  forall suf i st,
    path = rev b ++ suf ->
    i = (Z.of_nat (length b) - 1)%Z ->
    (matchedSlash st = true -> end_ st = (-1)%Z) ->
    (end_ st = -1 -> startDot st = -1)%Z ->
    (end_ st = -1
     \/ i < end_ st
        /\ forall k, i < k < end_ st -> path !! Z.to_nat k <> Some cSLASH)%Z ->
    (startDot st = -1 \/ i < startDot st)%Z ->
    (startDot (ext_scan b i st) = -1
     \/ forall k, startDot (ext_scan b i st) <= k < end_ (ext_scan b i st) ->
                  path !! Z.to_nat k <> Some cSLASH)%Z.
Proof.
  induction b as [|code rest IH]; intros suf i st Hpath Hi Hm He Hfree Hdot.
  { simpl. destruct Hdot as [Hd|Hd]; [by left|]. right. intros k Hk.
    destruct Hfree as [Hf|[_ Hf]]; [specialize (He Hf); lia|]. apply Hf. lia. }
  assert (path !! Z.to_nat i = Some code) as Hcode.
  { subst path i. simpl rev. rewrite <- app_assoc.
    rewrite lookup_app_r by (rewrite length_rev; simpl length; lia).
    rewrite length_rev. simpl length.
    replace (Z.to_nat (Z.of_nat (S (length rest)) - 1) - length rest)%nat with O by lia.
    done. }
  assert (0 <= i)%Z as Hi0 by (subst i; simpl length; lia).
  assert (path = rev rest ++ code :: suf) as Hpath'.
  { subst path. simpl rev. by rewrite <- app_assoc. }
  assert (i - 1 = Z.of_nat (length rest) - 1)%Z as Hi' by (subst i; simpl length; lia).
  cbn [ext_scan].
  destruct (ext_step st i code) as [st'|] eqn:E.
  2:{ cbn [startDot end_]. destruct Hdot as [Hd|Hd]; [by left|]. right. intros k Hk.
      destruct Hfree as [Hf|[_ Hf]]; [specialize (He Hf); lia|]. apply Hf. lia. }
  revert E. unfold ext_step.
  destruct (N.eqb_spec code cSLASH) as [->|Hne].
  { destruct (matchedSlash st) eqn:Em; [|done]. intros [= <-].
    specialize (Hm eq_refl). specialize (He Hm).
    apply (IH (cSLASH :: suf) (i - 1)%Z st); try done; by left. }
  set (st1 := if (end_ st =? -1)%Z then _ else st).
  assert ((matchedSlash st1 = false)
          /\ (i < end_ st1)%Z
          /\ (forall k, i <= k < end_ st1 -> path !! Z.to_nat k <> Some cSLASH)%Z
          /\ (startDot st1 = startDot st)) as (Hm1 & Hlt & Hfree1 & Hsd).
  { subst st1. destruct (Z.eqb_spec (end_ st) (-1)) as [Heq|Heq].
    - cbn [matchedSlash end_ startDot]. repeat split; [lia|].
      intros k Hk. replace k with i by lia. rewrite Hcode. congruence.
    - destruct Hfree as [Hf|[Hlt Hf]]; [done|]. repeat split; [|done|].
      + destruct (matchedSlash st); [by specialize (Hm eq_refl)|done].
      + intros k Hk. destruct (Z.eq_dec k i) as [->|Hki]; [rewrite Hcode; congruence|].
        apply Hf. lia. }
  clearbody st1. intros E.
  apply (IH (code :: suf) (i - 1)%Z st'); try done.
  - revert E. repeat case_match; intros [= <-]; cbn [matchedSlash]; congruence.
  - revert E. repeat case_match; intros [= <-]; cbn [end_ startDot]; lia.
  - right. revert E. repeat case_match; intros [= <-]; cbn [end_];
      (split; [lia|]); intros k Hk; apply Hfree1; lia.
  - revert E. destruct (code =? cDOT).
    + destruct (Z.eqb_spec (startDot st1) (-1)).
      * intros [= <-]. cbn [startDot]. right. lia.
      * repeat case_match; intros [= <-]; cbn [startDot]; right; lia.
    + destruct (Z.eqb_spec (startDot st1) (-1)); cbn [negb].
      * intros [= <-]. by left.
      * intros [= <-]. cbn [startDot]. right. lia.
Qed.

Lemma extname_no_slash path : cSLASH ∉ extname path.
Proof.
  unfold extname.
  set (st := ext_scan _ _ _).
  destruct (Z.eqb_spec (startDot st) (-1)) as [Heq|Hsd]; [intros H; inversion H|].
  cbn [orb]. destruct (_ || _); [intros H; inversion H|].
  destruct (ext_scan_no_slash path (rev path) [] (Z.of_nat (length path) - 1)
              (mkExt (-1) 0 (-1) true 0)) as [Hd | Hd];
    try (cbn [matchedSlash end_ startDot]; auto).
  - by rewrite rev_involutive, app_nil_r.
  - by rewrite length_rev.
  - fold st in Hd.
    destruct (ext_scan_dot path (rev path) [] (Z.of_nat (length path) - 1)
                (mkExt (-1) 0 (-1) true 0)) as [Hd' | [Hd1 _]];
      try (cbn [end_ startDot]; auto).
    + by rewrite rev_involutive, app_nil_r.
    + by rewrite length_rev.
    + fold st in Hd1. unfold slice.
      intros (k & Hk)%list_elem_of_lookup.
      apply lookup_take_Some in Hk as [Hk Hlt].
      rewrite lookup_drop in Hk.
      apply (Hd (Z.of_nat (Z.to_nat (startDot st) + k))); [lia|].
      by rewrite Nat2Z.id.
Qed.

(** X3. The name multer stores an upload under holds no slash, whatever the
    original name is (a name such as ../../x.pdf included): the stored file
    lies directly in the upload directory, the only slash of its path being
    the one of the prefix. *)
Theorem stored_file_stays_in_uploads now name k :
  (cSLASH ∉ filename now name)
  /\ ((u "uploads/" ++ filename now name) !! k = Some cSLASH -> k = 7%nat).
Proof.
  assert (cSLASH ∉ filename now name) as Hno.
  { unfold filename, upload_ext. cbn zeta. intros [H|H]%elem_of_app.
    - by apply uint_units_no_slash in H.
    - destruct (extname name) as [|c e] eqn:E.
      + vm_compute in H. repeat (apply elem_of_cons in H as [H|H]; [done|]).
        inversion H.
      + rewrite <- E in H. by apply extname_no_slash in H. }
  split; [done|]. intros Hk.
  do 7 (destruct k as [|k]; [done|]).
  destruct k as [|k]; [done|]. exfalso. apply Hno.
  apply list_elem_of_lookup. exists k. exact Hk.
Qed.

(** ** The route as a whole *)

Lemma difference_twice (X : gset jsstring) p : X ∖ {[p]} ∖ {[p]} = X ∖ {[p]}.
Proof.
  apply set_eq. intros x. rewrite !elem_of_difference. intuition.
Qed.

Lemma written_then_released (X : gset jsstring) p : ({[p]} ∪ X) ∖ {[p]} = X ∖ {[p]}.
Proof.
  apply set_eq. intros x. rewrite !elem_of_difference, elem_of_union. intuition.
Qed.

Lemma analyze_scratch up filePath w :
  scratch (snd (analyze up (Some filePath) w)) = scratch w ∖ {[filePath]}.
Proof.
  unfold analyze, try_catch, bind, fs_unlink, console_error, ret.
  pose proof (upstream_calls_world up w) as Hw.
  destruct (upstream_calls up w) as [[r|e] w0]; simpl in Hw; subst w0; [|done].
  destruct (respond_world r (released w filePath)) as [Hs Hu].
  destruct (respond r (released w filePath)) as [[res|e] w2]; simpl in *.
  - done.
  - rewrite Hs. apply difference_twice.
Qed.

(** X4. A request with a file leaves the upload directory as it was, minus
    the path of the upload: the stored file is gone when the route has
    answered, no other file is removed or left behind, and the path of the
    upload is the only one handed to [fs.unlink] (once, or twice when the
    code after the first call throws). *)
Theorem route_leaves_no_file now up name w :
  scratch (snd (route now up (Some name) w))
  = scratch w ∖ {[u "uploads/" ++ filename now name]}
  /\ (unlinked (snd (route now up (Some name) w))
      = unlinked w ++ [u "uploads/" ++ filename now name]
      \/ unlinked (snd (route now up (Some name) w))
         = unlinked w ++ [u "uploads/" ++ filename now name;
                          u "uploads/" ++ filename now name]).
Proof.
  unfold route, upload_single. unfold bind, fs_write, ret. cbn beta iota.
  set (p := u "uploads/" ++ filename now name).
  set (w1 := mkWorld _ _ _). split.
  - rewrite analyze_scratch. subst w1. cbn [scratch]. apply written_then_released.
  - destruct (analyze_releases up p w1) as [_ H]. exact H.
Qed.

(** X5. A truthy [output_parsed] is what the route answers with, whatever
    [output_text] holds: the text is not read.  When it is an object whose
    two array fields are arrays, the report is that object, unchanged, with
    status 200, and nothing is logged. *)
Theorem structured_output_is_preferred r t w :
  truthy (output_parsed r) = true ->
  respond r w = respond (mkApi (output_parsed r) t) w
  /\ (forall ps a b,
        output_parsed r = VObj ps ->
        assoc_get (u "abnormal_findings") ps = Some a -> is_array a = true ->
        assoc_get (u "categorized_analysis") ps = Some b -> is_array b = true ->
        respond r w = (Ok (mkResponse 200 (Report (VObj ps))), w)).
Proof.
  intros Ht. split.
  - unfold respond. cbn [output_parsed]. by rewrite Ht.
  - intros ps a b Hps Ha Hia Hb Hib. unfold respond. rewrite Ht, Hps.
    unfold coerce_array. unfold bind, lift, ret. cbn [truthy get_named].
    rewrite Ha. cbn [default id]. rewrite Hia. cbn [negb get_named].
    rewrite Hb. cbn [default id]. by rewrite Hib.
Qed.

Lemma structured_output_is_preferred_witness :
  respond (mkApi (VObj [(u "abnormal_findings", VArr [] []);
                        (u "categorized_analysis", VArr [VNull] [])])
                 (VStr (u "not JSON"))) empty_world
  = (Ok (mkResponse 200
           (Report (VObj [(u "abnormal_findings", VArr [] []);
                          (u "categorized_analysis", VArr [VNull] [])]))),
     empty_world).
Proof.
  destruct (structured_output_is_preferred
              (mkApi (VObj [(u "abnormal_findings", VArr [] []);
                            (u "categorized_analysis", VArr [VNull] [])])
                     (VStr (u "not JSON"))) VUndef empty_world eq_refl) as [_ H].
  by eapply H.
Defined.

(** X6. When one of the two upstream calls throws, the handler unlinks the
    upload once, writes the error to the console once and answers with
    status 500 and the message of that error. *)
Theorem upstream_failure_is_reported up filePath w e :
  files_create up = Throw e
  \/ (exists fid, files_create up = Ok fid) /\ responses_create up = Throw e ->
  analyze up (Some filePath) w
  = (Ok (mkResponse 500 (Error (MessageOf e))),
     mkWorld (scratch w ∖ {[filePath]}) (unlinked w ++ [filePath])
             (console w ++ [AnalysisFailed e])).
Proof.
  unfold analyze, try_catch, bind, upstream_calls, lift, fs_unlink, console_error, ret.
  intros [-> | [[fid ->] ->]]; reflexivity.
Qed.

Lemma upstream_failure_is_reported_witness :
  analyze (mkUp (Ok (u "file-1")) (Throw (UpstreamError (VStr (u "429 rate limit")))))
          (Some (u "uploads/1700000000000.pdf"))
          (mkWorld {[u "uploads/1700000000000.pdf"]} [] [])
  = (Ok (mkResponse 500 (Error (MessageOf (UpstreamError (VStr (u "429 rate limit")))))),
     mkWorld ({[u "uploads/1700000000000.pdf"]} ∖ {[u "uploads/1700000000000.pdf"]})
             [u "uploads/1700000000000.pdf"]
             [AnalysisFailed (UpstreamError (VStr (u "429 rate limit")))]).
Proof.
  apply (upstream_failure_is_reported
           (mkUp (Ok (u "file-1")) (Throw (UpstreamError (VStr (u "429 rate limit")))))).
  right. split; [by eexists | reflexivity].
Defined.

Lemma respond_answers r w res :
  fst (respond r w) = Ok res ->
  (exists report, res = mkResponse 200 (Report report) /\ truthy report = true)
  \/ res = mkResponse 500 (Error (Literal (u "AI returned invalid JSON"))).
Proof.
  unfold respond, bind, ret.
  set (norm := if truthy (output_parsed r) then _ else _).
  destruct (norm w) as [[parsed|e] w1]; [|done].
  destruct (truthy parsed) eqn:Et; [|intros [= <-]; by right].
  destruct (coerce_array (u "abnormal_findings") parsed w1) as [[p1|e1] w2] eqn:E1; [|done].
  destruct (coerce_array (u "categorized_analysis") p1 w2) as [[p2|e2] w3] eqn:E2; [|done].
  intros [= <-]. left. exists p2. split; [done|].
  revert E1 E2. unfold coerce_array, bind, lift, ret.
  destruct parsed as [| |b|n|s|es xs|ps]; try done.
  - cbn [get_named set_named]. destruct (negb _); intros [= <- _];
      cbn [get_named set_named]; destruct (negb _); by intros [= <- _].
  - cbn [get_named set_named]. destruct (negb _); intros [= <- _];
      cbn [get_named set_named]; destruct (negb _); by intros [= <- _].
Qed.

(** X7. The handler answers every request and lets no exception escape:
    with status 400 exactly when no file came with the request, with status
    200 and a report, or with status 500 and an error. *)
Theorem handler_always_answers up file w :
  exists resp,
    fst (analyze up file w) = Ok resp
    /\ match json resp with
       | Report report => status resp = 200 /\ file <> None /\ truthy report = true
       | Error m =>
           status resp = 400 /\ file = None /\ m = Literal (u "No file uploaded")
           \/ status resp = 500 /\ file <> None
       end.
Proof.
  destruct file as [filePath|].
  2:{ eexists. split; [reflexivity|]. left. done. }
  unfold analyze, try_catch, bind, fs_unlink, console_error, ret.
  destruct (upstream_calls up w) as [[r|e] w0].
  - destruct (respond r (released w0 filePath)) as [[res|e] w2] eqn:Er.
    + exists res. split; [done|].
      destruct (respond_answers _ _ _ (f_equal fst Er)) as [(report & -> & Ht) | ->];
        cbn [json status]; [done | by right].
    + eexists. split; [reflexivity|]. by right.
  - eexists. split; [reflexivity|]. by right.
Qed.

Lemma analyze_report_truthy up file w st report :
  fst (analyze up file w) = Ok (mkResponse st (Report report)) -> truthy report = true.
Proof.
  destruct file as [filePath|]; [|done].
  unfold analyze, try_catch, bind, fs_unlink, console_error, ret.
  destruct (upstream_calls up w) as [[r|e] w0]; [|done].
  destruct (respond r (released w0 filePath)) as [[res|e] w2] eqn:Er; [|done].
  cbn [fst]. intros [= ->].
  by destruct (respond_answers _ _ _ (f_equal fst Er)) as [(report' & [= _ <-] & Ht) | [=]].
Qed.

Lemma written_object ps : written (VObj ps) = Some (VObj (written_props ps)).
Proof. reflexivity. Qed.

Lemma written_props_get k ps x y :
  assoc_get k ps = Some x -> written x = Some y ->
  assoc_get k (written_props ps) = Some y.
Proof.
  intros Hx Hy. induction ps as [|[k' x'] ps IH]; [done|].
  cbn [assoc_get written_props] in *.
  destruct (decide (k = k')) as [<-|Hne].
  - injection Hx as ->. rewrite Hy. cbn [assoc_get]. by rewrite decide_True.
  - destruct (written x'); [|by apply IH].
    cbn [assoc_get]. rewrite decide_False by done. by apply IH.
Qed.

Lemma received_array_field k ps a :
  get_named k (VObj ps) = Ok a -> is_array a = true ->
  exists es, get_named k (received (VObj ps)) = Ok (VArr es []).
Proof.
  cbn [get_named]. intros [= <-] Ha.
  destruct (assoc_get k ps) as [[| | | | |es xs|]|] eqn:E; try done.
  eexists. unfold received. rewrite written_object. cbn [default id get_named].
  by erewrite written_props_get.
Qed.

(** X8. Every report the handler gives to [res.json] comes with status 200
    for a request that had a file, and is an object or an array on which
    [abnormal_findings] and [categorized_analysis] are arrays.  What the
    client reads back is truthy; it has both fields as arrays when the
    report is an object; when the report is an array (the text was a JSON
    array) the two fields were set as named properties of the array, which
    are not written, and the client reads an array without them. *)
Theorem route_report_has_array_fields now up attached w st report :
  fst (route now up attached w) = Ok (mkResponse st (Report report)) ->
  st = 200 /\ attached <> None /\ truthy report = true
  /\ (exists es xs, get_named (u "abnormal_findings") report = Ok (VArr es xs))
  /\ (exists es xs, get_named (u "categorized_analysis") report = Ok (VArr es xs))
  /\ truthy (received report) = true
  /\ ((exists ps es1 es2,
          report = VObj ps
          /\ get_named (u "abnormal_findings") (received report) = Ok (VArr es1 [])
          /\ get_named (u "categorized_analysis") (received report) = Ok (VArr es2 []))
      \/ (exists es xs,
             report = VArr es xs
             /\ received report = VArr (map (fun e => default VNull (written e)) es) []
             /\ get_named (u "abnormal_findings") (received report) = Ok VUndef
             /\ get_named (u "categorized_analysis") (received report) = Ok VUndef)).
Proof.
  destruct attached as [name|]; [|done].
  unfold route, upload_single. unfold bind, fs_write, ret. cbn beta iota.
  set (p := u "uploads/" ++ filename now name). set (w1 := mkWorld _ _ _).
  intros H.
  destruct (report_fields_are_arrays _ _ _ _ _ H) as (-> & (a & Ha & Hia) & (b & Hb & Hib)).
  pose proof (analyze_report_truthy _ _ _ _ _ H) as Ht.
  split; [done|]. split; [done|]. split; [done|].
  split; [destruct a; try done; by do 2 eexists|].
  split; [destruct b; try done; by do 2 eexists|].
  destruct report as [| |c|n|s|es xs|ps]; try done;
    try (cbn [get_named] in Ha; injection Ha as <-; done).
  - split; [done|]. right. by exists es, xs.
  - split; [done|]. left.
    destruct (received_array_field _ _ _ Ha Hia) as [es1 H1].
    destruct (received_array_field _ _ _ Hb Hib) as [es2 H2].
    by exists ps, es1, es2.
Qed.

Lemma route_report_has_array_fields_witness :
  (exists es xs,
      get_named (u "abnormal_findings")
        (VArr [VNum (mkNum false 1 0); VNum (mkNum false 2 0)]
              [(u "abnormal_findings", VArr [] []); (u "categorized_analysis", VArr [] [])])
      = Ok (VArr es xs))
  /\ received
       (VArr [VNum (mkNum false 1 0); VNum (mkNum false 2 0)]
             [(u "abnormal_findings", VArr [] []); (u "categorized_analysis", VArr [] [])])
     = VArr [VNum (mkNum false 1 0); VNum (mkNum false 2 0)] []
  /\ get_named (u "abnormal_findings")
       (received
          (VArr [VNum (mkNum false 1 0); VNum (mkNum false 2 0)]
                [(u "abnormal_findings", VArr [] []); (u "categorized_analysis", VArr [] [])]))
     = Ok VUndef.
Proof.
  destruct (route_report_has_array_fields 1700000000000
              (mkUp (Ok (u "file-1")) (Ok (mkApi VUndef (VStr (u "[1,2]")))))
              (Some (u "report.pdf")) empty_world 200
              (VArr [VNum (mkNum false 1 0); VNum (mkNum false 2 0)]
                    [(u "abnormal_findings", VArr [] []);
                     (u "categorized_analysis", VArr [] [])]))
    as (_ & _ & _ & Ha & _ & _ & [(ps & ? & ? & [=] & _) | (es & xs & _ & _ & Hu & _)]).
  - vm_compute. reflexivity.
  - split; [exact Ha|]. split; [reflexivity | exact Hu].
Defined.

(** ** The routes that read the text only *)

Section TextRoutes.

Variable array_string : list value -> option jsstring.

(** X9. The [safeParseJSON] without the test for an object does what the
    one with the test does on every text that is a string or a primitive;
    on an object it throws where the other returns the object. *)
Theorem text_only_normalizer_agrees text w :
  typeof_object text = false \/ truthy text = false ->
  safeParseJSON_text array_string text w = safeParseJSON text w
  /\ forall ps,
       fst (safeParseJSON (VObj ps) w) = Ok (VObj ps)
       /\ fst (safeParseJSON_text array_string (VObj ps) w)
          = Throw (NotAFunction (u "text.match")).
Proof.
  intros H. split; [|done].
  unfold safeParseJSON_text, safeParseJSON.
  destruct (truthy text) eqn:Et; cbn [negb]; [|done].
  destruct H as [H|H]; [|done]. rewrite H.
  destruct text; done.
Qed.

Lemma upstream_calls_Ok up w r w' :
  upstream_calls up w = (Ok r, w') -> responses_create up = Ok r /\ w' = w.
Proof.
  unfold upstream_calls, bind, lift.
  destruct (files_create up); [|done].
  destruct (responses_create up); [|done]. by intros [= -> ->].
Qed.

(** X10. When the response has no structured output and its text is a
    string or a primitive, the route that reads the text only answers as the
    route that prefers the structured output, with the same effects. *)
Theorem text_only_route_agrees up file w :
  (forall r, responses_create up = Ok r ->
             truthy (output_parsed r) = false
             /\ (typeof_object (output_text r) = false
                 \/ truthy (output_text r) = false)) ->
  analyze_text array_string up file w = analyze up file w.
Proof.
  intros H. destruct file as [filePath|]; [|done].
  unfold analyze_text, analyze, on_error, try_catch, bind.
  destruct (upstream_calls up w) as [[r|e] w0] eqn:Eu; [|done].
  destruct (upstream_calls_Ok _ _ _ _ Eu) as [Hr ->].
  destruct (H r Hr) as [Hp Ht].
  unfold fs_unlink. cbn beta iota.
  unfold respond_text, respond, bind. rewrite Hp.
  unfold safeParseJSON_text, safeParseJSON.
  destruct (truthy (output_text r)) eqn:Et; cbn [negb]; [|done].
  destruct Ht as [Ht|Ht]; [|done]. rewrite Ht.
  destruct (output_text r); done.
Qed.


End TextRoutes.

Lemma text_only_normalizer_agrees_witness :
  safeParseJSON_text (fun _ => None) (VStr (j "{'a': 1,}")) empty_world
  = safeParseJSON (VStr (j "{'a': 1,}")) empty_world
  /\ forall ps,
       fst (safeParseJSON (VObj ps) empty_world) = Ok (VObj ps)
       /\ fst (safeParseJSON_text (fun _ => None) (VObj ps) empty_world)
          = Throw (NotAFunction (u "text.match")).
Proof.
  apply (text_only_normalizer_agrees (fun _ => None) (VStr (j "{'a': 1,}")) empty_world).
  left. reflexivity.
Defined.

Lemma text_only_route_agrees_witness :
  analyze_text (fun _ => None)
    (mkUp (Ok (u "file-1")) (Ok (mkApi VUndef (VStr (u "5")))))
    (Some (u "uploads/1700000000000.pdf")) empty_world
  = analyze (mkUp (Ok (u "file-1")) (Ok (mkApi VUndef (VStr (u "5")))))
            (Some (u "uploads/1700000000000.pdf")) empty_world.
Proof.
  apply (text_only_route_agrees (fun _ => None)
           (mkUp (Ok (u "file-1")) (Ok (mkApi VUndef (VStr (u "5")))))).
  intros r [= <-]. split; [reflexivity | left; reflexivity].
Defined.


(** X12. The route that takes the structured output only unlinks the
    upload exactly once on every path and always answers; a report is the
    [output_parsed] of the response, unchanged, and [output_text] is never
    read. *)
Theorem structured_route_releases_once up filePath w :
  unlinked (snd (analyze_structured up (Some filePath) w)) = unlinked w ++ [filePath]
  /\ scratch (snd (analyze_structured up (Some filePath) w)) = scratch w ∖ {[filePath]}
  /\ (exists resp, fst (analyze_structured up (Some filePath) w) = Ok resp)
  /\ forall st report,
       fst (analyze_structured up (Some filePath) w)
       = Ok (mkResponse st (Report report)) ->
       st = 200 /\ truthy report = true
       /\ exists r, responses_create up = Ok r /\ output_parsed r = report.
Proof.
  unfold analyze_structured, on_error, try_catch.
  unfold bind, fs_unlink, console_error, respond_structured, ret.
  pose proof (upstream_calls_world up w) as Hw.
  destruct (upstream_calls up w) as [[r|e] w0] eqn:Eu; simpl in Hw; subst w0.
  2:{ cbn [fst snd unlinked scratch released logged].
      split; [done|]. split; [done|]. split; [by eexists|]. intros st report [=]. }
  destruct (upstream_calls_Ok _ _ _ _ Eu) as [Hr _].
  destruct (truthy (output_parsed r)) eqn:Et;
    cbn [fst snd unlinked scratch released];
    (split; [done|]); (split; [done|]); (split; [by eexists|]);
    intros st report [=]. subst. repeat split; [done|]. by exists r.
Qed.

(** ** The route that extracts the object without repair *)

(** X13. On a string [extractJSON] never throws and returns null or an
    object; an object is the parse of the span from the first opening
    brace to the last closing brace, taken as it is, and then nothing is
    logged.  No file is touched. *)
Theorem extractJSON_gives_object s w :
  exists v,
    fst (Extract.extractJSON (VStr s) w) = Ok v
    /\ (v = VNull
        \/ exists ps span,
             v = VObj ps /\ match_span s = Some span /\ JSON_parse span = Some v
             /\ snd (Extract.extractJSON (VStr s) w) = w)
    /\ Extract.scratch (snd (Extract.extractJSON (VStr s) w)) = Extract.scratch w
    /\ Extract.unlinked (snd (Extract.extractJSON (VStr s) w)) = Extract.unlinked w.
Proof.
  cbn [Extract.extractJSON].
  destruct (match_span s) as [span|] eqn:E.
  2:{ exists VNull. repeat split. by left. }
  destruct (match_span_brace _ _ E) as [mid ->].
  destruct (JSON_parse (cLBRACE :: mid)) as [v|] eqn:Ev.
  - exists v. destruct (JSON_parse_brace _ _ Ev) as [ps ->].
    repeat split. right. exists ps, (cLBRACE :: mid). done.
  - exists VNull. repeat split. by left.
Qed.

(** X14. A valid JSON object between a prose without an opening brace and
    a prose without a closing brace is recovered by [extractJSON] whatever
    it holds: apostrophes and commas inside its strings do no harm, since
    nothing is rewritten. *)
Theorem extractJSON_recovers_wrapped_object prose P prose2 v w :
  JSON_parse P = Some v ->
  object_text P = true ->
  has_unit cLBRACE prose = false ->
  has_unit cRBRACE prose2 = false ->
  Extract.extractJSON (VStr (prose ++ P ++ prose2)) w = (Ok v, w).
Proof.
  intros Hv [mid ->]%object_text_shape Hpre%has_unit_false Hpost%has_unit_false.
  cbn [Extract.extractJSON].
  by rewrite (match_span_wrapped _ _ _ Hpre Hpost), Hv.
Qed.

Lemma extractJSON_recovers_wrapped_object_witness :
  Extract.extractJSON
    (VStr (u "Here you go: " ++ j "{`note`: `the patient's iron is low, }`}" ++ u " Bye."))
    (Extract.mkWorld ∅ [] [])
  = (Ok (VObj [(u "note", VStr (u "the patient's iron is low, }"))]),
     Extract.mkWorld ∅ [] []).
Proof.
  apply (extractJSON_recovers_wrapped_object
           (u "Here you go: ") (j "{`note`: `the patient's iron is low, }`}") (u " Bye."));
    vm_compute; reflexivity.
Defined.

(** X15. In the route built on [extractJSON], when the text taken from the
    response is a string, the upload is unlinked exactly once and is gone
    at the end, the route answers, and every report is an object whose
    [abnormal_findings] is an array. *)
Theorem extract_route_releases_once up filePath w :
  (forall r, Extract.responses_create up = Ok r ->
             is_string (Extract.response_text r) = true) ->
  Extract.unlinked (snd (Extract.analyze up (Some filePath) w))
  = Extract.unlinked w ++ [filePath]
  /\ Extract.scratch (snd (Extract.analyze up (Some filePath) w))
     = Extract.scratch w ∖ {[filePath]}
  /\ (exists resp, fst (Extract.analyze up (Some filePath) w) = Ok resp)
  /\ forall st report,
       fst (Extract.analyze up (Some filePath) w) = Ok (mkResponse st (Report report)) ->
       st = 200
       /\ exists ps a, report = VObj ps
                       /\ assoc_get (u "abnormal_findings") ps = Some a
                       /\ is_array a = true.
Proof.
  intros H.
  unfold Extract.analyze, Extract.try_catch.
  unfold Extract.bind, Extract.lift, Extract.fs_unlink, Extract.console_error, Extract.ret.
  destruct (Extract.files_create up) as [fid|e].
  2:{ cbn [fst snd Extract.unlinked Extract.scratch].
      split; [done|]. split; [done|]. split; [by eexists|]. intros st report [=]. }
  destruct (Extract.responses_create up) as [r|e].
  2:{ cbn [fst snd Extract.unlinked Extract.scratch].
      split; [done|]. split; [done|]. split; [by eexists|]. intros st report [=]. }
  specialize (H r eq_refl).
  destruct (Extract.response_text r) as [| | | |s| |]; try done.
  unfold Extract.respond, Extract.bind, Extract.lift, Extract.ret.
  cbn [truthy Extract.trimmed Extract.extractJSON].
  destruct s as [|c s].
  { cbn [fst snd Extract.unlinked Extract.scratch].
    split; [done|]. split; [done|]. split; [by eexists|]. intros st report [=]. }
  destruct (trim (c :: s)) as [|c' t].
  { cbn [fst snd Extract.unlinked Extract.scratch].
    split; [done|]. split; [done|]. split; [by eexists|]. intros st report [=]. }
  destruct (match_span (c :: s)) as [span|] eqn:E.
  2:{ cbn [fst snd truthy negb Extract.unlinked Extract.scratch].
      split; [done|]. split; [done|]. split; [by eexists|]. intros st report [=]. }
  destruct (match_span_brace _ _ E) as [mid ->].
  destruct (JSON_parse (cLBRACE :: mid)) as [v|] eqn:Ev.
  2:{ unfold Extract.console_error.
      cbn [fst snd truthy negb Extract.unlinked Extract.scratch].
      split; [done|]. split; [done|]. split; [by eexists|]. intros st report [=]. }
  destruct (JSON_parse_brace _ _ Ev) as [ps ->].
  unfold Extract.coerce_array, Extract.bind, Extract.lift, Extract.ret.
  cbn [truthy negb get_named set_named].
  destruct (is_array (default VUndef (assoc_get (u "abnormal_findings") ps))) eqn:Ea;
    cbn [fst snd negb Extract.unlinked Extract.scratch];
    (split; [done|]); (split; [done|]); (split; [by eexists|]);
    intros st report [= <- <-]; (split; [done|]).
  - destruct (assoc_get (u "abnormal_findings") ps) as [a|] eqn:Eg; [|done].
    by exists ps, a.
  - exists (assoc_set (u "abnormal_findings") (VArr [] []) ps), (VArr [] []).
    by rewrite assoc_get_set.
Qed.

Lemma extract_route_releases_once_witness :
  Extract.unlinked
    (snd (Extract.analyze
            (Extract.mkUp (Ok (u "file-1"))
               (Ok (Extract.mkApi VUndef
                      (VArr [VObj [(u "message",
                                    VObj [(u "content", VStr (j "Report: {`follow_up`: `2 weeks`}"))])]]
                            []))))
            (Some (u "uploads/1700000000000.pdf"))
            (Extract.mkWorld {[u "uploads/1700000000000.pdf"]} [] [])))
  = [u "uploads/1700000000000.pdf"]
  /\ fst (Extract.analyze
            (Extract.mkUp (Ok (u "file-1"))
               (Ok (Extract.mkApi VUndef
                      (VArr [VObj [(u "message",
                                    VObj [(u "content", VStr (j "Report: {`follow_up`: `2 weeks`}"))])]]
                            []))))
            (Some (u "uploads/1700000000000.pdf"))
            (Extract.mkWorld {[u "uploads/1700000000000.pdf"]} [] []))
     = Ok (mkResponse 200
             (Report (VObj [(u "follow_up", VStr (u "2 weeks"));
                            (u "abnormal_findings", VArr [] [])]))).
Proof.
  split; [|vm_compute; reflexivity].
  apply (extract_route_releases_once
           (Extract.mkUp (Ok (u "file-1"))
              (Ok (Extract.mkApi VUndef
                     (VArr [VObj [(u "message",
                                   VObj [(u "content", VStr (j "Report: {`follow_up`: `2 weeks`}"))])]]
                           []))))
           (u "uploads/1700000000000.pdf")
           (Extract.mkWorld {[u "uploads/1700000000000.pdf"]} [] [])).
  intros r [= <-]. reflexivity.
Defined.

(** ** The preview of any report *)

Lemma categoryOrder_NoDup : NoDup categoryOrder.
Proof. apply (bool_decide_unpack _). vm_compute. reflexivity. Qed.

Section PreviewProperties.

Variable unicode_lower : jsstring -> jsstring.

#[local] Abbreviation key_of' := (entry_key unicode_lower).
#[local] Abbreviation last_of' := (last_summary unicode_lower).

Lemma add_category_returns e c :
  (exists c', add_category unicode_lower e c = Ok c') <-> entry_readable e = true.
Proof.
  unfold add_category, entry_readable.
  destruct e as [| |b|n|s|es xs|ps]; cbn [get_named];
    try (split; [intros [c' [=]] | done]);
    try (cbn [truthy negb orb]; split; [done | intros _; by eexists]).
  - destruct (default VUndef (assoc_get (u "category") xs)) as [| |b|n|s|es' xs'|ps'];
      cbn [truthy negb orb is_string];
      try (split; [done | intros _; by eexists]);
      try (split; [intros [c' [=]] | done]).
    + destruct b; cbn [negb]; [split; [intros [c' [=]] | done] | split; [done | by eexists]].
    + destruct (num_is_zero n); cbn [negb];
        [split; [done | by eexists] | split; [intros [c' [=]] | done]].
    + destruct s; cbn [negb orb]; split; try done; intros _; by eexists.
  - destruct (default VUndef (assoc_get (u "category") ps)) as [| |b|n|s|es' xs'|ps'];
      cbn [truthy negb orb is_string];
      try (split; [done | intros _; by eexists]);
      try (split; [intros [c' [=]] | done]).
    + destruct b; cbn [negb]; [split; [intros [c' [=]] | done] | split; [done | by eexists]].
    + destruct (num_is_zero n); cbn [negb];
        [split; [done | by eexists] | split; [intros [c' [=]] | done]].
    + destruct s; cbn [negb orb]; split; try done; intros _; by eexists.
Qed.

(** The loop over the entries returns exactly when every entry can be
    read. *)
Lemma add_categories_returns entries :
  forall c,
    (exists c', add_categories unicode_lower entries c = Ok c')
    <-> Forall (fun e => entry_readable e = true) entries.
Proof.
  induction entries as [|e entries IH]; intros c; cbn [add_categories].
  - split; [constructor | by eexists].
  - split.
    + intros [c' H].
      destruct (add_category unicode_lower e c) as [c1|] eqn:E; [|done].
      constructor; [apply (add_category_returns e c); by eexists|].
      apply (IH c1). by eexists.
    + intros H. inversion H as [|? ? He Hrest]; subst.
      apply (add_category_returns e c) in He as [c1 ->]. by apply IH.
Qed.

(** X16. Whatever the report holds, when the category loop returns, the
    headings rendered are categories of the taxonomy, in its order and each
    at most once (so at most thirteen), and no section has an empty
    paragraph. *)
Theorem sections_follow_taxonomy content secs :
  category_sections unicode_lower content = Ok secs ->
  sublist (map fst secs) categoryOrder
  /\ NoDup (map fst secs)
  /\ (length secs <= 13)%nat
  /\ Forall (fun sec => truthy (snd sec) = true) secs.
Proof.
  unfold category_sections.
  destruct (normalizedCategories unicode_lower content) as [cats|]; [|done].
  intros Heq.
  assert (secs = omap (category_section unicode_lower cats) categoryOrder) as ->
      by congruence.
  clear Heq.
  assert (sublist (map fst (omap (category_section unicode_lower cats) categoryOrder))
            categoryOrder) as Hsub.
  { apply sections_sublist. intros x y. unfold category_section.
    destruct (negb _); [done|]. by intros [= <-]. }
  split; [done|]. split; [|split].
  - eapply sublist_NoDup; [apply categoryOrder_NoDup | done].
  - apply sublist_length in Hsub. rewrite length_map in Hsub. exact Hsub.
  - apply Forall_forall. intros [cat v] (x & _ & Hx)%list_elem_of_omap.
    revert Hx. unfold category_section.
    destruct (truthy (cats_get _ cats)) eqn:Ht; cbn [negb]; [|done].
    by intros [= <- <-].
Qed.

(** X17. For a report whose [categorized_analysis] is an array, the loop
    that files the summaries returns exactly when every entry is a value
    that has properties (neither null nor undefined) and whose [category]
    is falsy or a string; any other entry makes it throw. *)
Theorem preview_returns_iff_entries_readable content entries xs :
  get_named (u "categorized_analysis") content = Ok (VArr entries xs) ->
  (exists secs, category_sections unicode_lower content = Ok secs)
  <-> Forall (fun e => entry_readable e = true) entries.
Proof.
  intros Hfield. unfold category_sections, normalizedCategories.
  rewrite Hfield. cbn [truthy negb].
  rewrite <- (add_categories_returns entries no_categories). split.
  - intros [secs H].
    destruct (add_categories unicode_lower entries no_categories); [by eexists | done].
  - intros [c' ->]. by eexists.
Qed.


Lemma last_summary_Permutation k l l' :
  l ≡ₚ l' -> NoDup (omap key_of' l) -> last_of' k l = last_of' k l'.
Proof.
  induction 1 as [|x l l' Hp IH|x y l|l l' l'' Hp1 IH1 Hp2 IH2]; intros Hnd.
  - done.
  - cbn [last_summary]. rewrite IH; [done|].
    revert Hnd. change (omap key_of' (x :: l))
      with (match key_of' x with Some y => y :: omap key_of' l | None => omap key_of' l end).
    destruct (key_of' x); [by intros [_ ?]%NoDup_cons | done].
  - cbn [last_summary]. destruct (last_of' k l); [done|].
    destruct (bool_decide_reflect (key_of' x = Some k)) as [Hx|Hx];
      destruct (bool_decide_reflect (key_of' y = Some k)) as [Hy|Hy]; try done.
    exfalso. revert Hnd.
    change (omap key_of' (y :: x :: l))
      with (match key_of' y with
            | Some b => b :: match key_of' x with
                             | Some a => a :: omap key_of' l
                             | None => omap key_of' l
                             end
            | None => match key_of' x with
                      | Some a => a :: omap key_of' l
                      | None => omap key_of' l
                      end
            end).
    rewrite Hx, Hy. intros [Hin _]%NoDup_cons. apply Hin. by left.
  - rewrite IH1 by done. apply IH2. by rewrite <- Hp1.
Qed.

(** X19. When no two entries are filed under the same key, the order of
    the entries in the report does not matter: every permutation of them
    renders the same sections. *)
Theorem sections_ignore_entry_order entries entries' others :
  Forall (fun e => entry_shaped e = true) entries ->
  NoDup (omap key_of' entries) ->
  entries ≡ₚ entries' ->
  category_sections unicode_lower (report_with entries others)
  = category_sections unicode_lower (report_with entries' others).
Proof.
  intros Hshape Hnd Hperm.
  rewrite !category_sections_shaped; [|by rewrite <- Hperm|done].
  f_equal. apply omap_ext_Forall. apply Forall_forall. intros cat _.
  by rewrite (last_summary_Permutation _ _ _ Hperm Hnd).
Qed.

End PreviewProperties.

Lemma sections_follow_taxonomy_witness :
  sublist [u "Liver Function"] categoryOrder
  /\ NoDup [u "Liver Function"]
  /\ (1 <= 13)%nat
  /\ Forall (fun sec => truthy (snd sec) = true)
            [(u "Liver Function", VNum (mkNum false 7 0))].
Proof.
  apply (sections_follow_taxonomy (fun s => s)
           (VObj [(u "categorized_analysis",
                   VArr [VObj [(u "category", VStr (u "liver function "));
                               (u "summary", VNum (mkNum false 7 0))];
                         VNum (mkNum false 3 0)] [])])
           [(u "Liver Function", VNum (mkNum false 7 0))]).
  vm_compute. reflexivity.
Defined.

Lemma preview_returns_iff_entries_readable_witness :
  (exists secs,
      category_sections (fun s => s)
        (VObj [(u "categorized_analysis",
                VArr [VObj [(u "category", VNum (mkNum false 0 0))]; VStr (u "x")] [])])
      = Ok secs)
  <-> Forall (fun e => entry_readable e = true)
             [VObj [(u "category", VNum (mkNum false 0 0))]; VStr (u "x")].
Proof.
  apply (preview_returns_iff_entries_readable (fun s => s)
           (VObj [(u "categorized_analysis",
                   VArr [VObj [(u "category", VNum (mkNum false 0 0))]; VStr (u "x")] [])])
           [VObj [(u "category", VNum (mkNum false 0 0))]; VStr (u "x")] []).
  reflexivity.
Defined.


Lemma sections_ignore_entry_order_witness :
  category_sections (fun s => s)
    (report_with
       [ VObj [(u "category", VStr (u "Other")); (u "summary", VStr (u "o"))];
         VObj [(u "category", VStr (u "Urinalysis")); (u "summary", VStr (u "clear"))] ]
       [])
  = category_sections (fun s => s)
      (report_with
         [ VObj [(u "category", VStr (u "Urinalysis")); (u "summary", VStr (u "clear"))];
           VObj [(u "category", VStr (u "Other")); (u "summary", VStr (u "o"))] ]
         []).
Proof.
  apply (sections_ignore_entry_order (fun s => s)).
  - repeat constructor.
  - apply (bool_decide_unpack _). vm_compute. reflexivity.
  - apply perm_swap.
Defined.

(** ** The uploader *)

(** X20. [analyze] of the uploader changes the report only when the
    backend answers with an ok status and a JSON body, and then to the
    [report] of that body with no error shown; in every other case the
    report is the one that was there.  With a file chosen the progress bar
    is off when it ends and the console has received the body if there was
    one; with no file the only change is the error asking for one. *)
Theorem report_changes_only_on_success net st :
  (Client.report (Client.analyze net st) = Client.report st
   \/ exists text json,
        net = Client.Responded true text
        /\ JSON_parse text = Some json
        /\ get_named (u "report") json = Ok (Client.report (Client.analyze net st))
        /\ Client.error (Client.analyze net st) = Client.ErrorValue (VStr []))
  /\ (Client.file st <> None ->
      Client.loading (Client.analyze net st) = false
      /\ Client.file (Client.analyze net st) = Client.file st
      /\ Client.log (Client.analyze net st)
         = Client.log st ++ match net with
                            | Client.Responded _ text => [text]
                            | Client.Rejected _ => []
                            end)
  /\ (Client.file st = None ->
      Client.analyze net st
      = Client.mkUi None (Client.loading st) (Client.report st)
          (Client.ErrorValue (VStr (u "Please choose a PDF first."))) (Client.log st)).
Proof.
  destruct st as [[name|] l r e lg]; unfold Client.analyze; cbn [Client.file].
  2:{ split; [by left|]. split; done. }
  split; [|split; [|done]].
  - destruct net as [m|ok text]; [by left|]. cbn zeta.
    destruct (JSON_parse text) as [json|] eqn:Ej; [|by left].
    unfold Client.settle. destruct ok; cbn [negb].
    + destruct (get_named (u "report") json) as [r'|e'] eqn:Er; [|by left].
      right. exists text, json. done.
    + destruct (get_named (u "error") json); by left.
  - intros _. destruct net as [m|ok text].
    + cbn. by rewrite app_nil_r.
    + cbn zeta. destruct (JSON_parse text) as [json|]; [|done].
      unfold Client.settle. destruct ok; cbn [negb].
      * by destruct (get_named (u "report") json).
      * by destruct (get_named (u "error") json).
Qed.

Lemma step_report s e :
  Client.report (Session.view (Session.step s e)) = Client.report (Session.view s)
  \/ Client.report (Session.view (Session.step s e)) = VNull
  \/ exists text json,
       e = Session.Arrive (Client.Responded true text)
       /\ JSON_parse text = Some json
       /\ get_named (u "report") json
          = Ok (Client.report (Session.view (Session.step s e))).
Proof.
  destruct s as [[f l r er lg] fl]. destruct e as [files| |net]; cbn [Session.step].
  - right. by left.
  - cbn [Session.view Client.loading Client.file]. destruct l; [by left|].
    destruct f; by left.
  - cbn [Session.in_flight]. destruct fl; [|by left].
    cbn [Session.view]. unfold Session.arrive.
    destruct net as [m|ok text]; [by left|]. cbn zeta.
    destruct (JSON_parse text) as [json|] eqn:Ej; [|by left].
    unfold Client.settle. destruct ok; cbn [negb].
    + destruct (get_named (u "report") json) as [r'|e'] eqn:Er; [|by left].
      right. right. by exists text, json.
    + destruct (get_named (u "error") json); by left.
Qed.

Lemma run_snoc evs e s : Session.run (evs ++ [e]) s = Session.step (Session.run evs s) e.
Proof. unfold Session.run. by rewrite fold_left_app. Qed.

Lemma run_app evs evs' s :
  Session.run (evs ++ evs') s = Session.run evs' (Session.run evs s).
Proof. unfold Session.run. by rewrite fold_left_app. Qed.

Lemma report_after_reset evs :
  forall s,
    truthy (Client.report (Session.view s)) = false ->
    truthy (Client.report (Session.view (Session.run evs s))) = true ->
    exists evs1 text json evs2,
      evs = evs1 ++ Session.Arrive (Client.Responded true text) :: evs2
      /\ JSON_parse text = Some json
      /\ get_named (u "report") json = Ok (Client.report (Session.view (Session.run evs s))).
Proof.
  induction evs as [|e evs IH] using rev_ind; intros s Hs; [cbn; congruence|].
  rewrite run_snoc.
  destruct (step_report (Session.run evs s) e) as [-> | [-> | (text & json & -> & Hj & Hr)]].
  - intros Ht. destruct (IH s Hs Ht) as (evs1 & text & json & evs2 & -> & Hj & Hr).
    exists evs1, text, json, (evs2 ++ [e]). by rewrite <- app_assoc.
  - done.
  - intros _. by exists evs, text, json, [].
Qed.

Lemma flight_is_loading evs :
  Session.in_flight (Session.run evs Session.start)
  = Client.loading (Session.view (Session.run evs Session.start)).
Proof.
  induction evs as [|e evs IH] using rev_ind; [done|]. rewrite run_snoc.
  destruct (Session.run evs Session.start) as [[f l r er lg] fl].
  cbn [Session.view Session.in_flight Client.loading] in IH. subst fl.
  destruct e as [files| |net]; cbn [Session.step Session.view Session.in_flight
                                     Client.loading Client.file].
  - done.
  - destruct l; [done|]. by destruct f.
  - destruct l; [|done]. cbn [Session.view Session.in_flight]. unfold Session.arrive.
    destruct net as [m|ok text]; [done|]. cbn zeta.
    destruct (JSON_parse text) as [json|]; [|done].
    unfold Client.settle. destruct ok; cbn [negb].
    + by destruct (get_named (u "report") json).
    + by destruct (get_named (u "error") json).
Qed.

(** X21. The uploader event by event, a file being chosen at any moment,
    also while a response is awaited.  After a file is chosen, a report is
    shown only once an ok response with a JSON body has arrived after that
    choice, and it is the [report] of the body of such a response; the
    request may be one that was sent for the file chosen before.  The
    progress bar shows exactly while a request is awaited, so there is at
    most one; and a click followed by the arrival of its response, with
    nothing in between, is [analyze] as one step. *)
Theorem shown_report_arrived_after_choice :
  (forall before files after,
      truthy (Client.report
                (Session.view
                   (Session.run (before ++ Session.Choose files :: after) Session.start)))
      = true ->
      exists evs1 text json evs2,
        after = evs1 ++ Session.Arrive (Client.Responded true text) :: evs2
        /\ JSON_parse text = Some json
        /\ get_named (u "report") json
           = Ok (Client.report
                   (Session.view
                      (Session.run (before ++ Session.Choose files :: after)
                                   Session.start))))
  /\ (forall evs,
        Session.in_flight (Session.run evs Session.start)
        = Client.loading (Session.view (Session.run evs Session.start)))
  /\ (forall evs net,
        Client.loading (Session.view (Session.run evs Session.start)) = false ->
        Session.view (Session.run (evs ++ [Session.Click; Session.Arrive net]) Session.start)
        = Client.analyze net (Session.view (Session.run evs Session.start))).
Proof.
  split; [|split].
  - intros before files after.
    replace (before ++ Session.Choose files :: after)
      with ((before ++ [Session.Choose files]) ++ after) by (by rewrite <- app_assoc).
    rewrite run_app. apply report_after_reset. by rewrite run_snoc.
  - apply flight_is_loading.
  - intros evs net Hl. rewrite run_app.
    pose proof (flight_is_loading evs) as Hf. rewrite Hl in Hf.
    destruct (Session.run evs Session.start) as [[f l r er lg] fl].
    cbn [Session.view Session.in_flight Client.loading] in *. subst l fl.
    unfold Client.analyze. cbn [Session.run fold_left Session.step Session.view
                                Client.loading Client.file].
    destruct f as [name|]; [|done].
    cbn [Session.in_flight Session.view]. reflexivity.
Qed.

Lemma shown_report_arrived_after_choice_witness :
  Client.file
    (Session.view
       (Session.run
          [Session.Choose [u "a.pdf"]; Session.Click; Session.Choose [u "b.pdf"];
           Session.Arrive (Client.Responded true (j "{`report`: {`follow_up`: `A`}}"));
           Session.Click; Session.Arrive (Client.Responded false (j "{`error`: `busy`}"))]
          Session.start))
  = Some (u "b.pdf")
  /\ exists evs1 text json evs2,
       [Session.Arrive (Client.Responded true (j "{`report`: {`follow_up`: `A`}}"));
        Session.Click; Session.Arrive (Client.Responded false (j "{`error`: `busy`}"))]
       = evs1 ++ Session.Arrive (Client.Responded true text) :: evs2
       /\ JSON_parse text = Some json
       /\ get_named (u "report") json
          = Ok (Client.report
                  (Session.view
                     (Session.run
                        ([Session.Choose [u "a.pdf"]; Session.Click]
                         ++ Session.Choose [u "b.pdf"]
                         :: [Session.Arrive
                               (Client.Responded true (j "{`report`: {`follow_up`: `A`}}"));
                             Session.Click;
                             Session.Arrive (Client.Responded false (j "{`error`: `busy`}"))])
                        Session.start))).
Proof.
  split; [reflexivity|].
  apply (proj1 shown_report_arrived_after_choice
           [Session.Choose [u "a.pdf"]; Session.Click] [u "b.pdf"]).
  vm_compute. reflexivity.
Defined.

(** X22. The two versions of the uploader end in the same state but for
    the console, which only the one that reads the body as text writes to,
    and for the error shown when the body is not JSON. *)
Theorem uploader_versions_agree net st :
  Client.file (Client.analyze net st) = Client.file (Client.analyze_json net st)
  /\ Client.loading (Client.analyze net st) = Client.loading (Client.analyze_json net st)
  /\ Client.report (Client.analyze net st) = Client.report (Client.analyze_json net st)
  /\ Client.log (Client.analyze_json net st) = Client.log st
  /\ ((forall ok text, net = Client.Responded ok text -> JSON_parse text <> None) \/
      Client.file st = None ->
      Client.error (Client.analyze net st) = Client.error (Client.analyze_json net st))
  /\ (forall ok text,
        Client.file st <> None -> net = Client.Responded ok text ->
        JSON_parse text = None ->
        Client.error (Client.analyze net st)
        = Client.ErrorValue (VStr (u "Backend did not return valid JSON"))
        /\ Client.error (Client.analyze_json net st) = Client.MessageOfSyntaxError).
Proof.
  destruct st as [[name|] l r e lg]; unfold Client.analyze, Client.analyze_json;
    cbn [Client.file].
  2:{ repeat split; try done. }
  assert (forall ok json st1 st2,
             Client.file st1 = Client.file st2 ->
             Client.loading st1 = Client.loading st2 ->
             Client.report st1 = Client.report st2 ->
             Client.error st1 = Client.error st2 ->
             Client.file (Client.settle ok json st1) = Client.file (Client.settle ok json st2)
             /\ Client.loading (Client.settle ok json st1)
                = Client.loading (Client.settle ok json st2)
             /\ Client.report (Client.settle ok json st1)
                = Client.report (Client.settle ok json st2)
             /\ Client.error (Client.settle ok json st1)
                = Client.error (Client.settle ok json st2)
             /\ Client.log (Client.settle ok json st2) = Client.log st2) as Hsettle.
  { intros ok json st1 st2 Hf Hl Hr He. unfold Client.settle.
    destruct ok; cbn [negb].
    - destruct (get_named (u "report") json); cbn; by rewrite ?Hf, ?Hl, ?Hr, ?He.
    - destruct (get_named (u "error") json); cbn; by rewrite ?Hf, ?Hl, ?Hr, ?He. }
  destruct net as [m|ok text].
  { repeat split; try done. }
  cbn zeta. destruct (JSON_parse text) as [json|] eqn:Ej.
  - set (st1 := Client.pending _).
    set (st2 := Client.mkUi _ _ _ _ (_ ++ _)).
    destruct (Hsettle ok json st2 st1) as (Hf & Hl & Hr & He & Hlg); try done.
    cbn [Client.finally_done Client.file Client.loading Client.report Client.error
         Client.log].
    split; [done|]. split; [done|]. split; [done|]. split; [by rewrite Hlg|].
    split; [done|]. intros ok' text' _ [= _ <-]. congruence.
  - cbn. split; [done|]. split; [done|]. split; [done|]. split; [done|]. split.
    + intros [H|H]; [|done]. by destruct (H ok text eq_refl).
    + done.
Qed.
